(** * Defect compositing and annotation synthesis: a shallow embedding

    The development follows [batch_transfer/batch_generator.py]
    ([BatchGenerator.generate_batch]), [batch_transfer/layer_editor.py]
    (the contours and the mask of a layer), [batch_transfer/base.py]
    (area and colour of a layer), [batch_transfer/defect_manager.py] (the
    settings of a defect) and [defect_transfer.py] ([DefectTransferNew]).

    Conventions.
    - Python integers are [Z]; [//] is [Z.div] (floor) and [int(_)] on a
      float is truncation toward zero ([py_int]).
    - A NumPy array of shape (rows, cols) is a record [ndarray] holding the
      two extents and the indexing function; only indices inside the shape
      are ever read.
    - binary64 values are read as rationals ([Q]) and float arithmetic as
      exact arithmetic.  Every statement below either holds for all values
      of the quantities computed that way, or is evaluated at inputs
      (factors 0 and 1, scale 100%) where both arithmetics agree.
    - The [random] module is an oracle: a generator state holds an infinite
      sequence of integers and a cursor; every draw reads one entry and
      reduces it into the requested range, so every value of the range is
      reachable and every statement quantifies over all oracles.
    - Exceptions are the [Raised] branch of [outcome]. *)

From Stdlib Require Import String ZArith QArith Qround Qminmax Qabs List Bool Lia Permutation.
Import ListNotations.
Open Scope Z_scope.

(* ================================================================== *)
(** * Part I. Definitions                                              *)
(* ================================================================== *)

(** ** Python built-ins and the [random] module *)
Module Py.

Inductive exn : Type :=
| ValueError
| IndexError
| LoadError
| CvError.

Inductive outcome (A : Type) : Type :=
| Ok (a : A)
| Raised (e : exn).
Arguments Ok {A} a.
Arguments Raised {A} e.

(** Generator state: the oracle and the number of draws made so far. *)
Record rng : Type := { draws : nat -> Z; used : nat }.

Definition Rand (A : Type) : Type := rng -> outcome (A * rng).

Definition ret {A} (a : A) : Rand A := fun g => Ok (a, g).

Definition raise {A} (e : exn) : Rand A := fun _ => Raised e.

Definition bind {A B} (m : Rand A) (k : A -> Rand B) : Rand B :=
  fun g => match m g with
           | Ok (a, g') => k a g'
           | Raised e => Raised e
           end.

Definition len {A} (l : list A) : Z := Z.of_nat (List.length l).

(** [int(q)] for a float [q]: truncation toward zero. *)
Definition py_int (q : Q) : Z := Z.quot (Qnum q) (Zpos (Qden q)).

(** One raw draw from the oracle. *)
Definition next_draw : Rand Z :=
  fun g => Ok (draws g (used g), {| draws := draws g; used := S (used g) |}).

(** [random.randint(a, b)]: an integer N with a <= N <= b; an empty range
    raises [ValueError]. *)
Definition randint (a b : Z) : Rand Z :=
  if a <=? b
  then bind next_draw (fun r => ret (a + r mod (b - a + 1)))
  else raise ValueError.

(** [random.choice(seq)]: [IndexError] on an empty sequence. *)
Definition choice {A} (l : list A) : Rand A :=
  match l with
  | [] => raise IndexError
  | _ :: _ =>
      bind next_draw (fun r =>
        match nth_error l (Z.to_nat (r mod len l)) with
        | Some x => ret x
        | None => raise IndexError
        end)
  end.

Definition remove_at {A} (j : nat) (l : list A) : list A :=
  firstn j l ++ skipn (S j) l.

(** Selection of [k] entries of the pool, each draw removing the chosen
    position from the pool (sampling without replacement). *)
Fixpoint sample_pool {A} (pool : list A) (k : nat) : Rand (list A) :=
  match k with
  | O => ret []
  | S k' =>
      bind next_draw (fun r =>
        let j := Z.to_nat (r mod len pool) in
        match nth_error pool j with
        | Some x => bind (sample_pool (remove_at j pool) k')
                         (fun rest => ret (x :: rest))
        | None => raise IndexError
        end)
  end.

(** [random.sample(population, k)]: a [k]-length list of elements at
    distinct positions of the population; [ValueError] when [k] is
    negative or larger than the population. *)
Definition sample {A} (population : list A) (k : Z) : Rand (list A) :=
  if (k <? 0) || (len population <? k)
  then raise ValueError
  else sample_pool population (Z.to_nat k).

End Py.

Export Py.

Declare Scope rand_scope.
Delimit Scope rand_scope with rand.
Notation "x <- m ;; k" := (bind m (fun x => k))
  (at level 61, m at next level, right associativity) : rand_scope.
Notation "' pat <- m ;; k" := (bind m (fun x => match x with pat => k end))
  (at level 61, pat pattern, m at next level, right associativity) : rand_scope.
Open Scope rand_scope.

(** ** NumPy arrays *)
Module Np.

Record ndarray (A : Type) : Type :=
  { shape0 : Z;            (* rows    *)
    shape1 : Z;            (* columns *)
    item : Z -> Z -> A }.  (* a[y, x] *)
Arguments shape0 {A} _.
Arguments shape1 {A} _.
Arguments item {A} _ _ _.

Definition range (n : Z) : list Z := map Z.of_nat (seq 0 (Z.to_nat n)).

(** All (row, column) index pairs of a rows x cols array in row-major
    order, the order in which [np.where] reports them. *)
Definition indices (rows cols : Z) : list (Z * Z) :=
  flat_map (fun y => map (fun x => (y, x)) (range cols)) (range rows).

(** [np.zeros((rows, cols), dtype=np.uint8)] *)
Definition zeros (rows cols : Z) : ndarray Z :=
  {| shape0 := rows; shape1 := cols; item := fun _ _ => 0 |}.

(** [np.where(cond)] as the list of (row, column) pairs; [where[0]] is
    [map fst] of it and [where[1]] is [map snd]. *)
Definition np_where {A} (cond : A -> bool) (a : ndarray A) : list (Z * Z) :=
  filter (fun p => cond (item a (fst p) (snd p))) (indices (shape0 a) (shape1 a)).

(** [np.where(a > 0)] on an integer array and on a float array. *)
Definition where_positive (a : ndarray Z) : list (Z * Z) :=
  np_where (fun v => 0 <? v) a.

Definition Qpositive (q : Q) : bool := 0 <? Qnum q.

Definition where_positiveQ (a : ndarray Q) : list (Z * Z) :=
  np_where Qpositive a.

(** [np.min] and [np.max] of a non-empty list ([d] is never returned for
    one). *)
Definition np_min (d : Z) (l : list Z) : Z :=
  match l with
  | [] => d
  | x :: t => fold_left Z.min t x
  end.

Definition np_max (d : Z) (l : list Z) : Z :=
  match l with
  | [] => d
  | x :: t => fold_left Z.max t x
  end.

(** [a[top:bottom, left:right]] for 0 <= top and 0 <= left, the only way
    the code slices; the extents are clipped to the array like Python's. *)
Definition slice {A} (a : ndarray A) (top bottom left right : Z) : ndarray A :=
  {| shape0 := Z.max 0 (Z.min bottom (shape0 a) - top);
     shape1 := Z.max 0 (Z.min right (shape1 a) - left);
     item := fun y x => item a (top + y) (left + x) |}.

(** [a[top:bottom, left:right] = v] for a value of the slice's shape. *)
Definition assign_slice {A} (a : ndarray A) (top bottom left right : Z)
           (v : ndarray A) : ndarray A :=
  {| shape0 := shape0 a;
     shape1 := shape1 a;
     item := fun y x =>
       if (top <=? y) && (y <? bottom) && (left <=? x) && (x <? right)
       then item v (y - top) (x - left)
       else item a y x |}.

Definition map_array {A B} (f : A -> B) (a : ndarray A) : ndarray B :=
  {| shape0 := shape0 a; shape1 := shape1 a;
     item := fun y x => f (item a y x) |}.

Definition map2_array {A B C} (f : A -> B -> C) (a : ndarray A) (b : ndarray B)
  : ndarray C :=
  {| shape0 := shape0 a; shape1 := shape1 a;
     item := fun y x => f (item a y x) (item b y x) |}.

End Np.

Export Np.

(** ** Images and the external imaging libraries *)

(** A contour point is (x, y), as OpenCV stores it. *)
Definition point : Type := (Z * Z)%type.
Definition contour : Type := list point.

Definition bgr : Type := (Z * Z * Z)%type.
Definition bgra : Type := (Z * Z * Z * Z)%type.

(** What [cv2.imread(path, cv2.IMREAD_UNCHANGED)] can return: a 2-D
    grayscale array, a 3-channel or a 4-channel one. *)
Inductive image : Type :=
| Gray (a : ndarray Z)
| Bgr (a : ndarray bgr)
| Bgra (a : ndarray bgra).

Definition image_shape (i : image) : Z * Z :=
  match i with
  | Gray a => (shape0 a, shape1 a)
  | Bgr a => (shape0 a, shape1 a)
  | Bgra a => (shape0 a, shape1 a)
  end.

(** The 2x3 matrix of an affine map, row by row. *)
Record affine : Type :=
  { m00 : Q; m01 : Q; m02 : Q;
    m10 : Q; m11 : Q; m12 : Q }.

(** The functions of OpenCV and scikit-image the code calls, as far as
    their results are not fixed by their documentation:
    - which pixels the rasterisation of a polygon covers ([cv2.fillPoly]);
    - the interpolated values of [cv2.resize] and [cv2.warpAffine] (their
      output shape is the requested one);
    - the cosine and sine [cv2.getRotationMatrix2D] computes for an angle
      in degrees;
    - [skimage.transform.resize] of a mask, [None] when it raises;
    - the gray level of [cv2.cvtColor(_, cv2.COLOR_BGR2GRAY)];
    - [cv2.findContours(_, RETR_EXTERNAL, CHAIN_APPROX_NONE)] and
      [cv2.contourArea]. *)
Class External : Type :=
  { polygon_covers : contour -> Z -> Z -> bool;
    resize_values : forall A : Type, ndarray A -> Z -> Z -> Z -> Z -> A;
    warp_values : forall A : Type, A -> ndarray A -> affine -> Z -> Z -> Z -> Z -> A;
    cos_sin : Z -> Q * Q;
    skimage_resize : ndarray Q -> Z -> Z -> option (Z -> Z -> Q);
    bgr2gray : bgr -> Z;
    findContours : ndarray Z -> list contour;
    contourArea : contour -> Q }.

Module Cv.
Section WithExternal.
Context `{Ext : External}.

(** [cv2.fillPoly(img, [pts], color)]: covered pixels take the colour. *)
Definition fillPoly (img : ndarray Z) (pts : contour) (color : Z) : ndarray Z :=
  {| shape0 := shape0 img; shape1 := shape1 img;
     item := fun y x => if polygon_covers pts y x then color else item img y x |}.

(** [cv2.subtract] on uint8 arrays: saturating per-element difference. *)
Definition sat_sub (u v : Z) : Z := Z.max 0 (u - v).

Definition subtract (a b : ndarray Z) : ndarray Z :=
  map2_array sat_sub a b.

(** [cv2.resize(src, (new_w, new_h))]; an empty size is an error. *)
Definition resize {A} (src : ndarray A) (new_w new_h : Z) : outcome (ndarray A) :=
  if (0 <? new_w) && (0 <? new_h)
  then Ok {| shape0 := new_h; shape1 := new_w;
             item := resize_values A src new_w new_h |}
  else Raised CvError.

(** [cv2.warpAffine(src, M, (new_w, new_h))] with the default constant
    border. *)
Definition warpAffine {A} (border : A) (src : ndarray A) (M : affine)
           (new_w new_h : Z) : ndarray A :=
  {| shape0 := new_h; shape1 := new_w;
     item := warp_values A border src M new_w new_h |}.

(** [cv2.getRotationMatrix2D(center, angle, 1.0)]:
    [[a, b, (1-a)*cx - b*cy], [-b, a, b*cx + (1-a)*cy]] with a the cosine
    and b the sine of the angle. *)
Definition getRotationMatrix2D (center : Z * Z) (angle : Z) : affine :=
  let '(a, b) := cos_sin angle in
  let cx := inject_Z (fst center) in
  let cy := inject_Z (snd center) in
  {| m00 := a; m01 := b; m02 := (1 - a) * cx - b * cy;
     m10 := - b; m11 := a; m12 := b * cx + (1 - a) * cy |}%Q.

(** [cv2.threshold(src, thresh, maxval, cv2.THRESH_BINARY)] *)
Definition threshold (src : ndarray Z) (thresh maxval : Z) : ndarray Z :=
  map_array (fun v => if thresh <? v then maxval else 0) src.

End WithExternal.
End Cv.

(** Where an affine map sends the source point (x, y). *)
Definition apply_affine (M : affine) (p : Q * Q) : Q * Q :=
  let '(x, y) := p in
  (m00 M * x + m01 M * y + m02 M, m10 M * x + m11 M * y + m12 M)%Q.

(** ** [LayerEditor.save_current_layer]: the mask of a hollow layer *)
Module LayerEditor.
Section WithExternal.
Context `{Ext : External}.

(** The loop "subtract every inner contour in turn". *)
Definition subtract_inner_fills (hollow_mask : ndarray Z)
           (inner_fills : list (ndarray Z)) : ndarray Z :=
  fold_left Cv.subtract inner_fills hollow_mask.

Definition fill_contour (height width : Z) (c : contour) : ndarray Z :=
  Cv.fillPoly (zeros height width) c 255.

(** What is stored in [layer_masks] when the layer has more than one
    contour: the first is the outer one, the others are the holes. *)
Definition hollow_mask (height width : Z) (outer_contour : contour)
           (inner_contours : list contour) : ndarray Z :=
  subtract_inner_fills (fill_contour height width outer_contour)
                       (map (fill_contour height width) inner_contours).

(** An entry of [layer_masks]. *)
Inductive layer_mask : Type :=
| NoMask                        (* None *)
| ContourMask (pts : contour)   (* the point list of a solid layer *)
| ArrayMask (a : ndarray Z).    (* the raster of a hollow layer *)

(** The branch on the number of drawn contours; the Boolean is the
    [hollow_layers] entry.  Without a target image nothing is stored for
    several contours, which is not modelled. *)
Definition save_current_layer (height width : Z) (contours : list contour)
  : option (layer_mask * bool) :=
  match contours with
  | [] => None
  | [c] => Some (ContourMask c, false)
  | outer :: inners => Some (ArrayMask (hollow_mask height width outer inners), true)
  end.

End WithExternal.
End LayerEditor.

Export LayerEditor.

(** Whether the pixel at index pair [p] is positive. *)
Definition positive_at (a : ndarray Z) (p : Z * Z) : bool :=
  0 <? item a (fst p) (snd p).

(** Number of pixels with a positive value, [len(np.where(a > 0)[0])]. *)
Definition count_positive (a : ndarray Z) : Z := len (where_positive a).

(** Number of pixels positive in both arrays (indexed over the first). *)
Definition count_both (a b : ndarray Z) : Z :=
  len (filter (fun p => positive_at a p && positive_at b p)
              (indices (shape0 a) (shape1 a))).

(** Number of pixels of [a] positive in at least one of the arrays [bs]. *)
Definition count_covered (a : ndarray Z) (bs : list (ndarray Z)) : Z :=
  len (filter (fun p => positive_at a p && existsb (fun b => positive_at b p) bs)
              (indices (shape0 a) (shape1 a))).

(** The spec's count for a hollow region, following its words:
    pixelCount(fill(O)) - sum over j of pixelCount(fill(I_j) /\ fill(O)). *)
Definition spec_hollow_count (outer : ndarray Z) (inners : list (ndarray Z)) : Z :=
  count_positive outer - fold_right Z.add 0 (map (count_both outer) inners).

(** No pixel of [outer] is positive in both [a] and [b]. *)
Definition disjoint_inside (outer a b : ndarray Z) : bool :=
  forallb (fun p => negb (positive_at outer p && positive_at a p && positive_at b p))
          (indices (shape0 outer) (shape1 outer)).

Fixpoint pairwise_disjoint_inside (outer : ndarray Z) (l : list (ndarray Z)) : bool :=
  match l with
  | [] => true
  | a :: t => forallb (disjoint_inside outer a) t && pairwise_disjoint_inside outer t
  end.

(** ** [BatchGenerator.generate_batch] *)
Module BatchGenerator.

(** [dict.get(key, default)] on an optional entry. *)
Definition get {A} (entry : option A) (default : A) : A :=
  match entry with
  | Some v => v
  | None => default
  end.

(** The ['info'] dictionary of a defect. *)
Record defect_info : Type :=
  { scale_min : option Z; scale_max : option Z;
    alpha_min : option Z; alpha_max : option Z;
    angle_min : option Z; angle_max : option Z;
    defect_type : option string }.

(** A selected defect; [loaded] is what [cv2.imread] returns for its
    path ([None] when the file cannot be decoded). *)
Record defect : Type :=
  { name : string; loaded : option image; info : defect_info }.

(** The region of a layer as the code holds it: bounds, number of valid
    pixels and the [np.where] result. *)
Record region : Type :=
  { min_y : Z; max_y : Z; min_x : Z; max_x : Z;
    valid_pixel_count : Z;
    where_ : list (Z * Z) }.

Record placement : Type :=
  { center_y : Z; center_x : Z; new_h : Z; new_w : Z }.

Record rect : Type := { left : Z; top : Z; right : Z; bottom : Z }.

(** An entry of [defect_info_list]. *)
Record defect_record : Type :=
  { rec_name : string;
    rec_rect : rect;
    defect_roi : ndarray bgr;
    mask_roi : option (ndarray (Q * Q * Q)) }.

(** The canvas of the image being generated and its records. *)
Record state : Type :=
  { result_image : ndarray bgr;
    defect_info_list : list defect_record }.

(** A polygon shape of the JSON document and an object of the XML one. *)
Record json_shape : Type :=
  { label : string; points : list (Z * Z); shape_type : string }.

Record xml_object : Type :=
  { obj_name : string; xmin : Z; ymin : Z; xmax : Z; ymax : Z }.

(** Lines 93-103: which defects go on this image. *)
Definition defects_to_transfer {A} (chk_random_defect : bool)
           (spin_max_defects : Z) (selected_defects : list A) : Rand (list A) :=
  if chk_random_defect && negb (len selected_defects =? 0)
  then
    let max_defects := spin_max_defects in
    num_to_keep <- randint 1 (Z.min max_defects (len selected_defects)) ;;
    sample selected_defects num_to_keep
  else ret selected_defects.

(** Lines 244-245: the scaled size, [int(h * scale)] and [int(w * scale)]. *)
Definition scaled_size (h w : Z) (scale : Q) : Z * Z :=
  (py_int (inject_Z h * scale), py_int (inject_Z w * scale)).

(** Lines 248-295: the centre of the defect and the size used for it. *)
Definition sample_center (is_hollow mask_given : bool) (r : region)
           (new_h new_w : Z) : Rand placement :=
  if is_hollow && mask_given
  then
    if 0 <? valid_pixel_count r
    then
      let new_h := Z.max 10 new_h in
      let new_w := Z.max 10 new_w in
      random_index <- randint 0 (valid_pixel_count r - 1) ;;
      match nth_error (where_ r) (Z.to_nat random_index) with
      | Some p =>
          ret {| center_y := fst p; center_x := snd p;
                 new_h := new_h; new_w := new_w |}
      | None => raise IndexError
      end
    else
      ret {| center_y := (min_y r + max_y r) / 2;
             center_x := (min_x r + max_x r) / 2;
             new_h := new_h; new_w := new_w |}
  else
    let layer_height := Z.max 1 (max_y r - min_y r + 1) in
    let layer_width := Z.max 1 (max_x r - min_x r + 1) in
    let new_h := Z.max 10 new_h in
    let new_w := Z.max 10 new_w in
    let available_height := Z.max 0 (layer_height - new_h) in
    let available_width := Z.max 0 (layer_width - new_w) in
    if (0 <? available_height) && (0 <? available_width)
    then
      offset_y <- randint 0 available_height ;;
      offset_x <- randint 0 available_width ;;
      ret {| center_y := min_y r + offset_y + new_h / 2;
             center_x := min_x r + offset_x + new_w / 2;
             new_h := new_h; new_w := new_w |}
    else
      ret {| center_y := (min_y r + max_y r) / 2;
             center_x := (min_x r + max_x r) / 2;
             new_h := new_h; new_w := new_w |}.

(** Lines 314-317 (and [apply_rotation_to_image], [create_temp_preview]):
    the size of the rotated sprite, (new_width, new_height). *)
Definition rotated_size (M : affine) (h w : Z) : Z * Z :=
  let cos_theta := Qabs (m00 M) in
  let sin_theta := Qabs (m01 M) in
  (py_int (inject_Z h * sin_theta + inject_Z w * cos_theta),
   py_int (inject_Z h * cos_theta + inject_Z w * sin_theta))%Q.

(** Lines 320-321: the translation added to the matrix. *)
Definition recenter (M : affine) (center : Z * Z) (new_width new_height : Z)
  : affine :=
  {| m00 := m00 M; m01 := m01 M;
     m02 := m02 M + (inject_Z new_width / 2 - inject_Z (fst center));
     m10 := m10 M; m11 := m11 M;
     m12 := m12 M + (inject_Z new_height / 2 - inject_Z (snd center)) |}%Q.

(** Lines 331-334: the rectangle the sprite is pasted into. *)
Definition target_rect (center_y center_x new_h new_w : Z) : rect :=
  let top_y := center_y - new_h / 2 in
  let left_x := center_x - new_w / 2 in
  let bottom_y := top_y + new_h in
  let right_x := left_x + new_w in
  {| left := left_x; top := top_y; right := right_x; bottom := bottom_y |}.

(** Lines 365-368: the part of it inside the image. *)
Definition clip_rect (rows cols : Z) (t : rect) : rect :=
  {| left := Z.max 0 (left t); top := Z.max 0 (top t);
     right := Z.min cols (right t); bottom := Z.min rows (bottom t) |}.

(** Line 377. *)
Definition nonempty_rect (v : rect) : bool :=
  (top v <? bottom v) && (left v <? right v).

(** Line 357. *)
Definition draw_alpha (alpha : Q) : Q := Qmax (1 # 2) alpha.

(** [_.astype(np.uint8)] of a float. *)
Definition astype_uint8 (q : Q) : Z := py_int q mod 256.

(** [_.astype(np.uint8)] of an integer array (line 407), per pixel: an
    8-bit value is kept, a wider one (a 16-bit sprite) keeps its low
    byte. *)
Definition to_uint8 (p : bgr) : bgr :=
  let '(b, g, r) := p in (b mod 256, g mod 256, r mod 256).

(** Line 392, one channel: [result * (1 - mask) + defect * mask]. *)
Definition blend_channel (result : Z) (mask : Q) (defect : Z) : Z :=
  astype_uint8 (inject_Z result * (1 - mask) + inject_Z defect * mask)%Q.

Definition blend_pixel (result : bgr) (mask : Q * Q * Q) (defect : bgr) : bgr :=
  let '(rb, rg, rr) := result in
  let '(mb, mg, mr) := mask in
  let '(db, dg, dr) := defect in
  (blend_channel rb mb db, blend_channel rg mg dg, blend_channel rr mr dr).

(** Lines 340-353: colour channels and normalised alpha of the sprite. *)
Definition split_channels (resized_defect : image)
  : ndarray bgr * option (ndarray Q) :=
  match resized_defect with
  | Gray a => (map_array (fun v => (v, v, v)) a, None)
  | Bgra a =>
      (map_array (fun p : bgra => let '(b, g, r, _) := p in (b, g, r)) a,
       Some (map_array (fun p : bgra => let '(_, _, _, al) := p in
                                        (inject_Z al / 255)%Q) a))
  | Bgr a => (a, None)
  end.

(** The spec's compositing rule, following its words:
    out = src*mask*blend + dst*(1 - mask*blend). *)
Definition spec_alpha_over (src : Z) (mask blend : Q) (dst : Z) : Z :=
  astype_uint8 (inject_Z src * mask * blend + inject_Z dst * (1 - mask * blend))%Q.

Section WithExternal.
Context `{Ext : External}.

(** [np.array(layer_mask)] of a point list: an n x 2 array. *)
Definition array_of_points (pts : contour) : ndarray Z :=
  {| shape0 := len pts; shape1 := 2;
     item := fun y x =>
       let p := nth (Z.to_nat y) pts (0, 0) in
       if x =? 0 then fst p else snd p |}.

Definition region_of (min_y max_y min_x max_x count : Z) (wh : list (Z * Z))
  : region :=
  {| min_y := min_y; max_y := max_y; min_x := min_x; max_x := max_x;
     valid_pixel_count := count; where_ := wh |}.

(** Lines 215-216 and 221-222: the bounding box of the valid pixels. *)
Definition bbox_region (wh : list (Z * Z)) : region :=
  region_of (np_min 0 (map fst wh)) (np_max 0 (map fst wh))
            (np_min 0 (map snd wh)) (np_max 0 (map snd wh)) (len wh) wh.

(** Lines 147-148, 189-191 and 226-228: the whole image. *)
Definition whole_region (img_height img_width count : Z) (wh : list (Z * Z)) : region :=
  region_of 0 (img_height - 1) 0 (img_width - 1) count wh.

(** Lines 146-239: bounds and valid pixels of the chosen layer.  The
    defaults are the whole image; they survive for a missing mask, for a
    hollow layer without valid pixels and when the mask could not be
    resized. *)
Definition layer_region (is_hollow : bool) (layer_mask : layer_mask)
           (img_height img_width : Z) : region :=
  let whole := whole_region img_height img_width in
  match layer_mask with
  | NoMask => whole 0 []
  | _ =>
      let layer_array : ndarray Q :=
        match layer_mask with
        | ContourMask pts =>
            if negb is_hollow
            then map_array inject_Z (Cv.fillPoly (zeros img_height img_width) pts 255)
            else map_array inject_Z (array_of_points pts)
        | ArrayMask a => map_array inject_Z a
        | NoMask => map_array inject_Z (zeros 0 0)
        end in
      let '(layer_array, solid_layer_set) :=
        if (shape0 layer_array =? img_height) && (shape1 layer_array =? img_width)
        then (layer_array, false)
        else
          match skimage_resize layer_array img_height img_width with
          | Some v =>
              ({| shape0 := img_height; shape1 := img_width; item := v |}, false)
          | None => (layer_array, negb is_hollow)
          end in
      let wh := where_positiveQ layer_array in
      let valid_pixel_count := len wh in
      if (0 <? valid_pixel_count) && negb solid_layer_set
      then bbox_region wh
      else if (valid_pixel_count =? 0) && negb is_hollow
      then whole (img_height * img_width) wh
      else whole valid_pixel_count wh
  end.

(** Lines 171-201 for the raster of a hollow layer: the array whose
    positive pixels are the valid pixels.  It is the stored raster, or,
    when that has not the shape of the image, what
    [skimage.transform.resize] makes of it; when the resize raises the
    stored raster is kept. *)
Definition hollow_layer_array (a : ndarray Z) (img_height img_width : Z)
  : ndarray Q :=
  let layer_array := map_array inject_Z a in
  if (shape0 layer_array =? img_height) && (shape1 layer_array =? img_width)
  then layer_array
  else
    match skimage_resize layer_array img_height img_width with
    | Some v => {| shape0 := img_height; shape1 := img_width; item := v |}
    | None => layer_array
    end.

(** [cv2.resize(defect_img, (new_w, new_h))] on each kind of image. *)
Definition resize_image (img : image) (new_w new_h : Z) : outcome image :=
  match img with
  | Gray a => match Cv.resize a new_w new_h with
              | Ok r => Ok (Gray r) | Raised e => Raised e end
  | Bgr a => match Cv.resize a new_w new_h with
             | Ok r => Ok (Bgr r) | Raised e => Raised e end
  | Bgra a => match Cv.resize a new_w new_h with
              | Ok r => Ok (Bgra r) | Raised e => Raised e end
  end.

Definition warp_image (img : image) (M : affine) (new_w new_h : Z) : image :=
  match img with
  | Gray a => Gray (Cv.warpAffine 0 a M new_w new_h)
  | Bgr a => Bgr (Cv.warpAffine (0, 0, 0) a M new_w new_h)
  | Bgra a => Bgra (Cv.warpAffine (0, 0, 0, 0) a M new_w new_h)
  end.

(** Lines 307-321: the matrix handed to [cv2.warpAffine] and the size of
    its output, for a sprite of h rows and w columns. *)
Definition rotation_plan (h w angle : Z) : affine * Z * Z :=
  let center := (w / 2, h / 2) in
  let M := Cv.getRotationMatrix2D center angle in
  let '(new_width, new_height) := rotated_size M h w in
  (recenter M center new_width new_height, new_width, new_height).

(** Lines 304-327: the rotated sprite and the size used afterwards. *)
Definition apply_rotation (resized_defect : image) (angle new_h new_w : Z)
  : image * Z * Z :=
  if angle =? 0
  then (resized_defect, new_h, new_w)
  else
    let '(h, w) := image_shape resized_defect in
    let '(M, new_width, new_height) := rotation_plan h w angle in
    (warp_image resized_defect M new_width new_height, new_height, new_width).

(** The size used for the pasted rectangle: the sampled size, or after a
    rotation the size of the rotated sprite (line 327). *)
Definition placed_size (p : placement) (angle : Z) : Z * Z :=
  if angle =? 0
  then (new_h p, new_w p)
  else
    let '(_, new_width, new_height) := rotation_plan (new_h p) (new_w p) angle in
    (new_height, new_width).

(** Lines 329-420: paste the transformed sprite around the centre. *)
Definition composite (st : state) (resized_defect : image)
           (center_y center_x new_h new_w : Z) (alpha : Q)
           (defect_info : defect_info) : state :=
  let t := target_rect center_y center_x new_h new_w in
  let '(resized_defect, mask) := split_channels resized_defect in
  let draw_alpha := draw_alpha alpha in
  let v := clip_rect (shape0 (result_image st)) (shape1 (result_image st)) t in
  let defect_top := top v - top t in
  let defect_left := left v - left t in
  let defect_bottom := defect_top + (bottom v - top v) in
  let defect_right := defect_left + (right v - left v) in
  if nonempty_rect v
  then
    let result_roi := slice (result_image st) (top v) (bottom v) (left v) (right v) in
    let defect_roi :=
      slice resized_defect defect_top defect_bottom defect_left defect_right in
    let defect_type := get (BatchGenerator.defect_type defect_info) "default_defect"%string in
    match mask with
    | Some mask =>
        let mask_roi := slice mask defect_top defect_bottom defect_left defect_right in
        let mask_roi := map_array (fun m => (m, m, m)) mask_roi in
        let blended :=
          {| shape0 := shape0 result_roi; shape1 := shape1 result_roi;
             item := fun y x => blend_pixel (item result_roi y x)
                                            (item mask_roi y x)
                                            (item defect_roi y x) |} in
        {| result_image :=
             assign_slice (result_image st) (top v) (bottom v) (left v) (right v) blended;
           defect_info_list :=
             defect_info_list st ++
             [{| rec_name := defect_type; rec_rect := v;
                 defect_roi := defect_roi; mask_roi := Some mask_roi |}] |}
    | None =>
        {| result_image :=
             assign_slice (result_image st) (top v) (bottom v) (left v) (right v)
                          (map_array to_uint8 defect_roi);
           defect_info_list :=
             defect_info_list st ++
             [{| rec_name := defect_type; rec_rect := v;
                 defect_roi := defect_roi; mask_roi := None |}] |}
    end
  else st.

(** Lines 299-422, the [try] block of one defect: resize, rotate, paste.
    An exception inside it is printed and the defect is skipped. *)
Definition place_defect (st : state) (defect_img : image) (p : placement)
           (angle : Z) (alpha : Q) (defect_info : defect_info) : state :=
  match resize_image defect_img (new_w p) (new_h p) with
  | Raised _ => st
  | Ok resized_defect =>
      let '(resized_defect, new_h, new_w) :=
        apply_rotation resized_defect angle (new_h p) (new_w p) in
      composite st resized_defect (center_y p) (center_x p) new_h new_w
                alpha defect_info
  end.

(** Lines 130-134. *)
Definition choose_layer (chk_random_layer : bool) (selected_layers : list Z)
  : Rand Z :=
  if chk_random_layer && negb (len selected_layers =? 0)
  then choice selected_layers
  else match selected_layers with
       | layer_num :: _ => ret layer_num
       | [] => raise IndexError
       end.

Definition mask_given (m : layer_mask) : bool :=
  match m with
  | NoMask => false
  | _ => true
  end.

(** Lines 106-422: the body of the loop over the defects of one image. *)
Definition transfer_defect (chk_random_layer : bool) (selected_layers : list Z)
           (layer_masks : Z -> layer_mask) (hollow_layers : Z -> bool)
           (st : state) (d : defect) : Rand state :=
  match loaded d with
  | None => raise LoadError
  | Some defect_img =>
      let defect_info := info d in
      s <- randint (get (scale_min defect_info) 100) (get (scale_max defect_info) 100) ;;
      a <- randint (get (alpha_min defect_info) 100) (get (alpha_max defect_info) 100) ;;
      let scale := (inject_Z s / 100)%Q in
      let alpha := (inject_Z a / 100)%Q in
      angle <- randint (get (angle_min defect_info) 0) (get (angle_max defect_info) 360) ;;
      layer_num <- choose_layer chk_random_layer selected_layers ;;
      let layer_mask := layer_masks layer_num in
      let img_height := shape0 (result_image st) in
      let img_width := shape1 (result_image st) in
      let is_hollow := hollow_layers layer_num in
      let r := layer_region is_hollow layer_mask img_height img_width in
      let '(h, w) := image_shape defect_img in
      let '(new_h, new_w) := scaled_size h w scale in
      p <- sample_center is_hollow (mask_given layer_mask) r new_h new_w ;;
      ret (place_defect st defect_img p angle alpha defect_info)
  end.

Fixpoint transfer_defects (chk_random_layer : bool) (selected_layers : list Z)
         (layer_masks : Z -> layer_mask) (hollow_layers : Z -> bool)
         (st : state) (ds : list defect) : Rand state :=
  match ds with
  | [] => ret st
  | d :: ds' =>
      st' <- transfer_defect chk_random_layer selected_layers layer_masks
                             hollow_layers st d ;;
      transfer_defects chk_random_layer selected_layers layer_masks
                       hollow_layers st' ds'
  end.

(** One turn of the loop over [generate_count]: canvas and records of
    one output image. *)
Definition generate_image (chk_random_layer chk_random_defect : bool)
           (spin_max_defects : Z) (selected_layers : list Z)
           (layer_masks : Z -> layer_mask) (hollow_layers : Z -> bool)
           (target_image : ndarray bgr) (selected_defects : list defect)
  : Rand state :=
  ds <- defects_to_transfer chk_random_defect spin_max_defects selected_defects ;;
  transfer_defects chk_random_layer selected_layers layer_masks hollow_layers
                   {| result_image := target_image; defect_info_list := [] |} ds.

(** [sorted(contours, key=cv2.contourArea, reverse=True)]: descending,
    equal keys in their original order. *)
Fixpoint insert_desc {A} (key : A -> Q) (x : A) (l : list A) : list A :=
  match l with
  | [] => [x]
  | y :: t => if Qle_bool (key y) (key x) then x :: l else y :: insert_desc key x t
  end.

Definition sorted_desc {A} (key : A -> Q) (l : list A) : list A :=
  fold_right (insert_desc key) [] l.

(** Lines 453-472: the contours of a placed defect. *)
Definition record_contours (r : defect_record) : list contour :=
  match mask_roi r with
  | Some mask_roi =>
      let mask_gray :=
        map_array (fun m : Q * Q * Q =>
                     let '(b, g, r) := m in
                     (astype_uint8 (b * 255), astype_uint8 (g * 255),
                      astype_uint8 (r * 255))%Q) mask_roi in
      let mask_gray := map_array bgr2gray mask_gray in
      findContours mask_gray
  | None =>
      let roi_gray := map_array bgr2gray (defect_roi r) in
      let binary := Cv.threshold roi_gray 1 255 in
      findContours binary
  end.

Definition rect_corners (v : rect) : list (Z * Z) :=
  [(left v, top v); (right v, top v); (right v, bottom v); (left v, bottom v)].

(** Lines 474-496: the polygon of a placed defect. *)
Definition record_points (r : defect_record) : list (Z * Z) :=
  let rect := rec_rect r in
  let points :=
    match sorted_desc contourArea (record_contours r) with
    | largest_contour :: _ =>
        map (fun p : point => (fst p + left rect, snd p + top rect)) largest_contour
    | [] => []
    end in
  match points with
  | [] => rect_corners rect
  | _ :: _ => points
  end.

(** Lines 446-511 and 554-582: the two annotation documents. *)
Definition shape_of_record (r : defect_record) : json_shape :=
  {| label := rec_name r; points := record_points r;
     shape_type := "polygon"%string |}.

Definition object_of_record (r : defect_record) : xml_object :=
  {| obj_name := rec_name r;
     xmin := left (rec_rect r); ymin := top (rec_rect r);
     xmax := right (rec_rect r); ymax := bottom (rec_rect r) |}.

Definition json_shapes (l : list defect_record) : list json_shape :=
  map shape_of_record l.

Definition xml_objects (l : list defect_record) : list xml_object :=
  map object_of_record l.

End WithExternal.
End BatchGenerator.

Export BatchGenerator.

(** A rectangle lies in an image of the given size and is not empty. *)
Definition rect_in_image (rows cols : Z) (v : rect) : Prop :=
  0 <= left v < right v /\ right v <= cols /\
  0 <= top v < bottom v /\ bottom v <= rows.

(** The bounding box of an XML object lies in an image of the given size. *)
Definition bndbox_in_image (rows cols : Z) (o : xml_object) : Prop :=
  0 <= xmin o < xmax o /\ xmax o <= cols /\
  0 <= ymin o < ymax o /\ ymax o <= rows.

(** Every record's rectangle lies in the canvas. *)
Definition records_in_image (st : state) : Prop :=
  Forall (fun r => rect_in_image (shape0 (result_image st))
                                 (shape1 (result_image st)) (rec_rect r))
         (defect_info_list st).

(** What a step keeps: the shape of the canvas and records inside it. *)
Definition keeps_records (st st' : state) : Prop :=
  shape0 (result_image st') = shape0 (result_image st) /\
  shape1 (result_image st') = shape1 (result_image st) /\
  (records_in_image st -> records_in_image st').

(** Whether (y, x) is a pixel of the rectangle. *)
Definition in_rect (v : rect) (y x : Z) : bool :=
  (top v <=? y) && (y <? bottom v) && (left v <=? x) && (x <? right v).

(** ** A small instance of the external interface

    Used to evaluate the definitions on concrete inputs.  It rasterises a
    polygon by its bounding box, samples by nearest neighbour, knows the
    exact cosine and sine of the quarter turns, and reports the outline of
    the bounding box of the positive pixels as the only contour; it agrees
    with the libraries on axis-parallel rectangles and quarter turns, the
    only inputs it is run on. *)
Module Reference.

Definition box_covers (pts : contour) (y x : Z) : bool :=
  match pts with
  | [] => false
  | _ :: _ =>
      (np_min 0 (map fst pts) <=? x) && (x <=? np_max 0 (map fst pts)) &&
      (np_min 0 (map snd pts) <=? y) && (y <=? np_max 0 (map snd pts))
  end.

Definition nearest_values (A : Type) (src : ndarray A) (new_w new_h y x : Z) : A :=
  item src (y * shape0 src / new_h) (x * shape1 src / new_w).

Definition round_half_up (q : Q) : Z := Qfloor (q + (1 # 2)).

(** Source pixel of the destination pixel (x, y): the linear part of a
    rotation is inverted by its transpose. *)
Definition nearest_warp (A : Type) (border : A) (src : ndarray A) (M : affine)
           (new_w new_h y x : Z) : A :=
  let dx := (inject_Z x - m02 M)%Q in
  let dy := (inject_Z y - m12 M)%Q in
  let sx := round_half_up (m00 M * dx + m10 M * dy) in
  let sy := round_half_up (m01 M * dx + m11 M * dy) in
  if (0 <=? sx) && (sx <? shape1 src) && (0 <=? sy) && (sy <? shape0 src)
  then item src sy sx
  else border.

Definition quarter_cos_sin (angle : Z) : Q * Q :=
  if angle mod 360 =? 90 then (0, 1)%Q
  else if angle mod 360 =? 180 then (- (1), 0)%Q
  else if angle mod 360 =? 270 then (0, - (1))%Q
  else (1, 0)%Q.

Definition nearest_mask (a : ndarray Q) (rows cols : Z) : option (Z -> Z -> Q) :=
  Some (fun y x => item a (y * shape0 a / rows) (x * shape1 a / cols)).

Definition luma (p : bgr) : Z :=
  let '(b, g, r) := p in (114 * b + 587 * g + 299 * r + 500) / 1000.

Definition box_outline (a : ndarray Z) : list contour :=
  match where_positive a with
  | [] => []
  | wh =>
      let y0 := np_min 0 (map fst wh) in
      let y1 := np_max 0 (map fst wh) in
      let x0 := np_min 0 (map snd wh) in
      let x1 := np_max 0 (map snd wh) in
      [ map (fun y => (x0, y)) (map (Z.add y0) (range (y1 - y0)))
        ++ map (fun x => (x, y1)) (map (Z.add x0) (range (x1 - x0)))
        ++ map (fun y => (x1, y)) (map (Z.sub y1) (range (y1 - y0)))
        ++ map (fun x => (x, y0)) (map (Z.sub x1) (range (x1 - x0))) ]
  end.

(** Twice the signed area by the shoelace formula, halved. *)
Fixpoint shoelace (first : point) (c : contour) : Z :=
  match c with
  | [] => 0
  | p :: t =>
      let q := match t with [] => first | q :: _ => q end in
      fst p * snd q - fst q * snd p + shoelace first t
  end.

Definition polygon_area (c : contour) : Q :=
  match c with
  | [] => 0%Q
  | p :: _ => (inject_Z (Z.abs (shoelace p c)) / 2)%Q
  end.

#[export] Instance external : External :=
  {| polygon_covers := box_covers;
     resize_values := nearest_values;
     warp_values := nearest_warp;
     cos_sin := quarter_cos_sin;
     skimage_resize := nearest_mask;
     bgr2gray := luma;
     findContours := box_outline;
     contourArea := polygon_area |}.

End Reference.

(** ** [BaseBatchTransferComponent]: area and colour of a layer *)
Module Base.


(** [calculate_area]: the shoelace sum over i in range(n) with
    j = (i + 1) % n, then abs(area) / 2.0; fewer than three points give
    0.0.  Coordinates are the integers the rectangle and pen tools
    store. *)
Definition shoelace_sum (contour : contour) : Z :=
  let n := List.length contour in
  fold_left (fun area i =>
               let j := ((i + 1) mod n)%nat in
               area + fst (nth i contour (0, 0)) * snd (nth j contour (0, 0))
                    - fst (nth j contour (0, 0)) * snd (nth i contour (0, 0)))
            (seq 0 n) 0.

Definition calculate_area (contour : contour) : Q :=
  if len contour <? 3
  then 0%Q
  else (inject_Z (Z.abs (shoelace_sum contour)) / 2)%Q.


Definition layer_colors : list (list Z) :=
  [ [255; 0; 0; 100]; [0; 255; 0; 100]; [0; 0; 255; 100];
    [255; 255; 0; 100]; [255; 0; 255; 100]; [0; 255; 255; 100];
    [128; 0; 0; 100]; [0; 128; 0; 100]; [0; 0; 128; 100] ].

(** [get_layer_color]: [layer_colors[(layer_num - 1) % len(layer_colors)]];
    Python's [%] with a positive modulus is [Z.modulo]. *)
Definition get_layer_color (layer_num : Z) : outcome (list Z) :=
  match nth_error layer_colors (Z.to_nat ((layer_num - 1) mod len layer_colors)) with
  | Some c => Ok c
  | None => Raised IndexError
  end.

End Base.

Export Base.

(** ** [LayerEditor]: the contours of the layer being drawn *)
Module LayerContours.
Section WithExternal.
Context `{Ext : External}.

(** [np.sum(a)] of a uint8 array (accumulated in a wide integer). *)
Definition np_sum (a : ndarray Z) : Z :=
  fold_right Z.add 0 (map (fun p => item a (fst p) (snd p))
                          (indices (shape0 a) (shape1 a))).

(** Line 385 and [on_layer_double_clicked]: the area shown for a hollow
    layer, [np.sum(hollow_mask) / 255.0]. *)
Definition hollow_area (hollow_mask : ndarray Z) : Q :=
  (inject_Z (np_sum hollow_mask) / 255)%Q.

(** What the editor keeps for the current layer: the contours collected
    so far ([layer_contours]), the stored mask with its hollow flag
    ([layer_masks], [hollow_layers]) and the area it last showed. *)
Record editor : Type :=
  { layer_contours : list contour;
    stored : option (layer_mask * bool);
    shown_area : option Q }.

(** [add_inner_contour]: an empty drawing is refused with a warning, any
    other is appended. *)
Definition add_inner_contour (e : editor) (drawn : contour) : editor :=
  match drawn with
  | [] => e
  | _ :: _ =>
      {| layer_contours := layer_contours e ++ [drawn];
         stored := stored e; shown_area := shown_area e |}
  end.

(** [save_current_layer] with a target image of the given size loaded:
    the drawing is appended, one contour is stored as a solid layer with
    its shoelace area, several as a hollow mask with its pixel area, and
    the collected contours are cleared. *)
Definition save_layer (height width : Z) (e : editor) (drawn : contour) : editor :=
  match drawn with
  | [] => e
  | _ :: _ =>
      match layer_contours e ++ [drawn] with
      | [] => e
      | [c] =>
          {| layer_contours := [];
             stored := Some (ContourMask drawn, false);
             shown_area := Some (calculate_area drawn) |}
      | outer :: inners =>
          let m := hollow_mask height width outer inners in
          {| layer_contours := [];
             stored := Some (ArrayMask m, true);
             shown_area := Some (hollow_area m) |}
      end
  end.

(** [reset_current_drawing]: mask and contours of the layer are
    dropped. *)
Definition reset_current_drawing (e : editor) : editor :=
  {| layer_contours := []; stored := None; shown_area := shown_area e |}.

End WithExternal.
End LayerContours.

Export LayerContours.

(** ** [DefectManager.save_defect_scale_settings] *)
Module DefectManager.

(** Lines 461-484 on the six parsed fields: each is brought into its
    range, then a maximum below its minimum is raised to it. *)
Definition save_defect_scale_settings
           (scale_min scale_max alpha_min alpha_max angle_min angle_max : Z)
           (defect_type : string) : defect_info :=
  let scale_min := Z.max 1 (Z.min scale_min 500) in
  let scale_max := Z.max 1 (Z.min scale_max 500) in
  let alpha_min := Z.max 0 (Z.min alpha_min 100) in
  let alpha_max := Z.max 0 (Z.min alpha_max 100) in
  let angle_min := Z.max 0 (Z.min angle_min 360) in
  let angle_max := Z.max 0 (Z.min angle_max 360) in
  let scale_max := if scale_max <? scale_min then scale_min else scale_max in
  let alpha_max := if alpha_max <? alpha_min then alpha_min else alpha_max in
  let angle_max := if angle_max <? angle_min then angle_min else angle_max in
  {| BatchGenerator.scale_min := Some scale_min;
     BatchGenerator.scale_max := Some scale_max;
     BatchGenerator.alpha_min := Some alpha_min;
     BatchGenerator.alpha_max := Some alpha_max;
     BatchGenerator.angle_min := Some angle_min;
     BatchGenerator.angle_max := Some angle_max;
     BatchGenerator.defect_type := Some defect_type |}.

End DefectManager.

(** The three ranges [generate_batch] draws from, with its defaults for
    missing keys, are not empty. *)
Definition valid_ranges (di : defect_info) : Prop :=
  get (scale_min di) 100 <= get (scale_max di) 100 /\
  get (alpha_min di) 100 <= get (alpha_max di) 100 /\
  get (angle_min di) 0 <= get (angle_max di) 360.

(** The label a defect's records carry. *)
Definition label_of (d : defect) : string :=
  get (defect_type (info d)) "default_defect"%string.

(** The cosine and sine of every angle satisfy |cos| + |sin| >= 1, as
    those of a real angle do. *)
Definition cos_sin_sound `{Ext : External} : Prop :=
  forall angle : Z,
    (1 <= Qabs (fst (cos_sin angle)) + Qabs (snd (cos_sin angle)))%Q.

(** No record's rectangle holds the pixel (y, x). *)
Definition outside_records (l : list defect_record) (y x : Z) : Prop :=
  forall r, In r l -> in_rect (rec_rect r) y x = false.





(** ** [generate_batch]: the checks before the loop and the loop over the
    images *)
Module Batch.
Section WithExternal.
Context `{Ext : External}.


(** [preview_defects.get(defect_name, {})] for a name without settings. *)
Definition no_info : defect_info :=
  {| scale_min := None; scale_max := None; alpha_min := None; alpha_max := None;
     angle_min := None; angle_max := None; defect_type := None |}.






End WithExternal.
End Batch.

Export Batch.

(** ** [defect_transfer.py]: [DefectTransferNew] *)
Module DefectTransfer.

(** What a method can raise to its caller. *)
Inductive error : Type :=
| Cv2Error
| AttributeError.

Inductive returned (A : Type) : Type :=
| Returns (a : A)
| Raises (e : error).
Arguments Returns {A} a.
Arguments Raises {A} e.

Section WithExternal.
Context `{Ext : External}.

(** The attributes of the object.  [cropped] holds [cropped_defect] and
    [cropped_mask]: [__init__] does not create them, [_extract_defect]
    sets both at once, and [None] stands for the missing attributes.
    Angles are whole degrees. *)
Record transfer : Type :=
  { original_image : option (ndarray bgr);
    target_image : option (ndarray bgr);
    defect_mask : option (ndarray Z);
    cropped : option (ndarray bgr * ndarray Z);
    current_position : Z * Z;          (* (x, y) *)
    current_scale : Q;
    current_rotation : Z }.

(** [__init__] *)
Definition init : transfer :=
  {| original_image := None; target_image := None; defect_mask := None;
     cropped := None; current_position := (0, 0); current_scale := 1%Q;
     current_rotation := 0 |}.

(** [load_images] on what [cv2.imread] returns for the two paths: the
    target is not read when the original cannot be decoded. *)
Definition load_images (t : transfer) (original target : option (ndarray bgr))
  : transfer * bool :=
  match original with
  | None =>
      ({| original_image := None; target_image := target_image t;
          defect_mask := defect_mask t; cropped := cropped t;
          current_position := current_position t;
          current_scale := current_scale t;
          current_rotation := current_rotation t |}, false)
  | Some _ =>
      ({| original_image := original; target_image := target;
          defect_mask := defect_mask t; cropped := cropped t;
          current_position := current_position t;
          current_scale := current_scale t;
          current_rotation := current_rotation t |},
       match target with Some _ => true | None => false end)
  end.

(** [cv2.bitwise_and(img, img, mask=mask)]: the pixel where the mask is
    not 0, zeros elsewhere. *)
Definition bitwise_and_mask (img : ndarray bgr) (mask : ndarray Z) : ndarray bgr :=
  {| shape0 := shape0 img; shape1 := shape1 img;
     item := fun y x => if item mask y x =? 0 then (0, 0, 0) else item img y x |}.

(** [_extract_defect], lines 61-101.  The second component is the
    exception it ends with, if any; the attributes assigned before it keep
    their new values. *)
Definition extract_defect (t : transfer) : transfer * option error :=
  match original_image t, defect_mask t with
  | Some original, Some mask =>
      let resized :=
        if (shape0 mask =? shape0 original) && (shape1 mask =? shape1 original)
        then Ok mask
        else Cv.resize mask (shape1 original) (shape0 original) in
      match resized with
      | Raised _ => (t, Some Cv2Error)
      | Ok mask =>
          let defect_region := bitwise_and_mask original mask in
          let wh := where_positive mask in
          if 0 <? len wh
          then
            let x_min := np_min 0 (map snd wh) in
            let y_min := np_min 0 (map fst wh) in
            let x_max := np_max 0 (map snd wh) in
            let y_max := np_max 0 (map fst wh) in
            let cropped_defect :=
              slice defect_region y_min (y_max + 1) x_min (x_max + 1) in
            let cropped_mask := slice mask y_min (y_max + 1) x_min (x_max + 1) in
            match target_image t with
            | Some target =>
                ({| original_image := original_image t;
                    target_image := target_image t;
                    defect_mask := Some mask;
                    cropped := Some (cropped_defect, cropped_mask);
                    current_position :=
                      ((shape1 target - shape1 cropped_defect) / 2,
                       (shape0 target - shape0 cropped_defect) / 2);
                    current_scale := current_scale t;
                    current_rotation := current_rotation t |}, None)
            | None =>
                ({| original_image := original_image t;
                    target_image := target_image t;
                    defect_mask := Some mask;
                    cropped := Some (cropped_defect, cropped_mask);
                    current_position := current_position t;
                    current_scale := current_scale t;
                    current_rotation := current_rotation t |},
                 Some AttributeError)
            end
          else
            ({| original_image := original_image t;
                target_image := target_image t;
                defect_mask := Some mask;
                cropped := cropped t;
                current_position := current_position t;
                current_scale := current_scale t;
                current_rotation := current_rotation t |}, None)
      end
  | _, _ => (t, None)
  end.

(** [set_defect_mask] for a two-dimensional integer mask:
    [mask.astype(np.uint8)], then [_extract_defect]. *)
Definition set_defect_mask (t : transfer) (mask : ndarray Z)
  : transfer * option error :=
  extract_defect
    {| original_image := original_image t; target_image := target_image t;
       defect_mask := Some (map_array (fun v => v mod 256) mask);
       cropped := cropped t; current_position := current_position t;
       current_scale := current_scale t;
       current_rotation := current_rotation t |}.


(** [set_scale]: [max(0.1, min(scale, 5.0))]. *)
Definition set_scale (t : transfer) (scale : Q) : transfer :=
  {| original_image := original_image t; target_image := target_image t;
     defect_mask := defect_mask t; cropped := cropped t;
     current_position := current_position t;
     current_scale := Qmax (1 # 10) (Qmin scale 5);
     current_rotation := current_rotation t |}.

Definition set_rotation (t : transfer) (angle : Z) : transfer :=
  {| original_image := original_image t; target_image := target_image t;
     defect_mask := defect_mask t; cropped := cropped t;
     current_position := current_position t;
     current_scale := current_scale t; current_rotation := angle |}.

(** [apply_scale_only] on the cropped pair, lines 120-140. *)
Definition apply_scale_only (cropped : ndarray bgr * ndarray Z) (current_scale : Q)
  : outcome (ndarray bgr * ndarray Z) :=
  let '(cropped_defect, cropped_mask) := cropped in
  if negb (Qeq_bool current_scale 1)
  then
    let new_width := py_int (inject_Z (shape1 cropped_defect) * current_scale) in
    let new_height := py_int (inject_Z (shape0 cropped_defect) * current_scale) in
    match Cv.resize cropped_defect new_width new_height with
    | Raised e => Raised e
    | Ok scaled_defect =>
        match Cv.resize cropped_mask new_width new_height with
        | Raised e => Raised e
        | Ok scaled_mask => Ok (scaled_defect, scaled_mask)
        end
    end
  else Ok (cropped_defect, cropped_mask).

(** [cv2.warpAffine(src, M, dsize)] as this file calls it: an empty
    source is an error, and for an empty [dsize] the output takes the
    size of the source. *)
Definition warp_affine {A} (border : A) (src : ndarray A) (M : affine)
           (new_width new_height : Z) : outcome (ndarray A) :=
  if (0 <? shape1 src) && (0 <? shape0 src)
  then
    if (0 <? new_width) && (0 <? new_height)
    then Ok (Cv.warpAffine border src M new_width new_height)
    else Ok (Cv.warpAffine border src M (shape1 src) (shape0 src))
  else Raised CvError.

(** [apply_rotation_to_image], lines 147-181; the only array of integers
    warped in this file is the mask, with [cv2.INTER_NEAREST]. *)
Definition apply_rotation_to_image (image : ndarray bgr) (mask : ndarray Z)
           (angle : Z) : outcome (ndarray bgr * ndarray Z) :=
  if angle =? 0
  then Ok (image, mask)
  else
    let '(rotation_matrix, new_width, new_height) :=
      rotation_plan (shape0 image) (shape1 image) angle in
    match warp_affine (0, 0, 0) image rotation_matrix new_width new_height with
    | Raised e => Raised e
    | Ok rotated_image =>
        match warp_affine 0 mask rotation_matrix new_width new_height with
        | Raised e => Raised e
        | Ok rotated_mask =>
            let rotated_mask :=
              map_array (fun v => Z.min 255 (Z.max 0 v) mod 256) rotated_mask in
            Ok (rotated_image, Cv.threshold rotated_mask 127 255)
        end
    end.

(** [_apply_transformations], lines 188-198. *)
Definition apply_transformations (cropped : ndarray bgr * ndarray Z)
           (current_scale : Q) (current_rotation : Z)
  : outcome (ndarray bgr * ndarray Z) :=
  match apply_scale_only cropped current_scale with
  | Raised e => Raised e
  | Ok (scaled_defect, scaled_mask) =>
      if negb (current_rotation =? 0)
      then apply_rotation_to_image scaled_defect scaled_mask current_rotation
      else Ok (scaled_defect, scaled_mask)
  end.

(** Lines 248-253 (and 311-316) for one pixel: where the mask is
    positive the channels are mixed, elsewhere they are kept; the float
    result is stored into the uint8 image. *)
Definition blend_where (mask : Z) (target defect : bgr) (blend_strength : Q) : bgr :=
  let '(tb, tg, tr) := target in
  let '(db, dg, dr) := defect in
  if 0 <? mask
  then (blend_channel tb blend_strength db,
        blend_channel tg blend_strength dg,
        blend_channel tr blend_strength dr)
  else (astype_uint8 (inject_Z tb), astype_uint8 (inject_Z tg),
        astype_uint8 (inject_Z tr)).

(** The horizontal (or vertical) position used: lines 220-221. *)
Definition clamp_position (x extent defect_extent : Z) : Z :=
  Z.max 0 (Z.min x (extent - defect_extent)).

(** Lines 216-259, repeated as lines 283-322: clamp the position, give up
    ([None]) when the sprite still leaves the image, else blend it into a
    copy of the target.  Sprite and mask have one shape, being cropped,
    resized and rotated together. *)
Definition blend_region (target : ndarray bgr) (defect : ndarray bgr)
           (mask : ndarray Z) (position : Z * Z) (blend_strength : Q)
  : option (ndarray bgr) :=
  let '(x, y) := position in
  let x := clamp_position x (shape1 target) (shape1 defect) in
  let y := clamp_position y (shape0 target) (shape0 defect) in
  let y_end := y + shape0 defect in
  let x_end := x + shape1 defect in
  if (shape0 target <? y_end) || (shape1 target <? x_end)
  then None
  else
    let target_region := slice target y y_end x x_end in
    let blended :=
      {| shape0 := shape0 target_region; shape1 := shape1 target_region;
         item := fun i j => blend_where (item mask i j) (item target_region i j)
                                        (item defect i j) blend_strength |} in
    Some (assign_slice target y y_end x x_end blended).

(** [blend_defect]: [None] without a target image, [AttributeError]
    while nothing was extracted, [None] for every exception of the [try]
    block. *)
Definition blend_defect (t : transfer) (blend_strength : Q)
  : returned (option (ndarray bgr)) :=
  match target_image t with
  | None => Returns None
  | Some target =>
      match cropped t with
      | None => Raises AttributeError
      | Some c =>
          match apply_scale_only c (current_scale t) with
          | Raised _ => Returns None
          | Ok (scaled_defect, scaled_mask) =>
              Returns (blend_region target scaled_defect scaled_mask
                                    (current_position t) blend_strength)
          end
      end
  end.

(** [blend_defect_with_rotation]: as [blend_defect] with the rotated
    sprite; when that leaves the image or an exception is raised, the
    result of [blend_defect].  The debug image written at line 320 is
    left out. *)
Definition blend_defect_with_rotation (t : transfer) (blend_strength : Q)
  : returned (option (ndarray bgr)) :=
  match target_image t with
  | None => Returns None
  | Some target =>
      match cropped t with
      | None => Raises AttributeError
      | Some c =>
          match apply_transformations c (current_scale t) (current_rotation t) with
          | Raised _ => blend_defect t blend_strength
          | Ok (transformed_defect, transformed_mask) =>
              match blend_region target transformed_defect transformed_mask
                                 (current_position t) blend_strength with
              | None => blend_defect t blend_strength
              | Some result => Returns (Some result)
              end
          end
      end
  end.

End WithExternal.
End DefectTransfer.




(* ================================================================== *)
(** * Part II. Properties                                              *)
(* ================================================================== *)

(** ** The oracle *)
Section RandomFacts.

Lemma bind_ok {A B} (m : Rand A) (k : A -> Rand B) g a g' :
  m g = Ok (a, g') -> bind m k g = k a g'.
Proof. unfold bind. intros ->. reflexivity. Qed.

Lemma randint_range a b g :
  a <= b ->
  exists r g', randint a b g = Ok (r, g') /\ a <= r <= b.
Proof.
  intros Hab. unfold randint.
  destruct (Z.leb_spec a b) as [_|Hlt]; [|lia].
  eexists. eexists. split; [reflexivity|].
  pose proof (Z.mod_pos_bound (draws g (used g)) (b - a + 1)). lia.
Qed.

(** Every value of the range is the result for some oracle. *)
Lemma randint_onto a b r :
  a <= r <= b ->
  exists g g', randint a b g = Ok (r, g').
Proof.
  intros Hr.
  exists {| draws := fun _ => r - a; used := O |}. eexists.
  unfold randint. destruct (Z.leb_spec a b) as [_|Hlt]; [|lia].
  unfold bind, next_draw, ret. cbn.
  rewrite Z.mod_small by lia. replace (a + (r - a)) with r by lia.
  reflexivity.
Qed.

Lemma len_nonneg {A} (l : list A) : 0 <= len l.
Proof. unfold len. lia. Qed.

Lemma len_app {A} (l1 l2 : list A) : len (l1 ++ l2) = len l1 + len l2.
Proof. unfold len. rewrite length_app. lia. Qed.

Lemma index_in_pool {A} (pool : list A) r :
  pool <> [] -> (Z.to_nat (r mod len pool) < List.length pool)%nat.
Proof.
  intros Hne. unfold len.
  assert (0 < Z.of_nat (List.length pool)).
  { destruct pool; [congruence|]. cbn [List.length]. lia. }
  pose proof (Z.mod_pos_bound r (Z.of_nat (List.length pool))). lia.
Qed.

Lemma remove_at_perm {A} (pool : list A) j x :
  nth_error pool j = Some x ->
  Permutation (x :: remove_at j pool) pool /\
  List.length (remove_at j pool) = pred (List.length pool).
Proof.
  intros Hn. destruct (nth_error_split pool j Hn) as (l1 & l2 & -> & Hlen).
  unfold remove_at.
  assert (Hf : firstn j (l1 ++ x :: l2) = l1).
  { rewrite <- Hlen. rewrite firstn_app, firstn_all, Nat.sub_diag.
    cbn. apply app_nil_r. }
  assert (Hs : skipn (S j) (l1 ++ x :: l2) = l2).
  { replace (l1 ++ x :: l2) with ((l1 ++ [x]) ++ l2) by (rewrite <- app_assoc; reflexivity).
    replace (S j) with (List.length (l1 ++ [x])) by (rewrite length_app; cbn; lia).
    rewrite skipn_app, skipn_all, Nat.sub_diag. reflexivity. }
  rewrite Hf, Hs. split.
  - apply Permutation_middle.
  - rewrite !length_app. cbn. lia.
Qed.

Lemma sample_pool_spec {A} (k : nat) :
  forall (pool : list A) g,
    (k <= List.length pool)%nat ->
    exists picked g',
      sample_pool pool k g = Ok (picked, g') /\
      List.length picked = k /\
      exists rest, Permutation (picked ++ rest) pool.
Proof.
  induction k as [|k IH]; intros pool g Hk.
  - exists [], g. split; [reflexivity|]. split; [reflexivity|].
    exists pool. reflexivity.
  - assert (Hne : pool <> []) by (destruct pool; cbn in Hk; [lia|congruence]).
    cbn [sample_pool]. unfold bind at 1, next_draw.
    set (g1 := {| draws := draws g; used := S (used g) |}).
    set (j := Z.to_nat (draws g (used g) mod len pool)).
    assert (Hj : (j < List.length pool)%nat) by (apply index_in_pool; exact Hne).
    destruct (nth_error pool j) as [x|] eqn:Hx.
    2:{ apply nth_error_None in Hx. lia. }
    destruct (remove_at_perm pool j x Hx) as [Hperm Hlen].
    destruct (IH (remove_at j pool) g1) as (picked & g' & Hrun & Hl & rest & Hrest).
    { lia. }
    exists (x :: picked), g'. split.
    { unfold bind. rewrite Hrun. reflexivity. }
    split; [cbn; lia|].
    exists rest. cbn. rewrite <- Hperm. constructor. exact Hrest.
Qed.

(** Every ordered selection of entries at distinct positions of the pool
    is what [sample_pool] returns when the oracle holds the right
    positions. *)
Lemma sample_pool_reach {A} (picked : list A) :
  forall (pool rest : list A),
    Permutation (picked ++ rest) pool ->
    exists js : list Z,
      List.length js = List.length picked /\
      forall g,
        (forall i, (i < List.length js)%nat ->
                   draws g (used g + i)%nat = nth i js 0) ->
        exists g', sample_pool pool (List.length picked) g = Ok (picked, g').
Proof.
  induction picked as [|x picked IH]; intros pool rest Hperm.
  - exists []. split; [reflexivity|]. intros g _. exists g. reflexivity.
  - assert (Hin : In x pool).
    { apply (Permutation_in x Hperm). left. reflexivity. }
    destruct (In_nth_error _ _ Hin) as [j Hj].
    assert (Hlt : (j < List.length pool)%nat) by (apply nth_error_Some; congruence).
    destruct (remove_at_perm pool j x Hj) as [Hrem _].
    assert (Hperm' : Permutation (picked ++ rest) (remove_at j pool)).
    { apply (Permutation_cons_inv (a := x)). cbn [app] in Hperm.
      rewrite Hperm. symmetry. exact Hrem. }
    destruct (IH _ _ Hperm') as (js & Hlen & Hrun).
    exists (Z.of_nat j :: js). split; [cbn [List.length]; lia|].
    intros g Hdraws.
    destruct (Hrun {| draws := draws g; used := S (used g) |}) as [g' Hg'].
    { intros i Hi. cbn [draws used].
      replace (S (used g) + i)%nat with (used g + S i)%nat by lia.
      rewrite Hdraws by (cbn [List.length]; lia). reflexivity. }
    exists g'. cbn [List.length sample_pool]. unfold bind at 1, next_draw.
    assert (H0 : draws g (used g) = Z.of_nat j).
    { specialize (Hdraws O ltac:(cbn [List.length]; lia)).
      rewrite Nat.add_0_r in Hdraws. exact Hdraws. }
    rewrite H0.
    replace (Z.to_nat (Z.of_nat j mod len pool)) with j
      by (unfold len; rewrite Z.mod_small by lia; lia).
    rewrite Hj. unfold bind. rewrite Hg'. reflexivity.
Qed.

End RandomFacts.

(** ** Choice of the defects of an image *)
Section DefectSubset.

(** C8: with the random-subset flag set, a non-empty list of enabled
    defects and the spin box's value (at least 1), an image gets k
    defects for an integer k drawn from
    [1, min(maxDefectsPerImage, number of enabled defects)], taken at
    distinct positions of the enabled list (k of them, without
    replacement, so distinct defects when the enabled ones are).  Every
    outcome is drawn: for every k of that range and every choice of k
    entries at distinct positions, in any order, some oracle makes the
    image get exactly these.  Without the flag the image gets all enabled
    defects and no draw is made. *)
Theorem defects_to_transfer_subset :
  forall (A : Type) (selected_defects : list A) (spin_max_defects : Z) (g : rng),
    selected_defects <> [] ->
    1 <= spin_max_defects ->
    (exists k picked g',
        defects_to_transfer true spin_max_defects selected_defects g = Ok (picked, g') /\
        1 <= k <= Z.min spin_max_defects (len selected_defects) /\
        len picked = k /\
        (exists rest, Permutation (picked ++ rest) selected_defects) /\
        (NoDup selected_defects -> NoDup picked)) /\
    (forall (k : Z) (picked rest : list A),
        1 <= k <= Z.min spin_max_defects (len selected_defects) ->
        len picked = k ->
        Permutation (picked ++ rest) selected_defects ->
        exists g0 g',
          defects_to_transfer true spin_max_defects selected_defects g0
            = Ok (picked, g')) /\
    defects_to_transfer false spin_max_defects selected_defects g
      = Ok (selected_defects, g).
Proof.
  intros A sel mx g Hne Hmx. split; [|split; [|reflexivity]].
  - unfold defects_to_transfer.
    assert (Hlen : 1 <= len sel).
    { unfold len. destruct sel; [congruence|]. cbn [List.length]. lia. }
    destruct (Z.eqb_spec (len sel) 0) as [H0|_]; [lia|]. cbn [andb negb].
    destruct (randint_range 1 (Z.min mx (len sel)) g) as (k & g1 & Hk & Hrange); [lia|].
    rewrite (bind_ok _ _ _ _ _ Hk).
    unfold sample.
    destruct (Z.ltb_spec k 0) as [Hneg|_]; [lia|].
    destruct (Z.ltb_spec (len sel) k) as [Hbig|_]; [lia|]. cbn [orb].
    destruct (sample_pool_spec (Z.to_nat k) sel g1)
      as (picked & g' & Hrun & Hl & rest & Hperm).
    { unfold len in *. lia. }
    exists k, picked, g'. split; [exact Hrun|]. split; [exact Hrange|].
    split; [unfold len; lia|]. split; [exists rest; exact Hperm|].
    intros Hnd. apply (NoDup_app_remove_r picked rest).
    apply (Permutation_NoDup (Permutation_sym Hperm)). exact Hnd.
  - intros k picked rest Hk Hlen Hperm.
    destruct (sample_pool_reach picked sel rest Hperm) as (js & Hjs & Hrun).
    set (g0 := {| draws := fun n => nth n ((k - 1) :: js) 0; used := O |}).
    destruct (Hrun {| draws := draws g0; used := 1%nat |}) as [g' Hg'].
    { intros i Hi. reflexivity. }
    exists g0, g'. unfold defects_to_transfer.
    destruct (Z.eqb_spec (len sel) 0) as [H0|_]; [lia|]. cbn [andb negb].
    assert (Hdraw : randint 1 (Z.min mx (len sel)) g0
                    = Ok (k, {| draws := draws g0; used := 1%nat |})).
    { unfold randint. destruct (Z.leb_spec 1 (Z.min mx (len sel))) as [_|]; [|lia].
      unfold bind, next_draw, ret. cbn [draws used g0 nth].
      rewrite Z.mod_small by lia.
      replace (1 + (k - 1)) with k by lia. reflexivity. }
    rewrite (bind_ok _ _ _ _ _ Hdraw). unfold sample.
    destruct (Z.ltb_spec k 0) as [|_]; [lia|].
    destruct (Z.ltb_spec (len sel) k) as [|_]; [lia|]. cbn [orb].
    replace (Z.to_nat k) with (List.length picked) by (unfold len in Hlen; lia).
    exact Hg'.
Qed.

(** Every k of the range is drawn by some oracle. *)
Lemma defects_to_transfer_every_count :
  forall (A : Type) (selected_defects : list A) (spin_max_defects k : Z),
    1 <= k <= Z.min spin_max_defects (len selected_defects) ->
    exists g picked g',
      defects_to_transfer true spin_max_defects selected_defects g = Ok (picked, g') /\
      len picked = k.
Proof.
  intros A sel mx k Hk.
  set (g := {| draws := fun _ => k - 1; used := O |}).
  assert (Hrun : randint 1 (Z.min mx (len sel)) g
                 = Ok (k, {| draws := draws g; used := 1%nat |})).
  { unfold randint. destruct (Z.leb_spec 1 (Z.min mx (len sel))) as [_|]; [|lia].
    unfold bind, next_draw, ret. cbn [draws used g].
    rewrite Z.mod_small by lia.
    replace (1 + (k - 1)) with k by lia. reflexivity. }
  unfold defects_to_transfer.
  destruct (Z.eqb_spec (len sel) 0) as [H0|_]; [lia|]. cbn [andb negb].
  destruct (sample_pool_spec (Z.to_nat k) sel {| draws := draws g; used := 1%nat |})
    as (picked & g' & Hs & Hl & _).
  { unfold len in *. lia. }
  exists g, picked, g'. rewrite (bind_ok _ _ _ _ _ Hrun). unfold sample.
  destruct (Z.ltb_spec k 0) as [|_]; [lia|].
  destruct (Z.ltb_spec (len sel) k) as [|_]; [lia|]. cbn [orb].
  split; [exact Hs|]. unfold len. lia.
Qed.

End DefectSubset.

Lemma defects_to_transfer_subset_witness :
  [1; 2; 3] <> [] /\ 1 <= 2 /\
  ((exists k picked g',
       defects_to_transfer true 2 [1; 2; 3] {| draws := fun _ => 4; used := O |}
         = Ok (picked, g') /\
       1 <= k <= Z.min 2 (len [1; 2; 3]) /\
       len picked = k /\
       (exists rest, Permutation (picked ++ rest) [1; 2; 3]) /\
       (NoDup [1; 2; 3] -> NoDup picked)) /\
   (exists g0 g',
       defects_to_transfer true 2 [1; 2; 3] g0 = Ok ([3; 1], g')) /\
   defects_to_transfer false 2 [1; 2; 3] {| draws := fun _ => 4; used := O |}
     = Ok ([1; 2; 3], {| draws := fun _ => 4; used := O |})).
Proof.
  split; [discriminate|]. split; [lia|].
  destruct (defects_to_transfer_subset Z [1; 2; 3] 2 {| draws := fun _ => 4; used := O |}
              ltac:(discriminate) ltac:(lia)) as (Hsome & Hreach & Hall).
  split; [exact Hsome|]. split; [|exact Hall].
  apply (Hreach 2 [3; 1] [2]); [vm_compute; split; discriminate|reflexivity|].
  apply perm_trans with (l' := [1; 3; 2]); [apply perm_swap|].
  apply perm_skip. apply perm_swap.
Defined.

(** ** Arrays: indices, valid pixels and bounds *)
Section ArrayFacts.

Lemma in_range n z : In z (range n) <-> 0 <= z < n.
Proof.
  unfold range. rewrite in_map_iff. split.
  - intros (k & <- & Hk). apply in_seq in Hk. lia.
  - intros Hz. exists (Z.to_nat z). split; [lia|]. apply in_seq. lia.
Qed.

Lemma in_indices rows cols y x :
  In (y, x) (indices rows cols) <-> (0 <= y < rows /\ 0 <= x < cols).
Proof.
  unfold indices. rewrite in_flat_map. split.
  - intros (y' & Hy & Hin). apply in_map_iff in Hin.
    destruct Hin as (x' & Heq & Hx). inversion Heq; subst.
    apply in_range in Hy. apply in_range in Hx. tauto.
  - intros [Hy Hx]. exists y. split; [apply in_range; exact Hy|].
    apply in_map_iff. exists x. split; [reflexivity|]. apply in_range. exact Hx.
Qed.

Lemma in_np_where {A} (cond : A -> bool) (a : ndarray A) y x :
  In (y, x) (np_where cond a) <->
  (0 <= y < shape0 a /\ 0 <= x < shape1 a /\ cond (item a y x) = true).
Proof.
  unfold np_where. rewrite filter_In, in_indices. cbn [fst snd]. tauto.
Qed.

Lemma where_positiveQ_inject (a : ndarray Z) :
  where_positiveQ (map_array inject_Z a) = where_positive a.
Proof. reflexivity. Qed.

Lemma fold_min_le l : forall x, fold_left Z.min l x <= x /\
  forall z, In z l -> fold_left Z.min l x <= z.
Proof.
  induction l as [|y l IH]; intros x; cbn [fold_left].
  - split; [lia|]. intros z [].
  - destruct (IH (Z.min x y)) as [H1 H2]. split; [lia|].
    intros z [<-|Hz]; [lia|]. apply H2. exact Hz.
Qed.

Lemma fold_max_ge l : forall x, x <= fold_left Z.max l x /\
  forall z, In z l -> z <= fold_left Z.max l x.
Proof.
  induction l as [|y l IH]; intros x; cbn [fold_left].
  - split; [lia|]. intros z [].
  - destruct (IH (Z.max x y)) as [H1 H2]. split; [lia|].
    intros z [<-|Hz]; [lia|]. apply H2. exact Hz.
Qed.

Lemma np_min_le d l z : In z l -> np_min d l <= z.
Proof.
  destruct l as [|x l]; [intros []|]. cbn [np_min].
  destruct (fold_min_le l x) as [H1 H2]. intros [<-|Hz]; [exact H1|apply H2; exact Hz].
Qed.

Lemma np_max_ge d l z : In z l -> z <= np_max d l.
Proof.
  destruct l as [|x l]; [intros []|]. cbn [np_max].
  destruct (fold_max_ge l x) as [H1 H2]. intros [<-|Hz]; [exact H1|apply H2; exact Hz].
Qed.

End ArrayFacts.

(** ** The region of a layer and the centre sampled in it *)
Section Placement.
Context `{Ext : External}.

Lemma fold_min_in l : forall x, fold_left Z.min l x = x \/ In (fold_left Z.min l x) l.
Proof.
  induction l as [|y l IH]; intros x; cbn [fold_left]; [left; reflexivity|].
  destruct (IH (Z.min x y)) as [Heq|Hin].
  - rewrite Heq. destruct (Z.min_spec x y) as [[_ ->]|[_ ->]]; [left|right; left]; reflexivity.
  - right. right. exact Hin.
Qed.

Lemma fold_max_in l : forall x, fold_left Z.max l x = x \/ In (fold_left Z.max l x) l.
Proof.
  induction l as [|y l IH]; intros x; cbn [fold_left]; [left; reflexivity|].
  destruct (IH (Z.max x y)) as [Heq|Hin].
  - rewrite Heq. destruct (Z.max_spec x y) as [[_ ->]|[_ ->]]; [right; left|left]; reflexivity.
  - right. right. exact Hin.
Qed.

Lemma np_min_in d l : l <> [] -> In (np_min d l) l.
Proof.
  destruct l as [|x l]; [congruence|]. intros _. cbn [np_min].
  destruct (fold_min_in l x) as [->|Hin]; [left; reflexivity|right; exact Hin].
Qed.

Lemma np_max_in d l : l <> [] -> In (np_max d l) l.
Proof.
  destruct l as [|x l]; [congruence|]. intros _. cbn [np_max].
  destruct (fold_max_in l x) as [->|Hin]; [left; reflexivity|right; exact Hin].
Qed.

(** A raster mask of the image's shape is used as it is. *)
Lemma layer_region_array (is_hollow : bool) (a : ndarray Z) :
  layer_region is_hollow (ArrayMask a) (shape0 a) (shape1 a) =
  if 0 <? len (where_positive a) then bbox_region (where_positive a)
  else if negb is_hollow
       then whole_region (shape0 a) (shape1 a) (shape0 a * shape1 a) (where_positive a)
       else whole_region (shape0 a) (shape1 a) (len (where_positive a)) (where_positive a).
Proof.
  unfold layer_region. cbn [map_array shape0 shape1].
  rewrite !Z.eqb_refl. cbn [andb negb]. rewrite where_positiveQ_inject.
  destruct (Z.ltb_spec 0 (len (where_positive a))) as [Hpos|Hzero].
  - reflexivity.
  - cbn [andb]. destruct is_hollow; cbn [negb andb].
    + rewrite andb_false_r. reflexivity.
    + rewrite andb_true_r.
      destruct (Z.eqb_spec (len (where_positive a)) 0) as [_|Hne]; [reflexivity|].
      pose proof (len_nonneg (where_positive a)). lia.
Qed.

(** The point list of a solid layer is filled into an array of the
    image's shape. *)
Lemma layer_region_contour (pts : contour) (img_height img_width : Z) :
  let wh := where_positive (Cv.fillPoly (zeros img_height img_width) pts 255) in
  layer_region false (ContourMask pts) img_height img_width =
  if 0 <? len wh then bbox_region wh
  else whole_region img_height img_width (img_height * img_width) wh.
Proof.
  intros wh. unfold layer_region. cbn [negb map_array Cv.fillPoly zeros shape0 shape1].
  rewrite !Z.eqb_refl. cbn [andb negb].
  change (where_positiveQ _) with wh.
  destruct (Z.ltb_spec 0 (len wh)) as [Hpos|Hzero]; [reflexivity|].
  cbn [andb]. rewrite andb_true_r.
  destruct (Z.eqb_spec (len wh) 0) as [_|Hne]; [reflexivity|].
  pose proof (len_nonneg wh). lia.
Qed.

(** The bounds of [bbox_region] are the bounding box of the pixels. *)
Lemma bbox_region_bounds (wh : list (Z * Z)) :
  let r := bbox_region wh in
  (forall y x, In (y, x) wh -> min_y r <= y <= max_y r /\ min_x r <= x <= max_x r) /\
  (wh <> [] ->
   In (min_y r) (map fst wh) /\ In (max_y r) (map fst wh) /\
   In (min_x r) (map snd wh) /\ In (max_x r) (map snd wh)).
Proof.
  cbn. split.
  - intros y x Hin.
    assert (Hy : In y (map fst wh)) by (apply in_map_iff; exists (y, x); auto).
    assert (Hx : In x (map snd wh)) by (apply in_map_iff; exists (y, x); auto).
    pose proof (np_min_le 0 _ _ Hy). pose proof (np_max_ge 0 _ _ Hy).
    pose proof (np_min_le 0 _ _ Hx). pose proof (np_max_ge 0 _ _ Hx). lia.
  - intros Hne.
    assert (H1 : map fst wh <> []) by (destruct wh; [congruence|discriminate]).
    assert (H2 : map snd wh <> []) by (destruct wh; [congruence|discriminate]).
    repeat split; first [apply np_min_in | apply np_max_in]; assumption.
Qed.

(** The solid branch of the sampler on any region. *)
Lemma sample_center_solid (mask_given : bool) (r : region) (new_h new_w : Z) (g : rng) :
  let nh := Z.max 10 new_h in
  let nw := Z.max 10 new_w in
  let available_height := Z.max 0 (Z.max 1 (max_y r - min_y r + 1) - nh) in
  let available_width := Z.max 0 (Z.max 1 (max_x r - min_x r + 1) - nw) in
  (0 < available_height /\ 0 < available_width ->
   exists offset_y offset_x g',
     sample_center false mask_given r new_h new_w g
       = Ok ({| center_y := min_y r + offset_y + nh / 2;
                center_x := min_x r + offset_x + nw / 2;
                new_h := nh; new_w := nw |}, g') /\
     0 <= offset_y <= available_height /\
     0 <= offset_x <= available_width) /\
  (~ (0 < available_height /\ 0 < available_width) ->
   sample_center false mask_given r new_h new_w g
     = Ok ({| center_y := (min_y r + max_y r) / 2;
              center_x := (min_x r + max_x r) / 2;
              new_h := nh; new_w := nw |}, g)).
Proof.
  intros nh nw ah aw. unfold sample_center. cbn [andb].
  fold nh nw. fold ah aw. split.
  - intros [Hh Hw].
    destruct (Z.ltb_spec 0 ah) as [_|]; [|lia].
    destruct (Z.ltb_spec 0 aw) as [_|]; [|lia]. cbn [andb].
    destruct (randint_range 0 ah g) as (oy & g1 & Hy & Hry); [lia|].
    destruct (randint_range 0 aw g1) as (ox & g2 & Hx & Hrx); [lia|].
    exists oy, ox, g2. rewrite (bind_ok _ _ _ _ _ Hy), (bind_ok _ _ _ _ _ Hx).
    split; [reflexivity|]. split; assumption.
  - intros Hno.
    destruct (Z.ltb_spec 0 ah) as [Hh|_]; destruct (Z.ltb_spec 0 aw) as [Hw|_];
      cbn [andb]; try reflexivity.
    exfalso. apply Hno. split; assumption.
Qed.

(** The rectangle of a sprite of nh x nw pixels around the centre
    computed from an offset starts at that offset. *)
Lemma target_rect_of_offset (m_y m_x offset_y offset_x nh nw : Z) :
  let t := target_rect (m_y + offset_y + nh / 2) (m_x + offset_x + nw / 2) nh nw in
  top t = m_y + offset_y /\ bottom t = m_y + offset_y + nh /\
  left t = m_x + offset_x /\ right t = m_x + offset_x + nw.
Proof. cbn. lia. Qed.

(** Every pair of offsets of the range is drawn by some oracle. *)
Lemma sample_center_solid_onto (mask_given : bool) (r : region)
      (new_h new_w offset_y offset_x : Z) :
  let nh := Z.max 10 new_h in
  let nw := Z.max 10 new_w in
  let available_height := Z.max 0 (Z.max 1 (max_y r - min_y r + 1) - nh) in
  let available_width := Z.max 0 (Z.max 1 (max_x r - min_x r + 1) - nw) in
  0 < available_height -> 0 < available_width ->
  0 <= offset_y <= available_height ->
  0 <= offset_x <= available_width ->
  exists g0 g',
    sample_center false mask_given r new_h new_w g0
    = Ok ({| center_y := min_y r + offset_y + nh / 2;
             center_x := min_x r + offset_x + nw / 2;
             new_h := nh; new_w := nw |}, g').
Proof.
  intros nh nw ah aw Hh Hw Hoy Hox.
  set (g0 := {| draws := fun n => match n with O => offset_y | _ => offset_x end;
                used := O |}).
  exists g0. eexists. unfold sample_center. cbn [andb].
  fold nh nw. fold ah aw.
  destruct (Z.ltb_spec 0 ah) as [_|]; [|lia].
  destruct (Z.ltb_spec 0 aw) as [_|]; [|lia]. cbn [andb].
  unfold randint.
  destruct (Z.leb_spec 0 ah) as [_|]; [|lia].
  destruct (Z.leb_spec 0 aw) as [_|]; [|lia].
  unfold bind, next_draw, ret. cbn [draws used g0].
  rewrite !Z.mod_small by lia. cbn [Z.add]. reflexivity.
Qed.

(** The valid pixels of a solid layer are the pixels of the image that
    the fill of its contour covers. *)
Lemma solid_region_pixels (pts : contour) (img_height img_width : Z) :
  let r := layer_region false (ContourMask pts) img_height img_width in
  forall y x,
    In (y, x) (where_ r) <->
    (0 <= y < img_height /\ 0 <= x < img_width /\ polygon_covers pts y x = true).
Proof.
  intros r y x.
  pose proof (layer_region_contour pts img_height img_width) as Hreg.
  cbn zeta in Hreg. fold r in Hreg.
  set (wh := where_positive (Cv.fillPoly (zeros img_height img_width) pts 255)) in Hreg.
  assert (Hwh : where_ r = wh).
  { rewrite Hreg. destruct (0 <? len wh); reflexivity. }
  rewrite Hwh. unfold wh, where_positive. rewrite in_np_where.
  cbn [Cv.fillPoly zeros shape0 shape1 item].
  destruct (polygon_covers pts y x); cbn; intuition congruence.
Qed.

(** C1 (amended): for a solid layer given by its contour the valid pixels
    are the pixels of the image that the fill of the contour covers, and
    the code takes their bounding box (the whole image when none is
    covered), availH = max(0, bboxHeight - h) and availW = max(0,
    bboxWidth - w) for the scaled sprite size h x w floored at 10.  When
    both are positive it draws the two offsets from [0, availH] and
    [0, availW], every pair of offsets of that range being drawn by some
    oracle, and the rectangle of h x w pixels around the resulting centre
    starts at that offset and lies inside the bounding box; this is the
    pasted rectangle when the angle is 0.  Otherwise the centre is the
    midpoint of the bounding box and no draw is made. *)
Theorem solid_center_keeps_unrotated_sprite_in_bbox :
  forall (pts : contour) (img_height img_width new_h new_w : Z) (g : rng),
    let r := layer_region false (ContourMask pts) img_height img_width in
    let nh := Z.max 10 new_h in
    let nw := Z.max 10 new_w in
    let available_height := Z.max 0 (Z.max 1 (max_y r - min_y r + 1) - nh) in
    let available_width := Z.max 0 (Z.max 1 (max_x r - min_x r + 1) - nw) in
    (forall y x,
        In (y, x) (where_ r) <->
        (0 <= y < img_height /\ 0 <= x < img_width /\
         polygon_covers pts y x = true)) /\
    (forall y x, In (y, x) (where_ r) ->
                 min_y r <= y <= max_y r /\ min_x r <= x <= max_x r) /\
    (where_ r <> [] ->
     In (min_y r) (map fst (where_ r)) /\ In (max_y r) (map fst (where_ r)) /\
     In (min_x r) (map snd (where_ r)) /\ In (max_x r) (map snd (where_ r))) /\
    (where_ r = [] ->
     (min_y r, max_y r, min_x r, max_x r) = (0, img_height - 1, 0, img_width - 1)) /\
    (0 < available_height /\ 0 < available_width ->
     (exists offset_y offset_x g',
       sample_center false true r new_h new_w g
         = Ok ({| center_y := min_y r + offset_y + nh / 2;
                  center_x := min_x r + offset_x + nw / 2;
                  new_h := nh; new_w := nw |}, g') /\
       0 <= offset_y <= available_height /\
       0 <= offset_x <= available_width /\
       (forall resized_defect,
           apply_rotation resized_defect 0 nh nw = (resized_defect, nh, nw)) /\
       let t := target_rect (min_y r + offset_y + nh / 2)
                            (min_x r + offset_x + nw / 2) nh nw in
       top t = min_y r + offset_y /\ left t = min_x r + offset_x /\
       min_y r <= top t /\ bottom t <= max_y r + 1 /\
       min_x r <= left t /\ right t <= max_x r + 1) /\
     (forall offset_y offset_x,
         0 <= offset_y <= available_height ->
         0 <= offset_x <= available_width ->
         exists g0 g',
           sample_center false true r new_h new_w g0
           = Ok ({| center_y := min_y r + offset_y + nh / 2;
                    center_x := min_x r + offset_x + nw / 2;
                    new_h := nh; new_w := nw |}, g'))) /\
    (~ (0 < available_height /\ 0 < available_width) ->
     sample_center false true r new_h new_w g
       = Ok ({| center_y := (min_y r + max_y r) / 2;
                center_x := (min_x r + max_x r) / 2;
                new_h := nh; new_w := nw |}, g)).
Proof.
  intros pts H W new_h new_w g r nh nw ah aw.
  assert (Hr : r = layer_region false (ContourMask pts) H W) by reflexivity.
  pose proof (layer_region_contour pts H W) as Hreg. cbn zeta in Hreg.
  rewrite <- Hr in Hreg.
  set (wh := where_positive (Cv.fillPoly (zeros H W) pts 255)) in Hreg.
  assert (Hcases : (0 < len wh /\ r = bbox_region wh) \/
                   (wh = [] /\ r = whole_region H W (H * W) wh)).
  { destruct (Z.ltb_spec 0 (len wh)) as [Hpos|Hzero]; [left; auto|right].
    split; [|exact Hreg]. destruct wh; [reflexivity|].
    unfold len in Hzero. cbn [List.length] in Hzero. lia. }
  destruct (sample_center_solid true r new_h new_w g) as [Hin Hout].
  fold nh nw in Hin, Hout. fold ah aw in Hin, Hout.
  split; [exact (solid_region_pixels pts H W)|].
  split; [|split; [|split; [|split]]].
  - destruct Hcases as [[_ ->]|[Hnil ->]].
    + apply (bbox_region_bounds wh).
    + cbn. rewrite Hnil. intros y x [].
  - destruct Hcases as [[_ ->]|[Hnil ->]].
    + apply (bbox_region_bounds wh).
    + cbn. intros Hne. congruence.
  - destruct Hcases as [[Hpos ->]|[Hnil ->]].
    + cbn. intros ->. unfold len in Hpos. cbn in Hpos. lia.
    + reflexivity.
  - intros Hav. split.
    + destruct (Hin Hav) as (oy & ox & g' & Hrun & Hoy & Hox).
      exists oy, ox, g'. split; [exact Hrun|]. split; [exact Hoy|]. split; [exact Hox|].
      split; [reflexivity|].
      destruct (target_rect_of_offset (min_y r) (min_x r) oy ox nh nw)
        as (Ht & Hb & Hl & Hrt).
      cbn zeta. rewrite Ht, Hb, Hl, Hrt. unfold ah, aw in *. lia.
    + intros oy ox Hoy Hox.
      exact (sample_center_solid_onto true r new_h new_w oy ox
               (proj1 Hav) (proj2 Hav) Hoy Hox).
  - exact Hout.
Qed.

End Placement.

(** A solid layer drawn as the rectangle of columns 0..19 and rows 0..109 on
    an image of 120 rows and 60 columns, and a sprite of 100 rows and 10
    columns at scale 100%. *)
Lemma solid_center_keeps_unrotated_sprite_in_bbox_witness :
  let r := layer_region (Ext := Reference.external) false
             (ContourMask [(0, 0); (19, 0); (19, 109); (0, 109)]) 120 60 in
  (0 < Z.max 0 (Z.max 1 (max_y r - min_y r + 1) - Z.max 10 100) /\
   0 < Z.max 0 (Z.max 1 (max_x r - min_x r + 1) - Z.max 10 10)) /\
  exists offset_y offset_x g',
    sample_center false true r 100 10 {| draws := fun _ => 7; used := O |}
      = Ok ({| center_y := min_y r + offset_y + Z.max 10 100 / 2;
               center_x := min_x r + offset_x + Z.max 10 10 / 2;
               new_h := Z.max 10 100; new_w := Z.max 10 10 |}, g') /\
    let t := target_rect (min_y r + offset_y + Z.max 10 100 / 2)
                         (min_x r + offset_x + Z.max 10 10 / 2)
                         (Z.max 10 100) (Z.max 10 10) in
    min_y r <= top t /\ bottom t <= max_y r + 1 /\
    min_x r <= left t /\ right t <= max_x r + 1.
Proof.
  intros r.
  assert (Hav : 0 < Z.max 0 (Z.max 1 (max_y r - min_y r + 1) - Z.max 10 100) /\
                0 < Z.max 0 (Z.max 1 (max_x r - min_x r + 1) - Z.max 10 10)).
  { vm_compute. split; reflexivity. }
  split; [exact Hav|].
  destruct (solid_center_keeps_unrotated_sprite_in_bbox (Ext := Reference.external)
              [(0, 0); (19, 0); (19, 109); (0, 109)] 120 60 100 10
              {| draws := fun _ => 7; used := O |})
    as (_ & _ & _ & _ & Hin & _).
  destruct (Hin Hav) as [(oy & ox & g' & Hrun & _ & _ & _ & Hrect) _].
  exists oy, ox, g'. split; [exact Hrun|].
  cbn zeta in Hrect. destruct Hrect as (_ & _ & H1 & H2 & H3 & H4).
  repeat split; assumption.
Defined.

(** C1 as stated fails once the sprite is rotated: the centre is drawn for
    the size before rotation and the pasted rectangle has the size after
    it.  Same layer and sprite as above, offsets (0, 0), angle 90: the
    centre is (y, x) = (50, 5), the rotated sprite has 10 rows and 100
    columns, and the pasted rectangle spans columns -45..55 while the
    bounding box spans columns 0..19. *)
Lemma rotated_sprite_leaves_bbox :
  let r := layer_region (Ext := Reference.external) false
             (ContourMask [(0, 0); (19, 0); (19, 109); (0, 109)]) 120 60 in
  let g := {| draws := fun _ => 0; used := O |} in
  let resized_defect :=
    Bgr {| shape0 := 100; shape1 := 10; item := fun _ _ => (0, 0, 255) |} in
  (0 < Z.max 0 (Z.max 1 (max_y r - min_y r + 1) - Z.max 10 100) /\
   0 < Z.max 0 (Z.max 1 (max_x r - min_x r + 1) - Z.max 10 10)) /\
  exists p g',
    sample_center false true r 100 10 g = Ok (p, g') /\
    (center_y p, center_x p, new_h p, new_w p) = (50, 5, 100, 10) /\
    exists rotated,
      apply_rotation (Ext := Reference.external) resized_defect 90 (new_h p) (new_w p)
        = (rotated, 10, 100) /\
      let t := target_rect (center_y p) (center_x p) 10 100 in
      (left t, top t, right t, bottom t) = (-45, 45, 55, 55) /\
      ~ (min_y r <= top t /\ bottom t <= max_y r + 1 /\
         min_x r <= left t /\ right t <= max_x r + 1).
Proof.
  intros r g resized_defect.
  split; [vm_compute; split; reflexivity|].
  eexists. eexists. split; [vm_compute; reflexivity|].
  split; [reflexivity|].
  eexists. split; [reflexivity|].
  split; [reflexivity|].
  vm_compute. intros (_ & _ & H & _). apply H. reflexivity.
Qed.

(** ** Centres in a hollow layer *)
Section HollowPlacement.
Context `{Ext : External}.

Lemma sample_center_hollow_index (wh : list (Z * Z)) (i : nat) (p : Z * Z) (g : rng) :
  nth_error wh i = Some p ->
  (draws g (used g)) mod (len wh) = Z.of_nat i ->
  forall new_h new_w,
    sample_center true true (bbox_region wh) new_h new_w g
    = Ok ({| center_y := fst p; center_x := snd p;
             new_h := Z.max 10 new_h; new_w := Z.max 10 new_w |},
          {| draws := draws g; used := S (used g) |}).
Proof.
  intros Hnth Hdraw new_h new_w.
  assert (Hlt : (i < List.length wh)%nat) by (apply nth_error_Some; congruence).
  unfold sample_center. cbn [andb bbox_region region_of valid_pixel_count where_].
  destruct (Z.ltb_spec 0 (len wh)) as [_|Hz]; [|unfold len in Hz; lia].
  unfold randint. destruct (Z.leb_spec 0 (len wh - 1)) as [_|Hz]; [|unfold len in Hz; lia].
  unfold bind, next_draw, ret.
  replace (len wh - 1 - 0 + 1) with (len wh) by lia.
  rewrite Hdraw. cbn [Z.add]. rewrite Nat2Z.id, Hnth. reflexivity.
Qed.

(** The hollow branch on a stored mask with a positive pixel. *)
Lemma hollow_center_some (a : ndarray Z) (g : rng) :
  0 < count_positive a ->
  exists cy cx g',
    (forall new_h new_w,
        sample_center true true
          (layer_region true (ArrayMask a) (shape0 a) (shape1 a)) new_h new_w g
        = Ok ({| center_y := cy; center_x := cx;
                 new_h := Z.max 10 new_h; new_w := Z.max 10 new_w |}, g')) /\
    In (cy, cx) (where_positive a) /\
    0 < item a cy cx /\
    0 <= cy < shape0 a /\ 0 <= cx < shape1 a.
Proof.
  unfold count_positive. intros Hpos.
  rewrite layer_region_array. cbn [negb].
  set (wh := where_positive a) in *.
  destruct (Z.ltb_spec 0 (len wh)) as [_|]; [|lia].
  set (i := Z.to_nat (draws g (used g) mod len wh)).
  assert (Hi : (i < List.length wh)%nat).
  { apply index_in_pool. intros Hnil. rewrite Hnil in Hpos. cbn in Hpos. lia. }
  destruct (nth_error wh i) as [p|] eqn:Hnth.
  2:{ apply nth_error_None in Hnth. lia. }
  exists (fst p), (snd p), {| draws := draws g; used := S (used g) |}.
  split.
  { apply sample_center_hollow_index with (i := i); [exact Hnth|].
    unfold i. rewrite Z2Nat.id; [reflexivity|].
    apply Z.mod_pos_bound. exact Hpos. }
  apply nth_error_In in Hnth. destruct p as [cy cx]. cbn [fst snd].
  split; [exact Hnth|].
  apply in_np_where in Hnth. destruct Hnth as (Hy & Hx & Hv).
  apply Z.ltb_lt in Hv. auto.
Qed.

(** The region of a hollow layer stored as a raster. *)
Lemma layer_region_hollow (a : ndarray Z) (img_height img_width : Z) :
  let wh := where_positiveQ (hollow_layer_array a img_height img_width) in
  layer_region true (ArrayMask a) img_height img_width =
  if 0 <? len wh then bbox_region wh
  else whole_region img_height img_width (len wh) wh.
Proof.
  unfold layer_region, hollow_layer_array. cbn [negb].
  destruct ((shape0 (map_array inject_Z a) =? img_height) &&
            (shape1 (map_array inject_Z a) =? img_width)).
  - cbn zeta. rewrite andb_true_r, andb_false_r. reflexivity.
  - destruct (skimage_resize (map_array inject_Z a) img_height img_width) as [v|];
      cbn zeta; rewrite andb_true_r, andb_false_r; reflexivity.
Qed.

Lemma Qpositive_lt (q : Q) : Qpositive q = true <-> (0 < q)%Q.
Proof.
  unfold Qpositive, Qlt. cbn [Qnum Qden]. rewrite Z.ltb_lt. lia.
Qed.

End HollowPlacement.

(** ** The mask of a hollow layer *)
Section FilterCounts.
Context {A : Type}.

Lemma len_filter_split (f g : A -> bool) (l : list A) :
  len (filter f l)
  = len (filter (fun p => f p && g p) l) + len (filter (fun p => f p && negb (g p)) l).
Proof.
  unfold len. induction l as [|p l IH]; [reflexivity|]. cbn [filter].
  destruct (f p), (g p); cbn [andb negb List.length]; lia.
Qed.

Lemma len_filter_or (f g : A -> bool) (l : list A) :
  len (filter (fun p => f p || g p) l) + len (filter (fun p => f p && g p) l)
  = len (filter f l) + len (filter g l).
Proof.
  unfold len. induction l as [|p l IH]; [reflexivity|]. cbn [filter].
  destruct (f p), (g p); cbn [andb orb List.length]; lia.
Qed.

Lemma len_filter_none (f : A -> bool) (l : list A) :
  (forall p, In p l -> f p = false) -> len (filter f l) = 0.
Proof.
  intros Hf. rewrite (filter_ext_in f (fun _ => false) l Hf).
  induction l as [|p l IH]; [reflexivity|]. cbn [filter]. apply IH.
  intros q Hq. apply Hf. right. exact Hq.
Qed.

Lemma len_filter_ext (f g : A -> bool) (l : list A) :
  (forall p, In p l -> f p = g p) -> len (filter f l) = len (filter g l).
Proof. intros Hfg. rewrite (filter_ext_in f g l Hfg). reflexivity. Qed.

End FilterCounts.

Section HollowMask.
Context `{Ext : External}.

Lemma item_subtract_inner_fills (fills : list (ndarray Z)) :
  forall (m : ndarray Z) y x,
    item (subtract_inner_fills m fills) y x
    = fold_left Cv.sat_sub (map (fun b => item b y x) fills) (item m y x).
Proof.
  unfold subtract_inner_fills.
  induction fills as [|b fills IH]; intros m y x; [reflexivity|].
  cbn [fold_left map]. rewrite IH. reflexivity.
Qed.

Lemma shape_subtract_inner_fills (fills : list (ndarray Z)) :
  forall m : ndarray Z,
    shape0 (subtract_inner_fills m fills) = shape0 m /\
    shape1 (subtract_inner_fills m fills) = shape1 m.
Proof.
  unfold subtract_inner_fills.
  induction fills as [|b fills IH]; intros m; [split; reflexivity|].
  cbn [fold_left]. destruct (IH (Cv.subtract m b)) as [H0 H1].
  rewrite H0, H1. split; reflexivity.
Qed.

Lemma fold_sat_sub_binary (vs : list Z) :
  forall u,
    (u = 0 \/ u = 255) ->
    Forall (fun v => v = 0 \/ v = 255) vs ->
    fold_left Cv.sat_sub vs u
    = if (0 <? u) && negb (existsb (fun v => 0 <? v) vs) then 255 else 0.
Proof.
  induction vs as [|v vs IH]; intros u Hu Hvs.
  - cbn. destruct Hu as [->| ->]; reflexivity.
  - inversion Hvs as [|? ? Hv Hvs']; subst. cbn [fold_left existsb].
    rewrite IH; [|unfold Cv.sat_sub; destruct Hu as [->| ->], Hv as [->| ->]; cbn; auto|exact Hvs'].
    destruct Hu as [->| ->], Hv as [->| ->]; cbn; reflexivity.
Qed.

Lemma item_fill_contour (rows cols : Z) (c : contour) y x :
  item (fill_contour rows cols c) y x = if polygon_covers c y x then 255 else 0.
Proof. reflexivity. Qed.

Lemma positive_at_fill_contour (rows cols : Z) (c : contour) p :
  positive_at (fill_contour rows cols c) p = polygon_covers c (fst p) (snd p).
Proof.
  unfold positive_at. rewrite item_fill_contour.
  destruct (polygon_covers c (fst p) (snd p)); reflexivity.
Qed.

(** A pixel of the stored mask is 255 when the outer contour covers it
    and no inner contour does, and 0 otherwise. *)
Lemma item_hollow_mask (rows cols : Z) (outer : contour) (inners : list contour) y x :
  item (hollow_mask rows cols outer inners) y x
  = if polygon_covers outer y x && negb (existsb (fun c => polygon_covers c y x) inners)
    then 255 else 0.
Proof.
  unfold hollow_mask. rewrite item_subtract_inner_fills, map_map.
  rewrite fold_sat_sub_binary.
  - rewrite item_fill_contour.
    replace (existsb (fun v => 0 <? v)
               (map (fun c => item (fill_contour rows cols c) y x) inners))
      with (existsb (fun c => polygon_covers c y x) inners).
    + destruct (polygon_covers outer y x); reflexivity.
    + induction inners as [|c inners IH]; [reflexivity|].
      cbn [map existsb]. rewrite IH, item_fill_contour.
      destruct (polygon_covers c y x); reflexivity.
  - rewrite item_fill_contour. destruct (polygon_covers outer y x); auto.
  - apply Forall_forall. intros v Hv. apply in_map_iff in Hv.
    destruct Hv as (c & <- & _). rewrite item_fill_contour.
    destruct (polygon_covers c y x); auto.
Qed.

Lemma count_covered_cons (outer b : ndarray Z) (bs : list (ndarray Z)) :
  forallb (disjoint_inside outer b) bs = true ->
  count_covered outer (b :: bs) = count_both outer b + count_covered outer bs.
Proof.
  intros Hdis. unfold count_covered, count_both.
  set (idx := indices (shape0 outer) (shape1 outer)).
  set (E := fun p => existsb (fun c => positive_at c p) bs).
  pose proof (len_filter_or (fun p => positive_at outer p && positive_at b p)
                            (fun p => positive_at outer p && E p) idx) as Hor.
  rewrite (len_filter_ext
             (fun p => positive_at outer p && existsb (fun c => positive_at c p) (b :: bs))
             (fun p => positive_at outer p && positive_at b p || positive_at outer p && E p)).
  2:{ intros p _. cbn [existsb]. fold (E p).
      destruct (positive_at outer p), (positive_at b p), (E p); reflexivity. }
  rewrite (len_filter_none
             (fun p => (positive_at outer p && positive_at b p) && (positive_at outer p && E p)))
    in Hor.
  - rewrite Z.add_0_r in Hor. exact Hor.
  - intros p Hp.
    destruct (positive_at outer p) eqn:Ho; [|reflexivity].
    destruct (positive_at b p) eqn:Hb; [|reflexivity].
    cbn [andb]. unfold E. apply not_true_is_false. intros Hex.
    apply existsb_exists in Hex. destruct Hex as (c & Hc & Hpc).
    rewrite forallb_forall in Hdis. specialize (Hdis c Hc).
    unfold disjoint_inside in Hdis. rewrite forallb_forall in Hdis.
    specialize (Hdis p Hp). rewrite Ho, Hb, Hpc in Hdis. discriminate.
Qed.

Lemma count_covered_disjoint (outer : ndarray Z) (bs : list (ndarray Z)) :
  pairwise_disjoint_inside outer bs = true ->
  count_covered outer bs = fold_right Z.add 0 (map (count_both outer) bs).
Proof.
  induction bs as [|b bs IH]; intros Hdis.
  - unfold count_covered. cbn [existsb map fold_right].
    apply len_filter_none. intros p _. apply andb_false_r.
  - cbn [pairwise_disjoint_inside] in Hdis. apply andb_prop in Hdis.
    destruct Hdis as [Hb Hbs].
    rewrite count_covered_cons by exact Hb. cbn [map fold_right].
    rewrite IH by exact Hbs. reflexivity.
Qed.

(** C9 (amended): the stored mask of a hollow layer is the fill of the
    first contour with the fill of every later contour subtracted in
    turn, saturating at 0.  It has the image's shape, its pixels are 255
    where the outer contour covers and no inner contour does and 0
    elsewhere, so none is negative.  The valid-pixel count the generator
    computes for it is the outer fill's count minus the number of outer
    pixels covered by at least one inner fill, which is never negative;
    it is the outer count minus the sum of the inner fills' overlaps with
    the outer fill when no two inner fills overlap inside the outer
    fill. *)
Theorem hollow_mask_valid_pixel_count :
  forall (img_height img_width : Z) (outer : contour) (inners : list contour),
    let O := fill_contour img_height img_width outer in
    let Is := map (fill_contour img_height img_width) inners in
    let m := hollow_mask img_height img_width outer inners in
    (inners <> [] ->
     save_current_layer img_height img_width (outer :: inners)
       = Some (ArrayMask m, true)) /\
    (shape0 m, shape1 m) = (img_height, img_width) /\
    (forall y x,
        item m y x
        = if polygon_covers outer y x
             && negb (existsb (fun c => polygon_covers c y x) inners)
          then 255 else 0) /\
    (forall y x, 0 <= item m y x) /\
    valid_pixel_count (layer_region true (ArrayMask m) img_height img_width)
      = count_positive m /\
    count_positive m = count_positive O - count_covered O Is /\
    0 <= count_positive m /\
    (pairwise_disjoint_inside O Is = true ->
     count_positive m = spec_hollow_count O Is).
Proof.
  intros H W outer inners O Is m.
  assert (Hshape : shape0 m = H /\ shape1 m = W).
  { unfold m, hollow_mask.
    destruct (shape_subtract_inner_fills
                (map (fill_contour H W) inners) (fill_contour H W outer)) as [H0 H1].
    rewrite H0, H1. split; reflexivity. }
  destruct Hshape as [Hs0 Hs1].
  assert (Hcount : count_positive m = count_positive O - count_covered O Is).
  { unfold count_positive, where_positive, np_where, count_covered.
    rewrite Hs0, Hs1. change (shape0 O) with H. change (shape1 O) with W.
    set (idx := indices H W).
    rewrite (len_filter_split (fun p => 0 <? item O (fst p) (snd p))
               (fun p => existsb (fun b => positive_at b p) Is) idx).
    rewrite (len_filter_ext (fun p => 0 <? item m (fst p) (snd p))
               (fun p => (0 <? item O (fst p) (snd p))
                         && negb (existsb (fun b => positive_at b p) Is)) idx).
    2:{ intros p _. unfold m. rewrite item_hollow_mask.
        unfold O. rewrite item_fill_contour.
        replace (existsb (fun b => positive_at b p) Is)
          with (existsb (fun c => polygon_covers c (fst p) (snd p)) inners).
        - destruct (polygon_covers outer (fst p) (snd p)); cbn [andb];
            [destruct (existsb _ inners)|]; reflexivity.
        - unfold Is. clear. induction inners as [|c inners IH]; [reflexivity|].
          cbn [map existsb]. rewrite IH, positive_at_fill_contour. reflexivity. }
    unfold positive_at. lia. }
  split; [intros Hne; destruct inners; [congruence|reflexivity]|].
  split; [rewrite Hs0, Hs1; reflexivity|].
  split; [intros y x; apply item_hollow_mask|].
  split.
  { intros y x. unfold m. rewrite item_hollow_mask.
    destruct (_ && _); lia. }
  split.
  { rewrite <- Hs0 at 1. rewrite <- Hs1 at 1. rewrite layer_region_array.
    unfold count_positive. cbn [negb].
    destruct (0 <? len (where_positive m)); reflexivity. }
  split; [exact Hcount|].
  split; [apply len_nonneg|].
  intros Hdis. rewrite Hcount. unfold spec_hollow_count.
  rewrite count_covered_disjoint by exact Hdis. reflexivity.
Qed.

End HollowMask.

(** A 6 x 6 image, the outer contour around it and two holes of 2 x 2
    pixels that do not meet. *)
Lemma hollow_mask_valid_pixel_count_witness :
  let O := fill_contour (Ext := Reference.external) 6 6 [(0, 0); (5, 0); (5, 5); (0, 5)] in
  let Is := map (fill_contour (Ext := Reference.external) 6 6)
                [[(1, 1); (2, 1); (2, 2); (1, 2)]; [(3, 3); (4, 3); (4, 4); (3, 4)]] in
  let m := hollow_mask (Ext := Reference.external) 6 6 [(0, 0); (5, 0); (5, 5); (0, 5)]
             [[(1, 1); (2, 1); (2, 2); (1, 2)]; [(3, 3); (4, 3); (4, 4); (3, 4)]] in
  pairwise_disjoint_inside O Is = true /\
  count_positive m = spec_hollow_count O Is.
Proof.
  intros O Is m.
  assert (Hdis : pairwise_disjoint_inside O Is = true) by (vm_compute; reflexivity).
  split; [exact Hdis|].
  destruct (hollow_mask_valid_pixel_count (Ext := Reference.external) 6 6
              [(0, 0); (5, 0); (5, 5); (0, 5)]
              [[(1, 1); (2, 1); (2, 2); (1, 2)]; [(3, 3); (4, 3); (4, 4); (3, 4)]])
    as (_ & _ & _ & _ & _ & _ & _ & Hsum).
  exact (Hsum Hdis).
Defined.

(** C9 as stated fails when two holes overlap: on a 4 x 4 image covered
    by the outer contour, the holes of columns and rows 0..2 and 1..3
    leave the two pixels (0, 3) and (3, 0), while the outer count minus
    the two overlaps is 16 - 9 - 9 = -2. *)
Lemma overlapping_holes_break_count :
  let O := fill_contour (Ext := Reference.external) 4 4 [(0, 0); (3, 0); (3, 3); (0, 3)] in
  let Is := map (fill_contour (Ext := Reference.external) 4 4)
                [[(0, 0); (2, 0); (2, 2); (0, 2)]; [(1, 1); (3, 1); (3, 3); (1, 3)]] in
  let m := hollow_mask (Ext := Reference.external) 4 4 [(0, 0); (3, 0); (3, 3); (0, 3)]
             [[(0, 0); (2, 0); (2, 2); (0, 2)]; [(1, 1); (3, 1); (3, 3); (1, 3)]] in
  where_positive m = [(0, 3); (3, 0)] /\
  count_positive m = 2 /\
  count_positive O = 16 /\
  map (count_both O) Is = [9; 9] /\
  spec_hollow_count O Is = -2 /\
  count_positive m <> spec_hollow_count O Is.
Proof.
  vm_compute. repeat split; try reflexivity. discriminate.
Qed.

(** The centre sampled in a stored hollow mask is covered by the outer
    contour and by no hole. *)
Lemma hollow_center_outside_holes `{Ext : External}
      (img_height img_width : Z) (outer : contour) (inners : list contour)
      (new_h new_w : Z) (g : rng) :
  let m := hollow_mask img_height img_width outer inners in
  0 < count_positive m ->
  exists p g',
    sample_center true true (layer_region true (ArrayMask m) img_height img_width)
                  new_h new_w g = Ok (p, g') /\
    polygon_covers outer (center_y p) (center_x p) = true /\
    forall c, In c inners -> polygon_covers c (center_y p) (center_x p) = false.
Proof.
  intros m Hpos.
  destruct (shape_subtract_inner_fills
              (map (fill_contour img_height img_width) inners)
              (fill_contour img_height img_width outer)) as [Hs0 Hs1].
  change (shape0 m = img_height) in Hs0. change (shape1 m = img_width) in Hs1.
  destruct (hollow_center_some m g Hpos) as (cy & cx & g' & Hrun & _ & Hval & _).
  rewrite Hs0, Hs1 in Hrun.
  eexists. exists g'. split; [apply Hrun|]. cbn [center_y center_x].
  unfold m in Hval. rewrite item_hollow_mask in Hval.
  destruct (polygon_covers outer cy cx); cbn [andb] in Hval; [|lia].
  split; [reflexivity|]. intros c Hc.
  destruct (existsb (fun c0 => polygon_covers c0 cy cx) inners) eqn:Hex;
    cbn [negb] in Hval; [lia|].
  destruct (polygon_covers c cy cx) eqn:Hcov; [|reflexivity].
  assert (existsb (fun c0 => polygon_covers c0 cy cx) inners = true)
    by (apply existsb_exists; exists c; auto).
  congruence.
Qed.

(** ** The centre in a hollow layer *)
Section HollowClaim.
Context `{Ext : External}.

(** C4 (amended): in a hollow layer the valid pixels are the positive
    pixels of the stored raster (of the raster resized to the image when
    its shape is another).  When there is one, the centre is an entry of
    the list of valid pixels chosen by an index drawn from [0, count - 1],
    whatever the size of the sprite, which is only floored at 10: the
    centre lies on a valid pixel, every valid pixel is the centre for
    some oracle, and for a raster built by [save_current_layer] the
    centre is covered by the outer contour and by no hole.  Without a
    valid pixel the bounds keep their default, the whole image, and the
    centre is the midpoint of the image, not of the region; no draw is
    made. *)
Theorem hollow_center_on_valid_pixel :
  forall (a : ndarray Z) (img_height img_width : Z) (g : rng),
    let layer_array := hollow_layer_array a img_height img_width in
    let valid := where_positiveQ layer_array in
    let r := layer_region true (ArrayMask a) img_height img_width in
    (where_ r = valid /\ valid_pixel_count r = len valid) /\
    (forall y x,
        In (y, x) valid <->
        (0 <= y < shape0 layer_array /\ 0 <= x < shape1 layer_array /\
         (0 < item layer_array y x)%Q)) /\
    ((shape0 a, shape1 a) = (img_height, img_width) ->
     forall y x,
       In (y, x) valid <->
       (0 <= y < img_height /\ 0 <= x < img_width /\ 0 < item a y x)) /\
    (valid <> [] ->
     (exists cy cx g',
         (forall new_h new_w,
             sample_center true true r new_h new_w g
             = Ok ({| center_y := cy; center_x := cx;
                      new_h := Z.max 10 new_h; new_w := Z.max 10 new_w |}, g')) /\
         In (cy, cx) valid /\
         (forall outer inners,
             a = hollow_mask img_height img_width outer inners ->
             polygon_covers outer cy cx = true /\
             forall c, In c inners -> polygon_covers c cy cx = false)) /\
     (forall y x, In (y, x) valid ->
        exists g0 g', forall new_h new_w,
            sample_center true true r new_h new_w g0
            = Ok ({| center_y := y; center_x := x;
                     new_h := Z.max 10 new_h; new_w := Z.max 10 new_w |}, g'))) /\
    (valid = [] ->
     (min_y r, max_y r, min_x r, max_x r) = (0, img_height - 1, 0, img_width - 1) /\
     forall new_h new_w,
       sample_center true true r new_h new_w g
       = Ok ({| center_y := (0 + (img_height - 1)) / 2;
                center_x := (0 + (img_width - 1)) / 2;
                new_h := new_h; new_w := new_w |}, g)).
Proof.
  intros a H W g layer_array valid r.
  assert (Hr : r = if 0 <? len valid then bbox_region valid
                   else whole_region H W (len valid) valid)
    by (apply layer_region_hollow).
  assert (Hvalid : forall y x,
             In (y, x) valid <->
             (0 <= y < shape0 layer_array /\ 0 <= x < shape1 layer_array /\
              (0 < item layer_array y x)%Q)).
  { intros y x. unfold valid, where_positiveQ. rewrite in_np_where.
    rewrite Qpositive_lt. tauto. }
  assert (Hcanvas : (shape0 a, shape1 a) = (H, W) ->
             forall y x,
               In (y, x) valid <-> (0 <= y < H /\ 0 <= x < W /\ 0 < item a y x)).
  { intros Hshape y x. inversion Hshape as [[H0 H1]].
    rewrite Hvalid. unfold layer_array, hollow_layer_array.
    cbn [map_array shape0 shape1].
    replace ((shape0 a =? H) && (shape1 a =? W)) with true
      by (symmetry; apply andb_true_intro; split; apply Z.eqb_eq; assumption).
    cbn [map_array shape0 shape1 item].
    rewrite <- (Zlt_Qlt 0). tauto. }
  split; [rewrite Hr; destruct (0 <? len valid); split; reflexivity|].
  split; [exact Hvalid|]. split; [exact Hcanvas|]. split.
  - intros Hne.
    assert (Hpos : 0 < len valid).
    { unfold len. destruct valid; [congruence|]. cbn [List.length]. lia. }
    destruct (Z.ltb_spec 0 (len valid)) as [_|]; [|lia]. rewrite Hr. split.
    + set (i := Z.to_nat (draws g (used g) mod len valid)).
      assert (Hi : (i < List.length valid)%nat) by (apply index_in_pool; exact Hne).
      destruct (nth_error valid i) as [p|] eqn:Hnth.
      2:{ apply nth_error_None in Hnth. lia. }
      exists (fst p), (snd p), {| draws := draws g; used := S (used g) |}.
      split.
      { apply sample_center_hollow_index with (i := i); [exact Hnth|].
        unfold i. rewrite Z2Nat.id; [reflexivity|].
        apply Z.mod_pos_bound. exact Hpos. }
      apply nth_error_In in Hnth. destruct p as [cy cx]. cbn [fst snd].
      split; [exact Hnth|].
      intros outer inners Ha.
      assert (Hshape : (shape0 a, shape1 a) = (H, W)).
      { rewrite Ha.
        destruct (shape_subtract_inner_fills
                    (map (fill_contour H W) inners) (fill_contour H W outer))
          as [Hs0 Hs1].
        unfold hollow_mask. rewrite Hs0, Hs1. reflexivity. }
      apply (Hcanvas Hshape) in Hnth. destruct Hnth as (_ & _ & Hval).
      rewrite Ha, item_hollow_mask in Hval.
      destruct (polygon_covers outer cy cx); cbn [andb] in Hval; [|lia].
      split; [reflexivity|]. intros c Hc.
      destruct (existsb (fun c0 => polygon_covers c0 cy cx) inners) eqn:Hex;
        cbn [negb] in Hval; [lia|].
      destruct (polygon_covers c cy cx) eqn:Hcov; [|reflexivity].
      assert (existsb (fun c0 => polygon_covers c0 cy cx) inners = true)
        by (apply existsb_exists; exists c; auto).
      congruence.
    + intros y x Hin. destruct (In_nth_error _ _ Hin) as [i Hnth].
      assert (Hi : (i < List.length valid)%nat) by (apply nth_error_Some; congruence).
      exists {| draws := fun _ => Z.of_nat i; used := O |}. eexists.
      intros new_h new_w.
      rewrite (sample_center_hollow_index valid i (y, x) _ Hnth); [reflexivity|].
      cbn [draws used]. apply Z.mod_small. unfold len. lia.
  - intros Hnil. rewrite Hr, Hnil. cbn [len List.length Z.of_nat Z.ltb Z.compare].
    split; [reflexivity|]. intros new_h new_w. reflexivity.
Qed.

End HollowClaim.

(** A 6 x 6 ring: the border pixels are 255, the 4 x 4 centre is 0. *)
Lemma hollow_center_on_valid_pixel_witness :
  let a := {| shape0 := 6; shape1 := 6;
              item := fun y x =>
                if (1 <=? y) && (y <=? 4) && (1 <=? x) && (x <=? 4) then 0 else 255 |} in
  let g := {| draws := fun _ => 11; used := O |} in
  where_positiveQ (hollow_layer_array (Ext := Reference.external) a 6 6) <> [] /\
  exists cy cx g',
    (forall new_h new_w,
        sample_center true true
          (layer_region (Ext := Reference.external) true (ArrayMask a) 6 6)
          new_h new_w g
        = Ok ({| center_y := cy; center_x := cx;
                 new_h := Z.max 10 new_h; new_w := Z.max 10 new_w |}, g')) /\
    0 < item a cy cx.
Proof.
  intros a g.
  assert (Hne : where_positiveQ (hollow_layer_array (Ext := Reference.external) a 6 6)
                <> []) by (vm_compute; discriminate).
  split; [exact Hne|].
  destruct (hollow_center_on_valid_pixel (Ext := Reference.external) a 6 6 g)
    as (_ & _ & Hcanvas & Hsome & _).
  destruct (Hsome Hne) as [(cy & cx & g' & Hrun & Hin & _) _].
  exists cy, cx, g'. split; [exact Hrun|].
  apply (Hcanvas eq_refl) in Hin. tauto.
Defined.

(** C4 as stated fails in its fallback.  On an image of 20 x 20 pixels a
    hollow layer is drawn with the outer contour around rows and columns
    2..5 and a hole of the same contour: the stored raster has no valid
    pixel.  The bounding box of the region (of the fill of its outer
    contour) is rows and columns 2..5 with midpoint (3, 3); the centre
    the code takes is (9, 9), the midpoint of the image. *)
Lemma hollow_fallback_is_image_midpoint :
  let outer := [(2, 2); (5, 2); (5, 5); (2, 5)] in
  let m := hollow_mask (Ext := Reference.external) 20 20 outer [outer] in
  let region := layer_region (Ext := Reference.external) false (ContourMask outer) 20 20 in
  let g := {| draws := fun _ => 0; used := O |} in
  save_current_layer (Ext := Reference.external) 20 20 [outer; outer]
    = Some (ArrayMask m, true) /\
  where_positive m = [] /\
  (min_y region, max_y region, min_x region, max_x region) = (2, 5, 2, 5) /\
  ((min_y region + max_y region) / 2, (min_x region + max_x region) / 2) = (3, 3) /\
  exists p,
    sample_center true true
      (layer_region (Ext := Reference.external) true (ArrayMask m) 20 20) 10 10 g
    = Ok (p, g) /\
    (center_y p, center_x p) = (9, 9) /\
    (center_y p, center_x p)
    <> ((min_y region + max_y region) / 2, (min_x region + max_x region) / 2).
Proof.
  intros outer m region g.
  split; [reflexivity|].
  split; [vm_compute; reflexivity|].
  split; [vm_compute; reflexivity|].
  split; [vm_compute; reflexivity|].
  eexists. split; [vm_compute; reflexivity|].
  split; [reflexivity|]. vm_compute. discriminate.
Qed.

(** ** Compositing *)
Section Compositing.
Context `{Ext : External}.

Lemma py_int_compat (q q' : Q) : (q == q')%Q -> py_int q = py_int q'.
Proof.
  unfold Qeq, py_int. destruct q as [n d], q' as [n' d']. cbn [Qnum Qden].
  intros Heq.
  rewrite <- (Z.quot_mul_cancel_r n (Zpos d) (Zpos d')) by lia.
  rewrite <- (Z.quot_mul_cancel_r n' (Zpos d') (Zpos d)) by lia.
  rewrite Heq. f_equal. lia.
Qed.

(** The blend of line 392 is the spec's rule at blend strength 1. *)
Lemma blend_channel_is_strength_one (dst : Z) (m : Q) (src : Z) :
  blend_channel dst m src = spec_alpha_over src m 1 dst.
Proof.
  unfold blend_channel, spec_alpha_over, astype_uint8. f_equal.
  apply py_int_compat. ring.
Qed.

Lemma composite_empty (st : state) (img : image) (cy cx nh nw : Z) (alpha : Q)
      (di : defect_info) :
  nonempty_rect (clip_rect (shape0 (result_image st)) (shape1 (result_image st))
                           (target_rect cy cx nh nw)) = false ->
  composite st img cy cx nh nw alpha di = st.
Proof.
  intros Hv. unfold composite. destruct (split_channels img) as [sprite mask].
  rewrite Hv. reflexivity.
Qed.

Lemma composite_shape (st : state) (img : image) (cy cx nh nw : Z) (alpha : Q)
      (di : defect_info) :
  shape0 (result_image (composite st img cy cx nh nw alpha di)) = shape0 (result_image st) /\
  shape1 (result_image (composite st img cy cx nh nw alpha di)) = shape1 (result_image st).
Proof.
  unfold composite. destruct (split_channels img) as [sprite mask].
  destruct (nonempty_rect _); [|split; reflexivity].
  destruct mask; split; reflexivity.
Qed.

Lemma composite_ignores_alpha (st : state) (img : image) (cy cx nh nw : Z)
      (alpha alpha' : Q) (di : defect_info) :
  composite st img cy cx nh nw alpha di = composite st img cy cx nh nw alpha' di.
Proof. reflexivity. Qed.


(** The pixels after pasting a sprite with an alpha channel. *)
Lemma composite_item_blend (st : state) (img : image) (cy cx nh nw : Z)
      (alpha : Q) (di : defect_info) (mask : ndarray Q) :
  let t := target_rect cy cx nh nw in
  let v := clip_rect (shape0 (result_image st)) (shape1 (result_image st)) t in
  snd (split_channels img) = Some mask ->
  nonempty_rect v = true ->
  forall y x,
    item (result_image (composite st img cy cx nh nw alpha di)) y x
    = if in_rect v y x
      then let m := item mask (y - top t) (x - left t) in
           blend_pixel (item (result_image st) y x) (m, m, m)
                       (item (fst (split_channels img)) (y - top t) (x - left t))
      else item (result_image st) y x.
Proof.
  intros t v Hmask Hv y x. unfold composite.
  destruct (split_channels img) as [sprite mask']. cbn [fst snd] in *. subst mask'.
  fold t. fold v. rewrite Hv.
  cbn [result_image assign_slice item slice map_array]. unfold in_rect.
  destruct (_ && _); [|reflexivity]. cbn zeta.
  replace (top v + (y - top v)) with y by lia.
  replace (left v + (x - left v)) with x by lia.
  replace (top v - top t + (y - top v)) with (y - top t) by lia.
  replace (left v - left t + (x - left v)) with (x - left t) by lia.
  reflexivity.
Qed.

(** What pasting adds to the records. *)
Lemma composite_records (st : state) (img : image) (cy cx nh nw : Z)
      (alpha : Q) (di : defect_info) :
  let v := clip_rect (shape0 (result_image st)) (shape1 (result_image st))
                     (target_rect cy cx nh nw) in
  (nonempty_rect v = true ->
   exists r,
     defect_info_list (composite st img cy cx nh nw alpha di)
       = defect_info_list st ++ [r] /\
     rec_rect r = v /\
     rec_name r = get (defect_type di) "default_defect"%string) /\
  (nonempty_rect v = false ->
   defect_info_list (composite st img cy cx nh nw alpha di) = defect_info_list st).
Proof.
  intros v. unfold composite. destruct (split_channels img) as [sprite mask].
  fold v. split; intros Hv; rewrite Hv; [|reflexivity].
  destruct mask; eexists; cbn [defect_info_list]; (split; [reflexivity|]);
    split; reflexivity.
Qed.

Lemma clip_rect_in_image (rows cols : Z) (t : rect) :
  nonempty_rect (clip_rect rows cols t) = true ->
  rect_in_image rows cols (clip_rect rows cols t).
Proof.
  unfold nonempty_rect, rect_in_image, clip_rect. cbn [left top right bottom].
  intros Hv. apply andb_prop in Hv. destruct Hv as [H1 H2].
  apply Z.ltb_lt in H1. apply Z.ltb_lt in H2. lia.
Qed.

(** A sprite with positive size around a centre inside the image always
    overlaps the image. *)
Lemma centre_inside_overlaps (rows cols cy cx nh nw : Z) :
  0 <= cy < rows -> 0 <= cx < cols -> 0 < nh -> 0 < nw ->
  nonempty_rect (clip_rect rows cols (target_rect cy cx nh nw)) = true.
Proof.
  intros Hy Hx Hh Hw. unfold nonempty_rect, clip_rect, target_rect.
  cbn [left top right bottom].
  assert (0 <= nh / 2 < nh) by (split; [apply Z.div_pos; lia | apply Z.div_lt; lia]).
  assert (0 <= nw / 2 < nw) by (split; [apply Z.div_pos; lia | apply Z.div_lt; lia]).
  apply andb_true_intro. split; apply Z.ltb_lt; lia.
Qed.

(** The [try] block pastes at the placed size, after a resize that only
    fails for an empty size. *)
Lemma place_defect_unfold (st : state) (defect_img : image) (p : placement)
      (angle : Z) (alpha : Q) (di : defect_info) :
  place_defect st defect_img p angle alpha di = st \/
  exists transformed,
    place_defect st defect_img p angle alpha di
    = composite st transformed (center_y p) (center_x p)
                (fst (placed_size p angle)) (snd (placed_size p angle)) alpha di.
Proof.
  unfold place_defect.
  destruct (resize_image defect_img (new_w p) (new_h p)) as [resized|e] eqn:Hres;
    [|left; reflexivity].
  right.
  assert (Hshape : image_shape resized = (new_h p, new_w p)).
  { unfold resize_image, Cv.resize in Hres.
    destruct defect_img; destruct ((0 <? new_w p) && (0 <? new_h p));
      inversion Hres; reflexivity. }
  unfold apply_rotation, placed_size. rewrite Hshape.
  destruct (angle =? 0); [eexists; reflexivity|].
  destruct (rotation_plan (new_h p) (new_w p) angle) as [[M new_width] new_height].
  eexists. reflexivity.
Qed.

End Compositing.

Section CompositingClaims.
Context `{Ext : External}.

(** C2: the spec's rule is out = src*mask*blend + dst*(1 - mask*blend).
    The batch generator blends with the sprite's alpha alone: its result
    does not depend on the requested strength, and is the spec's rule at
    strength 1.  On a canvas pixel (10, 10, 10), an opaque sprite pixel
    (200, 200, 200, 255) and requested strength 0 the pasted pixel is
    (200, 200, 200), where the rule leaves 10. *)
Theorem alpha_blend_ignores_requested_strength :
  (forall st img cy cx nh nw alpha alpha' di,
      composite st img cy cx nh nw alpha di = composite st img cy cx nh nw alpha' di) /\
  (forall dst m src, blend_channel dst m src = spec_alpha_over src m 1 dst) /\
  let st := {| result_image := {| shape0 := 20; shape1 := 20;
                                  item := fun _ _ => (10, 10, 10) |};
               defect_info_list := [] |} in
  let sprite := Bgra {| shape0 := 10; shape1 := 10;
                        item := fun _ _ => (200, 200, 200, 255) |} in
  let no_info := {| scale_min := None; scale_max := None;
                    alpha_min := Some 0; alpha_max := Some 0;
                    angle_min := None; angle_max := None; defect_type := None |} in
  let st' := composite st sprite 10 10 10 10 0 no_info in
  item (result_image st) 10 10 = (10, 10, 10) /\
  item (result_image st') 10 10 = (200, 200, 200) /\
  spec_alpha_over 200 1 0 10 = 10.
Proof.
  split; [intros; apply composite_ignores_alpha|].
  split; [apply blend_channel_is_strength_one|].
  vm_compute. repeat split.
Qed.


(** C6: the target rectangle is top = centerY - h/2, left = centerX - w/2
    with the transformed sprite's extents, clipped to the canvas.  When
    the clipped rectangle is empty the paste leaves canvas and records as
    they were, so does the [try] block of the defect, and the loop goes on
    with the next defect from the state it had. *)
Theorem empty_overlap_is_dropped :
  forall (st : state) (defect_img : image) (p : placement) (angle : Z) (alpha : Q)
         (di : defect_info),
    let nh := fst (placed_size p angle) in
    let nw := snd (placed_size p angle) in
    let t := target_rect (center_y p) (center_x p) nh nw in
    let v := clip_rect (shape0 (result_image st)) (shape1 (result_image st)) t in
    nonempty_rect v = false ->
    (top t = center_y p - nh / 2 /\ left t = center_x p - nw / 2 /\
     bottom t = top t + nh /\ right t = left t + nw) /\
    (v = {| left := Z.max 0 (left t); top := Z.max 0 (top t);
            right := Z.min (shape1 (result_image st)) (right t);
            bottom := Z.min (shape0 (result_image st)) (bottom t) |}) /\
    (forall transformed,
        composite st transformed (center_y p) (center_x p) nh nw alpha di = st) /\
    place_defect st defect_img p angle alpha di = st /\
    (forall chk_random_layer selected_layers layer_masks hollow_layers d ds g g',
        transfer_defect chk_random_layer selected_layers layer_masks hollow_layers st d g
          = Ok (place_defect st defect_img p angle alpha di, g') ->
        transfer_defects chk_random_layer selected_layers layer_masks hollow_layers
                         st (d :: ds) g
        = transfer_defects chk_random_layer selected_layers layer_masks hollow_layers
                           st ds g').
Proof.
  intros st defect_img p angle alpha di nh nw t v Hv.
  assert (Hcomp : forall transformed,
             composite st transformed (center_y p) (center_x p) nh nw alpha di = st).
  { intros transformed. apply composite_empty. exact Hv. }
  assert (Hplace : place_defect st defect_img p angle alpha di = st).
  { destruct (place_defect_unfold st defect_img p angle alpha di) as [Hst|[tr Htr]];
      [exact Hst|]. rewrite Htr. apply Hcomp. }
  split; [repeat split|].
  split; [reflexivity|].
  split; [exact Hcomp|].
  split; [exact Hplace|].
  intros chk layers masks hollow d ds g g' Hrun. rewrite Hplace in Hrun.
  cbn [transfer_defects]. rewrite (bind_ok _ _ _ _ _ Hrun). reflexivity.
Qed.

End CompositingClaims.



(** A sprite of 10 x 10 pixels around the centre (-50, -50). *)
Lemma empty_overlap_is_dropped_witness :
  let st := {| result_image := {| shape0 := 20; shape1 := 20;
                                  item := fun _ _ => (10, 10, 10) |};
               defect_info_list := [] |} in
  let img := Bgr {| shape0 := 10; shape1 := 10; item := fun _ _ => (200, 200, 200) |} in
  let no_info := {| scale_min := None; scale_max := None;
                    alpha_min := None; alpha_max := None;
                    angle_min := None; angle_max := None; defect_type := None |} in
  let p := {| center_y := -50; center_x := -50; new_h := 10; new_w := 10 |} in
  nonempty_rect (clip_rect 20 20 (target_rect (-50) (-50) 10 10)) = false /\
  place_defect (Ext := Reference.external) st img p 0 1 no_info = st.
Proof.
  intros st img no_info p.
  split; [reflexivity|].
  destruct (empty_overlap_is_dropped (Ext := Reference.external) st img p 0 1 no_info
              eq_refl) as (_ & _ & _ & Hplace & _).
  exact Hplace.
Defined.

(** ** The annotation documents *)
Section Annotations.
Context `{Ext : External}.

Lemma keeps_records_refl (st : state) : keeps_records st st.
Proof. repeat split; auto. Qed.

Lemma keeps_records_trans (st1 st2 st3 : state) :
  keeps_records st1 st2 -> keeps_records st2 st3 -> keeps_records st1 st3.
Proof.
  intros (H0 & H1 & H) (H0' & H1' & H'). repeat split; [congruence|congruence|auto].
Qed.

Lemma composite_keeps_records (st : state) (img : image) (cy cx nh nw : Z)
      (alpha : Q) (di : defect_info) :
  keeps_records st (composite st img cy cx nh nw alpha di).
Proof.
  destruct (composite_shape st img cy cx nh nw alpha di) as [Hs0 Hs1].
  split; [exact Hs0|]. split; [exact Hs1|].
  unfold records_in_image. rewrite Hs0, Hs1. intros Hinv.
  destruct (composite_records st img cy cx nh nw alpha di) as [Hadd Hsame].
  destruct (nonempty_rect
              (clip_rect (shape0 (result_image st)) (shape1 (result_image st))
                         (target_rect cy cx nh nw))) eqn:Hv.
  - destruct (Hadd eq_refl) as (r & -> & Hrect & _).
    apply Forall_app. split; [exact Hinv|].
    constructor; [|constructor]. rewrite Hrect.
    apply clip_rect_in_image. exact Hv.
  - rewrite (Hsame eq_refl). exact Hinv.
Qed.

Lemma place_defect_keeps_records (st : state) (defect_img : image) (p : placement)
      (angle : Z) (alpha : Q) (di : defect_info) :
  keeps_records st (place_defect st defect_img p angle alpha di).
Proof.
  destruct (place_defect_unfold st defect_img p angle alpha di) as [->|[tr ->]].
  - apply keeps_records_refl.
  - apply composite_keeps_records.
Qed.

Lemma bind_inv {A B} (m : Rand A) (k : A -> Rand B) g b g' :
  bind m k g = Ok (b, g') ->
  exists a g1, m g = Ok (a, g1) /\ k a g1 = Ok (b, g').
Proof.
  unfold bind. destruct (m g) as [[a g1]|e]; [|discriminate].
  intros Hk. exists a, g1. split; [reflexivity|exact Hk].
Qed.

(** One step through a successful [bind]. *)
Ltac bind_step H x g :=
  apply bind_inv in H; destruct H as (x & g & _ & H).

Lemma transfer_defect_keeps_records chk_random_layer selected_layers layer_masks
      hollow_layers (st : state) (d : defect) g st' g' :
  transfer_defect chk_random_layer selected_layers layer_masks hollow_layers st d g
    = Ok (st', g') ->
  keeps_records st st'.
Proof.
  unfold transfer_defect. destruct (loaded d) as [defect_img|]; [|discriminate].
  intros Hrun.
  bind_step Hrun s g1. bind_step Hrun a g2. bind_step Hrun angle g3.
  bind_step Hrun layer_num g4.
  destruct (image_shape defect_img) as [h w].
  destruct (scaled_size h w (inject_Z s / 100)) as [nh nw].
  bind_step Hrun p g5.
  inversion Hrun; subst. apply place_defect_keeps_records.
Qed.

Lemma transfer_defects_keeps_records chk_random_layer selected_layers layer_masks
      hollow_layers (ds : list defect) :
  forall (st : state) g st' g',
    transfer_defects chk_random_layer selected_layers layer_masks hollow_layers st ds g
      = Ok (st', g') ->
    keeps_records st st'.
Proof.
  induction ds as [|d ds IH]; intros st g st' g' Hrun.
  - inversion Hrun; subst. apply keeps_records_refl.
  - cbn [transfer_defects] in Hrun. apply bind_inv in Hrun.
    destruct Hrun as (st1 & g1 & Hd & Hrest).
    apply keeps_records_trans with (st2 := st1).
    + apply (transfer_defect_keeps_records _ _ _ _ _ _ _ _ _ Hd).
    + apply (IH _ _ _ _ Hrest).
Qed.

Lemma documents_correspond (l : list defect_record) :
  Forall2 (fun s o => exists r, In r l /\ s = shape_of_record r /\ o = object_of_record r)
          (json_shapes l) (xml_objects l).
Proof.
  unfold json_shapes, xml_objects.
  assert (Hgen : forall l0,
             (forall r, In r l0 -> In r l) ->
             Forall2 (fun s o => exists r, In r l /\ s = shape_of_record r
                                           /\ o = object_of_record r)
                     (map shape_of_record l0) (map object_of_record l0)).
  { induction l0 as [|r l0 IH]; intros Hsub; cbn [map]; constructor.
    - exists r. split; [apply Hsub; left; reflexivity|]. split; reflexivity.
    - apply IH. intros r' Hr'. apply Hsub. right. exact Hr'. }
  apply Hgen. auto.
Qed.

(** C10: when an image is generated, the canvas keeps the shape of the
    target image, every object of the XML document has a bounding box
    with 0 <= xmin < xmax <= width and 0 <= ymin < ymax <= height of it,
    and the JSON shapes and the XML objects are the images, in the same
    order, of the same records: as many of each, with the same labels. *)
Theorem xml_boxes_inside_image_and_match_shapes :
  forall (chk_random_layer chk_random_defect : bool) (spin_max_defects : Z)
         (selected_layers : list Z) (layer_masks : Z -> layer_mask)
         (hollow_layers : Z -> bool) (target_image : ndarray bgr)
         (selected_defects : list defect) (g g' : rng) (st : state),
    generate_image chk_random_layer chk_random_defect spin_max_defects
                   selected_layers layer_masks hollow_layers target_image
                   selected_defects g = Ok (st, g') ->
    let height := shape0 (result_image st) in
    let width := shape1 (result_image st) in
    (height, width) = (shape0 target_image, shape1 target_image) /\
    Forall (bndbox_in_image height width) (xml_objects (defect_info_list st)) /\
    Forall2 (fun s o => exists r, In r (defect_info_list st) /\
                                  s = shape_of_record r /\ o = object_of_record r)
            (json_shapes (defect_info_list st)) (xml_objects (defect_info_list st)) /\
    List.length (json_shapes (defect_info_list st))
      = List.length (xml_objects (defect_info_list st)) /\
    map label (json_shapes (defect_info_list st))
      = map obj_name (xml_objects (defect_info_list st)).
Proof.
  intros chk_l chk_d mx layers masks hollow target sel g g' st Hrun height width.
  unfold generate_image in Hrun. bind_step Hrun ds g1.
  apply transfer_defects_keeps_records in Hrun.
  destruct Hrun as (Hs0 & Hs1 & Hinv). cbn [result_image] in Hs0, Hs1.
  split; [unfold height, width; rewrite Hs0, Hs1; reflexivity|].
  split.
  { assert (Hrec : records_in_image st) by (apply Hinv; constructor).
    unfold records_in_image in Hrec. unfold xml_objects.
    apply Forall_map. eapply Forall_impl; [|exact Hrec].
    intros r Hr. exact Hr. }
  split; [apply documents_correspond|].
  unfold json_shapes, xml_objects. rewrite !length_map, !map_map.
  split; reflexivity.
Qed.

End Annotations.

(** One image: a target of 20 x 20 pixels, one solid layer drawn around
    columns and rows 2..17, one defect of 10 x 10 pixels without alpha at
    scale 100%, angle 0. *)
Lemma xml_boxes_inside_image_and_match_shapes_witness :
  let target := {| shape0 := 20; shape1 := 20; item := fun _ _ => (10, 10, 10) |} in
  let d := {| name := "scratch.png"%string;
              loaded := Some (Bgr {| shape0 := 10; shape1 := 10;
                                     item := fun _ _ => (200, 200, 200) |});
              info := {| scale_min := None; scale_max := None;
                         alpha_min := None; alpha_max := None;
                         angle_min := Some 0; angle_max := Some 0;
                         defect_type := Some "scratch"%string |} |} in
  let run := generate_image (Ext := Reference.external) false false 3 [1]
               (fun _ => ContourMask [(2, 2); (17, 2); (17, 17); (2, 17)])
               (fun _ => false) target [d] {| draws := fun _ => 0; used := O |} in
  exists st g',
    run = Ok (st, g') /\
    xml_objects (defect_info_list st)
    = [{| obj_name := "scratch"%string; xmin := 2; ymin := 2; xmax := 12; ymax := 12 |}] /\
    Forall (bndbox_in_image (shape0 (result_image st)) (shape1 (result_image st)))
           (xml_objects (defect_info_list st)).
Proof.
  intros target d run.
  destruct run as [[st g']|e] eqn:Hrun.
  - exists st, g'. split; [reflexivity|].
    split.
    + assert (Hobj : match run with
                     | Ok (st0, _) => xml_objects (defect_info_list st0)
                     | Raised _ => []
                     end
                     = [{| obj_name := "scratch"%string;
                           xmin := 2; ymin := 2; xmax := 12; ymax := 12 |}])
        by (vm_compute; reflexivity).
      unfold run in Hobj. unfold run in Hrun. rewrite Hrun in Hobj. exact Hobj.
    + apply (xml_boxes_inside_image_and_match_shapes (Ext := Reference.external)
               _ _ _ _ _ _ _ _ _ _ _ Hrun).
  - exfalso.
    assert (Hok : match run with Ok _ => True | Raised _ => False end)
      by (vm_compute; exact I).
    unfold run in Hok, Hrun. rewrite Hrun in Hok. exact Hok.
Defined.

(** ** The polygon of a placed defect *)
Section Polygon.
Context `{Ext : External}.

Lemma insert_desc_in {A} (key : A -> Q) (x : A) (l : list A) (c : A) :
  In c (insert_desc key x l) <-> c = x \/ In c l.
Proof.
  induction l as [|y l IH]; cbn [insert_desc].
  - cbn. intuition congruence.
  - destruct (Qle_bool (key y) (key x)); cbn [In]; [intuition congruence|].
    rewrite IH. cbn [In]. intuition congruence.
Qed.

Lemma sorted_desc_in {A} (key : A -> Q) (l : list A) (c : A) :
  In c (sorted_desc key l) <-> In c l.
Proof.
  unfold sorted_desc. induction l as [|x l IH]; cbn [fold_right]; [reflexivity|].
  rewrite insert_desc_in, IH. cbn [In]. intuition congruence.
Qed.

(** The head of the sorted list has the largest key. *)
Lemma sorted_desc_head {A} (key : A -> Q) (l : list A) :
  forall h t, sorted_desc key l = h :: t ->
              forall c, In c l -> (key c <= key h)%Q.
Proof.
  induction l as [|x l IH]; intros h t Hs c Hc; [destruct Hc|].
  unfold sorted_desc in Hs. cbn [fold_right] in Hs.
  fold (sorted_desc key l) in Hs.
  destruct (sorted_desc key l) as [|h' t'] eqn:Hl.
  - cbn in Hs. inversion Hs; subst. destruct Hc as [->|Hc]; [apply Qle_refl|].
    apply (sorted_desc_in key) in Hc. rewrite Hl in Hc. destruct Hc.
  - cbn [insert_desc] in Hs.
    destruct (Qle_bool (key h') (key x)) eqn:Hle; inversion Hs; subst.
    + apply Qle_bool_iff in Hle. destruct Hc as [->|Hc]; [apply Qle_refl|].
      apply Qle_trans with (y := key h'); [|exact Hle].
      apply (IH h' t' eq_refl). exact Hc.
    + destruct Hc as [->|Hc]; [|apply (IH h t' eq_refl); exact Hc].
      apply Qlt_le_weak. apply Qnot_le_lt. intros Hle'.
      apply Qle_bool_iff in Hle'. congruence.
Qed.

Lemma sorted_desc_nil {A} (key : A -> Q) (l : list A) :
  sorted_desc key l = [] -> l = [].
Proof.
  destruct l as [|x l]; [reflexivity|]. intros Hs. exfalso.
  assert (Hin : In x (sorted_desc key (x :: l)))
    by (apply sorted_desc_in; left; reflexivity).
  rewrite Hs in Hin. destruct Hin.
Qed.

(** The gray mask recovers the alpha value it was normalised from. *)
Lemma mask_gray_value (a : Z) :
  0 <= a < 256 -> astype_uint8 (inject_Z a / 255 * 255) = a.
Proof.
  intros Ha. unfold astype_uint8.
  rewrite (py_int_compat _ (inject_Z a)) by field.
  unfold py_int. cbn [inject_Z Qnum Qden]. rewrite Z.quot_1_r.
  apply Z.mod_small. exact Ha.
Qed.

(** C7: the contours are those of the gray image of the placed alpha
    mask, or without alpha of the gray image of the placed sprite
    thresholded at 1; with no contour the polygon is the four corners of
    the placement rectangle; otherwise it is the points of a contour of
    largest area, each moved by the rectangle's top-left corner. *)
Theorem polygon_is_largest_contour_or_rectangle :
  forall r : defect_record,
    let cs := record_contours r in
    let v := rec_rect r in
    (forall m, mask_roi r = Some m ->
       cs = findContours
              (map_array bgr2gray
                 (map_array (fun q : Q * Q * Q =>
                               let '(b, g, r0) := q in
                               (astype_uint8 (b * 255), astype_uint8 (g * 255),
                                astype_uint8 (r0 * 255))) m))) /\
    (forall a, 0 <= a < 256 -> astype_uint8 (inject_Z a / 255 * 255) = a) /\
    (mask_roi r = None ->
     cs = findContours (Cv.threshold (map_array bgr2gray (defect_roi r)) 1 255) /\
     forall y x,
       item (Cv.threshold (map_array bgr2gray (defect_roi r)) 1 255) y x
       = if 1 <? bgr2gray (item (defect_roi r) y x) then 255 else 0) /\
    (cs = [] ->
     record_points r
     = [(left v, top v); (right v, top v); (right v, bottom v); (left v, bottom v)]) /\
    (cs <> [] ->
     exists largest,
       In largest cs /\
       (forall c, In c cs -> (contourArea c <= contourArea largest)%Q) /\
       (largest <> [] ->
        record_points r
        = map (fun p : point => (fst p + left v, snd p + top v)) largest) /\
       (largest = [] -> record_points r = rect_corners v)).
Proof.
  intros r cs v.
  split.
  { intros m Hm. unfold cs, record_contours. rewrite Hm. reflexivity. }
  split; [exact mask_gray_value|].
  split.
  { intros Hm. unfold cs, record_contours. rewrite Hm. split; reflexivity. }
  split.
  { intros Hcs. unfold record_points. fold cs. rewrite Hcs. reflexivity. }
  intros Hcs. unfold record_points. fold cs. fold v.
  destruct (sorted_desc contourArea cs) as [|largest rest] eqn:Hs.
  { apply sorted_desc_nil in Hs. congruence. }
  exists largest. split.
  { apply (sorted_desc_in contourArea cs). rewrite Hs. left. reflexivity. }
  split; [apply (sorted_desc_head contourArea cs largest rest Hs)|].
  split.
  - intros Hne. destruct largest as [|p largest]; [congruence|]. reflexivity.
  - intros ->. reflexivity.
Qed.

End Polygon.

(** A record with an opaque mask of 10 x 10 pixels placed at (2, 2). *)
Lemma polygon_is_largest_contour_or_rectangle_witness :
  let r := {| rec_name := "scratch"%string;
              rec_rect := {| left := 2; top := 2; right := 12; bottom := 12 |};
              defect_roi := {| shape0 := 10; shape1 := 10;
                               item := fun _ _ => (200, 200, 200) |};
              mask_roi := Some {| shape0 := 10; shape1 := 10;
                                  item := fun _ _ => (1, 1, 1)%Q |} |} in
  record_contours (Ext := Reference.external) r <> [] /\
  exists largest,
    In largest (record_contours (Ext := Reference.external) r) /\
    (largest <> [] ->
     record_points (Ext := Reference.external) r
     = map (fun p : point => (fst p + 2, snd p + 2)) largest).
Proof.
  intros r.
  assert (Hne : record_contours (Ext := Reference.external) r <> [])
    by (vm_compute; discriminate).
  split; [exact Hne|].
  destruct (polygon_is_largest_contour_or_rectangle (Ext := Reference.external) r)
    as (_ & _ & _ & _ & Hlargest).
  destruct (Hlargest Hne) as (largest & Hin & _ & Hpts & _).
  exists largest. split; [exact Hin|exact Hpts].
Defined.

(** ** Rotation *)
Section Rotation.
Context `{Ext : External}.

(** The size of the rotated sprite and the matrix entries of
    [rotation_plan], spelled out. *)
Lemma rotation_plan_unfold (h w angle : Z) :
  let a := fst (cos_sin angle) in
  let b := snd (cos_sin angle) in
  let cx := inject_Z (w / 2) in
  let cy := inject_Z (h / 2) in
  let new_width := py_int (inject_Z h * Qabs b + inject_Z w * Qabs a) in
  let new_height := py_int (inject_Z h * Qabs a + inject_Z w * Qabs b) in
  rotation_plan h w angle
  = ({| m00 := a; m01 := b;
        m02 := ((1 - a) * cx - b * cy) + (inject_Z new_width / 2 - cx);
        m10 := - b; m11 := a;
        m12 := (b * cx + (1 - a) * cy) + (inject_Z new_height / 2 - cy) |}%Q,
     new_width, new_height).
Proof.
  unfold rotation_plan, Cv.getRotationMatrix2D, rotated_size, recenter.
  destruct (cos_sin angle) as [a b]. reflexivity.
Qed.

(** The centre used for the rotation is sent to the centre of the grown
    canvas. *)
Lemma rotation_centre_to_centre (h w angle : Z) :
  let M := fst (fst (rotation_plan h w angle)) in
  let new_width := snd (fst (rotation_plan h w angle)) in
  let new_height := snd (rotation_plan h w angle) in
  (fst (apply_affine M (inject_Z (w / 2), inject_Z (h / 2))) == inject_Z new_width / 2 /\
   snd (apply_affine M (inject_Z (w / 2), inject_Z (h / 2))) == inject_Z new_height / 2)%Q.
Proof.
  rewrite rotation_plan_unfold. cbn [fst snd apply_affine m00 m01 m02 m10 m11 m12].
  split; field.
Qed.

End Rotation.

(** C5: the rotated sprite gets new_w = int(h*|sin| + w*|cos|) columns and
    new_h = int(h*|cos| + w*|sin|) rows, and the matrix sends the rotation
    centre (w // 2, h // 2) to (new_w / 2, new_h / 2).  A corner can still
    fall outside the grown canvas.  At 90 degrees (cosine 0, sine 1):
    - a sprite of 10 x 10 pixels keeps 10 x 10 pixels and its pixel (0, 0)
      is sent to (x, y) = (0, 10), one row below the last row 9;
    - a sprite of 11 x 11 pixels keeps 11 x 11 pixels, its pixel (0, 0) is
      sent to (1/2, 21/2), beyond the last row 10, and its outer corner
      (11, 11) is sent to (23/2, -1/2), outside the square [0, 11] x [0, 11]. *)
Theorem quarter_turn_clips_a_corner :
  (forall (Ext : External) (h w angle : Z),
      let M := fst (fst (rotation_plan h w angle)) in
      let new_width := snd (fst (rotation_plan h w angle)) in
      let new_height := snd (rotation_plan h w angle) in
      new_width = py_int (inject_Z h * Qabs (snd (cos_sin angle))
                          + inject_Z w * Qabs (fst (cos_sin angle))) /\
      new_height = py_int (inject_Z h * Qabs (fst (cos_sin angle))
                           + inject_Z w * Qabs (snd (cos_sin angle))) /\
      (fst (apply_affine M (inject_Z (w / 2), inject_Z (h / 2)))
       == inject_Z new_width / 2)%Q /\
      (snd (apply_affine M (inject_Z (w / 2), inject_Z (h / 2)))
       == inject_Z new_height / 2)%Q) /\
  cos_sin (External := Reference.external) 90 = (0, 1)%Q /\
  (let plan := rotation_plan (Ext := Reference.external) 10 10 90 in
   let M := fst (fst plan) in
   (snd (fst plan), snd plan) = (10, 10) /\
   (fst (apply_affine M (0, 0)) == 0)%Q /\
   (snd (apply_affine M (0, 0)) == 10)%Q /\
   (inject_Z (snd plan - 1) < snd (apply_affine M (0, 0)))%Q) /\
  (let plan := rotation_plan (Ext := Reference.external) 11 11 90 in
   let M := fst (fst plan) in
   (snd (fst plan), snd plan) = (11, 11) /\
   (fst (apply_affine M (0, 0)) == 1 # 2)%Q /\
   (snd (apply_affine M (0, 0)) == 21 # 2)%Q /\
   (inject_Z (snd plan - 1) < snd (apply_affine M (0, 0)))%Q /\
   (fst (apply_affine M (11, 11)) == 23 # 2)%Q /\
   (snd (apply_affine M (11, 11)) == - (1 # 2))%Q /\
   (inject_Z (snd (fst plan)) < fst (apply_affine M (11, 11)))%Q /\
   (snd (apply_affine M (11, 11)) < 0)%Q).
Proof.
  split.
  { intros Ext h w angle M new_width new_height.
    destruct (rotation_centre_to_centre h w angle) as [Hx Hy].
    split; [unfold new_width; rewrite rotation_plan_unfold; reflexivity|].
    split; [unfold new_height; rewrite rotation_plan_unfold; reflexivity|].
    split; [exact Hx | exact Hy]. }
  split; [reflexivity|].
  split; vm_compute; repeat split; reflexivity.
Qed.

(** ** The area of a contour *)
Section ContourArea.















End ContourArea.

(** ** Colours, shown areas and the contours of a layer *)
Section LayerBookkeeping.
Context `{Ext : External}.

(** X3: every layer number, also 0, a negative one or one above 9, gets a
    colour of four entries with alpha 100 and no [IndexError]; the colour
    repeats with period 9, and the layers 1 to 9 have nine different
    colours. *)
Theorem get_layer_color_total_periodic :
  forall layer_num : Z,
    (exists b g r,
        get_layer_color layer_num = Ok [b; g; r; 100]) /\
    get_layer_color (layer_num + 9) = get_layer_color layer_num /\
    (forall other : Z,
        1 <= layer_num <= 9 -> 1 <= other <= 9 ->
        get_layer_color layer_num = get_layer_color other -> layer_num = other).
Proof.
  intros n. unfold get_layer_color.
  change (len layer_colors) with 9.
  split; [|split].
  - pose proof (Z.mod_pos_bound (n - 1) 9 ltac:(lia)) as Hm.
    assert (Hcases : (n - 1) mod 9 = 0 \/ (n - 1) mod 9 = 1 \/ (n - 1) mod 9 = 2 \/
                     (n - 1) mod 9 = 3 \/ (n - 1) mod 9 = 4 \/ (n - 1) mod 9 = 5 \/
                     (n - 1) mod 9 = 6 \/ (n - 1) mod 9 = 7 \/ (n - 1) mod 9 = 8) by lia.
    destruct Hcases as [H|[H|[H|[H|[H|[H|[H|[H|H]]]]]]]]; rewrite H;
      vm_compute; eexists; eexists; eexists; reflexivity.
  - replace (n + 9 - 1) with (n - 1 + 1 * 9) by lia. rewrite Z.mod_add by lia.
    reflexivity.
  - intros m Hn Hm.
    rewrite (Z.mod_small (n - 1) 9) by lia. rewrite (Z.mod_small (m - 1) 9) by lia.
    assert (Hn' : n = 1 \/ n = 2 \/ n = 3 \/ n = 4 \/ n = 5 \/ n = 6 \/ n = 7 \/
                  n = 8 \/ n = 9) by lia.
    assert (Hm' : m = 1 \/ m = 2 \/ m = 3 \/ m = 4 \/ m = 5 \/ m = 6 \/ m = 7 \/
                  m = 8 \/ m = 9) by lia.
    destruct Hn' as [H|[H|[H|[H|[H|[H|[H|[H|H]]]]]]]]; rewrite H;
      destruct Hm' as [H'|[H'|[H'|[H'|[H'|[H'|[H'|[H'|H']]]]]]]]; rewrite H';
      vm_compute; intros Heq; first [reflexivity | discriminate Heq].
Qed.




(** X5: after any number of [add_inner_contour] calls, saving a drawn
    contour stores a solid layer (the drawn contour, not hollow) when
    nothing was collected before and a hollow mask (first collected
    contour outside, the others and the drawn one as holes) otherwise;
    either way the collected contours are cleared, so the next save starts
    a new layer. *)
Theorem save_layer_solid_or_hollow :
  forall (height width : Z) (e : editor) (drawn : contour),
    drawn <> [] ->
    let e' := save_layer height width e drawn in
    layer_contours e' = [] /\
    (layer_contours e = [] ->
     stored e' = Some (ContourMask drawn, false) /\
     shown_area e' = Some (calculate_area drawn)) /\
    (forall outer holes,
        layer_contours e = outer :: holes ->
        stored e' = Some (ArrayMask (hollow_mask height width outer (holes ++ [drawn])), true)) /\
    (forall next, next <> [] ->
        stored (save_layer height width e' next) = Some (ContourMask next, false)).
Proof.
  intros height width e drawn Hne e'.
  assert (Hclear : layer_contours e' = []).
  { unfold e', save_layer. destruct drawn as [|p t]; [congruence|].
    destruct (layer_contours e) as [|outer holes]; [reflexivity|].
    cbn [app].
    match goal with |- context [match ?l with [] => _ | _ :: _ => _ end] =>
      destruct l end; reflexivity. }
  split; [exact Hclear|]. split; [|split].
  - intros Hnil. unfold e', save_layer. rewrite Hnil.
    destruct drawn as [|p t]; [congruence|]. cbn. split; reflexivity.
  - intros outer holes Hl. unfold e', save_layer. rewrite Hl.
    destruct drawn as [|p t]; [congruence|]. cbn [app].
    match goal with |- context [match ?l with [] => _ | _ :: _ => _ end] =>
      destruct l as [|h hs] eqn:Hh end.
    + apply app_eq_nil in Hh. destruct Hh; discriminate.
    + reflexivity.
  - intros next Hnext. unfold save_layer at 1. rewrite Hclear.
    destruct next as [|p t]; [congruence|]. reflexivity.
Qed.

End LayerBookkeeping.

Lemma save_layer_solid_or_hollow_witness :
  let e := add_inner_contour
             {| layer_contours := []; stored := None; shown_area := None |}
             [(0, 0); (5, 0); (5, 5); (0, 5)] in
  [(1, 1); (2, 1); (2, 2); (1, 2)] <> [] /\
  stored (save_layer (Ext := Reference.external) 6 6 e [(1, 1); (2, 1); (2, 2); (1, 2)])
  = Some (ArrayMask (hollow_mask (Ext := Reference.external) 6 6
                       [(0, 0); (5, 0); (5, 5); (0, 5)]
                       ([] ++ [[(1, 1); (2, 1); (2, 2); (1, 2)]])), true).
Proof.
  intros e. split; [discriminate|].
  destruct (save_layer_solid_or_hollow (Ext := Reference.external) 6 6 e
              [(1, 1); (2, 1); (2, 2); (1, 2)] ltac:(discriminate))
    as (_ & _ & Hhollow & _).
  apply (Hhollow [(0, 0); (5, 0); (5, 5); (0, 5)] []). reflexivity.
Defined.

(** ** Settings of a defect and the draws made from them *)
Section Settings.
Context `{Ext : External}.

Lemma randint_empty (a b : Z) (g : rng) :
  b < a -> randint a b g = Raised ValueError.
Proof.
  intros Hab. unfold randint. destruct (Z.leb_spec a b); [lia|reflexivity].
Qed.

(** X6: whatever six integers are typed, the saved settings lie in
    1..500 (scale), 0..100 (alpha) and 0..360 (angle) with each minimum at
    most its maximum, so the generator's three ranges are not empty;
    settings that already satisfy this are saved as typed. *)
Theorem saved_settings_are_valid :
  forall (smin smax amin amax gmin gmax : Z) (type : string),
    let di := DefectManager.save_defect_scale_settings
                smin smax amin amax gmin gmax type in
    valid_ranges di /\
    (exists smin' smax' amin' amax' gmin' gmax',
        (scale_min di, scale_max di) = (Some smin', Some smax') /\
        (alpha_min di, alpha_max di) = (Some amin', Some amax') /\
        (angle_min di, angle_max di) = (Some gmin', Some gmax') /\
        1 <= smin' <= smax' /\ smax' <= 500 /\
        0 <= amin' <= amax' /\ amax' <= 100 /\
        0 <= gmin' <= gmax' /\ gmax' <= 360) /\
    (1 <= smin <= smax -> smax <= 500 ->
     0 <= amin <= amax -> amax <= 100 ->
     0 <= gmin <= gmax -> gmax <= 360 ->
     di = {| scale_min := Some smin; scale_max := Some smax;
             alpha_min := Some amin; alpha_max := Some amax;
             angle_min := Some gmin; angle_max := Some gmax;
             defect_type := Some type |}).
Proof.
  intros smin smax amin amax gmin gmax type di.
  unfold di, DefectManager.save_defect_scale_settings, valid_ranges.
  cbn [scale_min scale_max alpha_min alpha_max angle_min angle_max get].
  split; [|split].
  - repeat match goal with |- context [if ?c then _ else _] =>
             destruct (Z.ltb_spec0 (Z.max 1 (Z.min smax 500)) (Z.max 1 (Z.min smin 500)));
             destruct (Z.ltb_spec0 (Z.max 0 (Z.min amax 100)) (Z.max 0 (Z.min amin 100)));
             destruct (Z.ltb_spec0 (Z.max 0 (Z.min gmax 360)) (Z.max 0 (Z.min gmin 360)))
           end; lia.
  - do 6 eexists. split; [reflexivity|]. split; [reflexivity|]. split; [reflexivity|].
    destruct (Z.ltb_spec0 (Z.max 1 (Z.min smax 500)) (Z.max 1 (Z.min smin 500)));
      destruct (Z.ltb_spec0 (Z.max 0 (Z.min amax 100)) (Z.max 0 (Z.min amin 100)));
      destruct (Z.ltb_spec0 (Z.max 0 (Z.min gmax 360)) (Z.max 0 (Z.min gmin 360)));
      lia.
  - intros Hs Hs' Ha Ha' Hg Hg'.
    rewrite (Z.min_l smin 500), (Z.min_l smax 500), (Z.min_l amin 100),
      (Z.min_l amax 100), (Z.min_l gmin 360), (Z.min_l gmax 360) by lia.
    rewrite (Z.max_r 1 smin), (Z.max_r 1 smax), (Z.max_r 0 amin),
      (Z.max_r 0 amax), (Z.max_r 0 gmin), (Z.max_r 0 gmax) by lia.
    destruct (Z.ltb_spec smax smin); [lia|].
    destruct (Z.ltb_spec amax amin); [lia|].
    destruct (Z.ltb_spec gmax gmin); [lia|]. reflexivity.
Qed.

(** X7: a defect whose image cannot be decoded, or whose settings hold a
    minimum above its maximum (a settings file is loaded unchecked), makes
    the loop body raise: [LoadError] for the image, [ValueError] for the
    range. *)
Theorem transfer_defect_raises :
  forall chk_random_layer selected_layers layer_masks hollow_layers
         (st : state) (d : defect) (g : rng),
    (loaded d = None ->
     transfer_defect chk_random_layer selected_layers layer_masks hollow_layers st d g
     = Raised LoadError) /\
    (loaded d <> None -> ~ valid_ranges (info d) ->
     transfer_defect chk_random_layer selected_layers layer_masks hollow_layers st d g
     = Raised ValueError).
Proof.
  intros chk layers masks hollow st d g. unfold transfer_defect. split.
  - intros ->. reflexivity.
  - intros Hload Hbad. destruct (loaded d) as [img|]; [|congruence].
    unfold valid_ranges in Hbad.
    destruct (Z.le_gt_cases (get (scale_min (info d)) 100) (get (scale_max (info d)) 100))
      as [Hs|Hs].
    2:{ unfold bind. rewrite randint_empty by lia. reflexivity. }
    destruct (randint_range _ _ g Hs) as (s & g1 & Hrs & _).
    rewrite (bind_ok _ _ _ _ _ Hrs).
    destruct (Z.le_gt_cases (get (alpha_min (info d)) 100) (get (alpha_max (info d)) 100))
      as [Ha|Ha].
    2:{ unfold bind. rewrite randint_empty by lia. reflexivity. }
    destruct (randint_range _ _ g1 Ha) as (a & g2 & Hra & _).
    rewrite (bind_ok _ _ _ _ _ Hra).
    unfold bind. rewrite randint_empty by lia. reflexivity.
Qed.

End Settings.

Lemma transfer_defect_raises_witness :
  let d := {| name := "scratch.png"%string;
              loaded := Some (Bgr {| shape0 := 10; shape1 := 10;
                                     item := fun _ _ => (200, 200, 200) |});
              info := {| scale_min := Some 120; scale_max := Some 80;
                         alpha_min := None; alpha_max := None;
                         angle_min := None; angle_max := None;
                         defect_type := None |} |} in
  let st := {| result_image := {| shape0 := 20; shape1 := 20;
                                  item := fun _ _ => (10, 10, 10) |};
               defect_info_list := [] |} in
  loaded d <> None /\ ~ valid_ranges (info d) /\
  transfer_defect (Ext := Reference.external) false [1] (fun _ => NoMask)
                  (fun _ => false) st d {| draws := fun _ => 0; used := O |}
  = Raised ValueError.
Proof.
  intros d st.
  assert (Hload : loaded d <> None) by discriminate.
  assert (Hbad : ~ valid_ranges (info d)).
  { unfold valid_ranges. cbn. intros (H & _). lia. }
  split; [exact Hload|]. split; [exact Hbad|].
  destruct (transfer_defect_raises (Ext := Reference.external) false [1]
              (fun _ => NoMask) (fun _ => false) st d
              {| draws := fun _ => 0; used := O |}) as [_ Hraise].
  exact (Hraise Hload Hbad).
Defined.

(** ** Every transferred defect is placed and recorded *)
Section EveryDefectPlaced.
Context `{Ext : External}.

Lemma np_where_bbox_inside {A} (cond : A -> bool) (a : ndarray A) :
  np_where cond a <> [] ->
  let r := bbox_region (np_where cond a) in
  0 <= min_y r <= max_y r /\ max_y r < shape0 a /\
  0 <= min_x r <= max_x r /\ max_x r < shape1 a.
Proof.
  intros Hne. set (wh := np_where cond a) in *.
  destruct (bbox_region_bounds wh) as [_ Hattained].
  destruct (Hattained Hne) as (Hmy & HMy & Hmx & HMx).
  cbn zeta in *.
  assert (Hrow : forall y, In y (map fst wh) -> 0 <= y < shape0 a).
  { intros y Hy. apply in_map_iff in Hy. destruct Hy as ([y' x'] & <- & Hin).
    apply in_np_where in Hin. cbn [fst]. tauto. }
  assert (Hcol : forall x, In x (map snd wh) -> 0 <= x < shape1 a).
  { intros x Hx. apply in_map_iff in Hx. destruct Hx as ([y' x'] & <- & Hin).
    apply in_np_where in Hin. cbn [snd]. tauto. }
  pose proof (Hrow _ Hmy). pose proof (Hrow _ HMy).
  pose proof (Hcol _ Hmx). pose proof (Hcol _ HMx).
  pose proof (np_min_le 0 _ _ HMy : min_y (bbox_region wh) <= max_y (bbox_region wh)).
  pose proof (np_min_le 0 _ _ HMx : min_x (bbox_region wh) <= max_x (bbox_region wh)).
  lia.
Qed.

(** The bounds of a solid layer lie in the image, whatever is stored for
    it. *)
Lemma solid_region_inside_image (m : layer_mask) (img_height img_width : Z) :
  0 < img_height -> 0 < img_width ->
  let r := layer_region false m img_height img_width in
  0 <= min_y r <= max_y r /\ max_y r < img_height /\
  0 <= min_x r <= max_x r /\ max_x r < img_width.
Proof.
  intros HH HW.
  assert (Hwhole : forall count wh,
             let r := whole_region img_height img_width count wh in
             0 <= min_y r <= max_y r /\ max_y r < img_height /\
             0 <= min_x r <= max_x r /\ max_x r < img_width)
    by (intros; cbn; lia).
  assert (Hbbox : forall a : ndarray Q,
             shape0 a = img_height -> shape1 a = img_width ->
             (0 <? len (where_positiveQ a)) = true ->
             let r := bbox_region (where_positiveQ a) in
             0 <= min_y r <= max_y r /\ max_y r < img_height /\
             0 <= min_x r <= max_x r /\ max_x r < img_width).
  { intros a H0 H1 Hpos. rewrite <- H0, <- H1. apply np_where_bbox_inside.
    intros Hnil. unfold where_positiveQ in Hpos. rewrite Hnil in Hpos. discriminate. }
  unfold layer_region. cbn [negb].
  destruct m as [|pts|a]; [apply Hwhole| |].
  - cbn [map_array Cv.fillPoly zeros shape0 shape1]. rewrite !Z.eqb_refl.
    cbn [andb negb].
    match goal with |- context [0 <? len ?w] => destruct (0 <? len w) eqn:Hpos end.
    + cbn [andb]. apply Hbbox; [reflexivity|reflexivity|exact Hpos].
    + cbn [andb]. match goal with |- context [if ?c then _ else _] => destruct c end;
        apply Hwhole.
  - cbn [map_array shape0 shape1].
    destruct ((shape0 a =? img_height) && (shape1 a =? img_width)) eqn:Hshape.
    + apply andb_prop in Hshape. destruct Hshape as [H0 H1].
      apply Z.eqb_eq in H0. apply Z.eqb_eq in H1.
      match goal with |- context [0 <? len ?w] => destruct (0 <? len w) eqn:Hpos end.
      * cbn [andb negb]. apply Hbbox; [exact H0|exact H1|exact Hpos].
      * cbn [andb]. match goal with |- context [if ?c then _ else _] => destruct c end;
          apply Hwhole.
    + destruct (skimage_resize (map_array inject_Z a) img_height img_width) as [v|].
      * match goal with |- context [0 <? len ?w] => destruct (0 <? len w) eqn:Hpos end.
        -- cbn [andb negb]. apply Hbbox; [reflexivity|reflexivity|exact Hpos].
        -- cbn [andb]. match goal with |- context [if ?c then _ else _] => destruct c end;
             apply Hwhole.
      * rewrite andb_false_r.
        match goal with |- context [if ?c then _ else _] => destruct c end; apply Hwhole.
Qed.

Lemma midpoint_between (lo hi : Z) : lo <= hi -> lo <= (lo + hi) / 2 <= hi.
Proof.
  intros H. split.
  - apply Z.div_le_lower_bound; lia.
  - apply Z.div_le_upper_bound; lia.
Qed.

(** In a region inside the image the solid branch of the sampler puts the
    centre inside the image and uses a size of at least 10 x 10. *)
Lemma sample_center_solid_inside (mask_given : bool) (r : region)
      (img_height img_width new_h new_w : Z) (g : rng) :
  0 <= min_y r <= max_y r -> max_y r < img_height ->
  0 <= min_x r <= max_x r -> max_x r < img_width ->
  exists p g',
    sample_center false mask_given r new_h new_w g = Ok (p, g') /\
    0 <= center_y p < img_height /\ 0 <= center_x p < img_width /\
    BatchGenerator.new_h p = Z.max 10 new_h /\
    BatchGenerator.new_w p = Z.max 10 new_w.
Proof.
  intros Hy HyH Hx HxW.
  destruct (sample_center_solid mask_given r new_h new_w g) as [Hin Hout].
  set (nh := Z.max 10 new_h) in *. set (nw := Z.max 10 new_w) in *.
  set (ah := Z.max 0 (Z.max 1 (max_y r - min_y r + 1) - nh)) in *.
  set (aw := Z.max 0 (Z.max 1 (max_x r - min_x r + 1) - nw)) in *.
  assert (Hnh : 0 <= nh / 2 < nh)
    by (split; [apply Z.div_pos; lia | apply Z.div_lt; lia]).
  assert (Hnw : 0 <= nw / 2 < nw)
    by (split; [apply Z.div_pos; lia | apply Z.div_lt; lia]).
  destruct (Z_lt_le_dec 0 ah) as [Hah|Hah]; [destruct (Z_lt_le_dec 0 aw) as [Haw|Haw]|].
  - destruct (Hin (conj Hah Haw)) as (oy & ox & g' & Hrun & Hoy & Hox).
    eexists. exists g'. split; [exact Hrun|]. cbn [center_y center_x BatchGenerator.new_h BatchGenerator.new_w].
    unfold ah, aw in *. repeat split; try lia.
  - rewrite Hout by lia. eexists. eexists. split; [reflexivity|].
    cbn [center_y center_x BatchGenerator.new_h BatchGenerator.new_w].
    pose proof (midpoint_between _ _ (proj2 Hy)).
    pose proof (midpoint_between _ _ (proj2 Hx)). repeat split; lia.
  - rewrite Hout by lia. eexists. eexists. split; [reflexivity|].
    cbn [center_y center_x BatchGenerator.new_h BatchGenerator.new_w].
    pose proof (midpoint_between _ _ (proj2 Hy)).
    pose proof (midpoint_between _ _ (proj2 Hx)). repeat split; lia.
Qed.

Lemma py_int_pos (q : Q) : (1 <= q)%Q -> 0 < py_int q.
Proof.
  unfold Qle, py_int. destruct q as [n d]. cbn [Qnum Qden]. intros H.
  apply Z.quot_str_pos. lia.
Qed.

Lemma rotated_extent_pos (h w : Z) (a b : Q) :
  1 <= h -> 1 <= w -> (1 <= Qabs a + Qabs b)%Q ->
  (1 <= inject_Z h * Qabs b + inject_Z w * Qabs a)%Q.
Proof.
  intros Hh Hw Hab.
  apply Qle_trans with (y := (Qabs a + Qabs b)%Q); [exact Hab|].
  rewrite (Qplus_comm (Qabs a) (Qabs b)).
  apply Qplus_le_compat.
  - rewrite <- (Qmult_1_l (Qabs b)) at 1.
    apply Qmult_le_compat_r; [|apply Qabs_nonneg].
    rewrite <- (Zle_Qle 1). exact Hh.
  - rewrite <- (Qmult_1_l (Qabs a)) at 1.
    apply Qmult_le_compat_r; [|apply Qabs_nonneg].
    rewrite <- (Zle_Qle 1). exact Hw.
Qed.

(** The size pasted is positive when the sampled one is. *)
Lemma placed_size_pos (p : placement) (angle : Z) :
  cos_sin_sound ->
  0 < BatchGenerator.new_h p -> 0 < BatchGenerator.new_w p ->
  0 < fst (placed_size p angle) /\ 0 < snd (placed_size p angle).
Proof.
  intros Hsound Hh Hw. unfold placed_size.
  destruct (angle =? 0); [cbn [fst snd]; split; assumption|].
  rewrite rotation_plan_unfold. cbn [fst snd].
  specialize (Hsound angle). split; apply py_int_pos.
  - apply rotated_extent_pos; [lia|lia|].
    rewrite Qplus_comm. exact Hsound.
  - apply rotated_extent_pos; [lia|lia|exact Hsound].
Qed.

Lemma place_defect_composite (st : state) (defect_img : image) (p : placement)
      (angle : Z) (alpha : Q) (di : defect_info) :
  0 < BatchGenerator.new_h p -> 0 < BatchGenerator.new_w p ->
  exists transformed,
    place_defect st defect_img p angle alpha di
    = composite st transformed (center_y p) (center_x p)
                (fst (placed_size p angle)) (snd (placed_size p angle)) alpha di.
Proof.
  intros Hh Hw.
  destruct (place_defect_unfold st defect_img p angle alpha di) as [Hst|Hex];
    [|exact Hex].
  unfold place_defect in *.
  assert (Hres : exists resized,
             resize_image defect_img (BatchGenerator.new_w p) (BatchGenerator.new_h p)
             = Ok resized /\
             image_shape resized = (BatchGenerator.new_h p, BatchGenerator.new_w p)).
  { unfold resize_image, Cv.resize.
    destruct (Z.ltb_spec 0 (BatchGenerator.new_w p)); [|lia].
    destruct (Z.ltb_spec 0 (BatchGenerator.new_h p)); [|lia]. cbn [andb].
    destruct defect_img; eexists; split; reflexivity. }
  destruct Hres as (resized & -> & Hshape).
  unfold apply_rotation, placed_size. rewrite Hshape.
  destruct (angle =? 0); [eexists; reflexivity|].
  destruct (rotation_plan (BatchGenerator.new_h p) (BatchGenerator.new_w p) angle)
    as [[M new_width] new_height].
  eexists. reflexivity.
Qed.

(** Pasting around a centre inside the image, with a positive sampled
    size and cosines and sines as those of real angles, never drops the
    defect: exactly one record is added, it carries the defect's type
    (or "default_defect"), and its rectangle lies in the image and holds
    the centre. *)
Lemma place_defect_adds_record :
  forall (st : state) (defect_img : image) (p : placement) (angle : Z) (alpha : Q)
         (di : defect_info),
    cos_sin_sound ->
    0 <= center_y p < shape0 (result_image st) ->
    0 <= center_x p < shape1 (result_image st) ->
    0 < BatchGenerator.new_h p -> 0 < BatchGenerator.new_w p ->
    exists r,
      defect_info_list (place_defect st defect_img p angle alpha di)
      = defect_info_list st ++ [r] /\
      rec_name r = get (defect_type di) "default_defect"%string /\
      rect_in_image (shape0 (result_image st)) (shape1 (result_image st)) (rec_rect r) /\
      in_rect (rec_rect r) (center_y p) (center_x p) = true.
Proof.
  intros st img p angle alpha di Hsound Hcy Hcx Hh Hw.
  destruct (place_defect_composite st img p angle alpha di Hh Hw) as [tr ->].
  destruct (placed_size_pos p angle Hsound Hh Hw) as [Hph Hpw].
  set (nh := fst (placed_size p angle)) in *.
  set (nw := snd (placed_size p angle)) in *.
  pose proof (centre_inside_overlaps _ _ _ _ nh nw Hcy Hcx Hph Hpw) as Hne.
  destruct (composite_records st tr (center_y p) (center_x p) nh nw alpha di)
    as [Hadd _].
  destruct (Hadd Hne) as (r & Hlist & Hrect & Hname).
  exists r. split; [exact Hlist|]. split; [exact Hname|]. rewrite Hrect.
  split; [apply clip_rect_in_image; exact Hne|].
  unfold in_rect, clip_rect, target_rect. cbn [left top right bottom].
  assert (0 <= nh / 2 < nh) by (split; [apply Z.div_pos; lia | apply Z.div_lt; lia]).
  assert (0 <= nw / 2 < nw) by (split; [apply Z.div_pos; lia | apply Z.div_lt; lia]).
  repeat (apply andb_true_intro; split);
    first [apply Z.leb_le; lia | apply Z.ltb_lt; lia].
Qed.

Lemma choose_layer_ok (chk_random_layer : bool) (selected_layers : list Z) (g : rng) :
  selected_layers <> [] ->
  exists layer_num g',
    choose_layer chk_random_layer selected_layers g = Ok (layer_num, g') /\
    In layer_num selected_layers.
Proof.
  intros Hne. unfold choose_layer.
  destruct selected_layers as [|l0 t]; [congruence|].
  set (sel := l0 :: t).
  assert (Hlen : 0 < len sel) by (unfold len, sel; cbn [List.length]; lia).
  destruct (chk_random_layer && negb (len sel =? 0)).
  - unfold choice, bind, next_draw. fold sel.
    set (j := Z.to_nat (draws g (used g) mod len sel)).
    assert (Hj : (j < List.length sel)%nat).
    { unfold j, len in *.
      pose proof (Z.mod_pos_bound (draws g (used g))
                    (Z.of_nat (List.length sel)) Hlen). lia. }
    destruct (nth_error sel j) as [l|] eqn:Hnth.
    + exists l. eexists. split; [|eapply nth_error_In; exact Hnth].
      unfold sel at 1. fold j. rewrite Hnth. reflexivity.
    + apply nth_error_None in Hnth. lia.
  - exists l0, g. split; [reflexivity|]. left. reflexivity.
Qed.

(** One turn of the loop over the defects, on solid layers. *)
Lemma transfer_defect_solid_ok (chk_random_layer : bool) (selected_layers : list Z)
      (layer_masks : Z -> layer_mask) (hollow_layers : Z -> bool)
      (st : state) (d : defect) (g : rng) :
  cos_sin_sound ->
  selected_layers <> [] ->
  (forall l, In l selected_layers -> hollow_layers l = false) ->
  0 < shape0 (result_image st) -> 0 < shape1 (result_image st) ->
  loaded d <> None -> valid_ranges (info d) ->
  exists st' g' r,
    transfer_defect chk_random_layer selected_layers layer_masks hollow_layers st d g
      = Ok (st', g') /\
    defect_info_list st' = defect_info_list st ++ [r] /\
    rec_name r = label_of d /\
    shape0 (result_image st') = shape0 (result_image st) /\
    shape1 (result_image st') = shape1 (result_image st).
Proof.
  intros Hsound Hne Hsolid HH HW Hload (Hs & Ha & Hang).
  unfold transfer_defect.
  destruct (loaded d) as [img|]; [|congruence].
  destruct (randint_range _ _ g Hs) as (s & g1 & Hrun1 & _).
  rewrite (bind_ok _ _ _ _ _ Hrun1).
  destruct (randint_range _ _ g1 Ha) as (a & g2 & Hrun2 & _).
  rewrite (bind_ok _ _ _ _ _ Hrun2).
  destruct (randint_range _ _ g2 Hang) as (angle & g3 & Hrun3 & _).
  rewrite (bind_ok _ _ _ _ _ Hrun3).
  destruct (choose_layer_ok chk_random_layer selected_layers g3 Hne)
    as (layer_num & g4 & Hrun4 & Hin).
  rewrite (bind_ok _ _ _ _ _ Hrun4).
  rewrite (Hsolid _ Hin).
  destruct (image_shape img) as [h w].
  destruct (scaled_size h w (inject_Z s / 100)) as [nh nw].
  destruct (solid_region_inside_image (layer_masks layer_num) _ _ HH HW)
    as (Hy & HyH & Hx & HxW).
  destruct (sample_center_solid_inside (mask_given (layer_masks layer_num)) _ _ _
              nh nw g4 Hy HyH Hx HxW)
    as (p & g5 & Hrun5 & Hcy & Hcx & Hph & Hpw).
  rewrite (bind_ok _ _ _ _ _ Hrun5). unfold ret.
  destruct (place_defect_adds_record st img p angle (inject_Z a / 100) (info d)
              Hsound Hcy Hcx ltac:(lia) ltac:(lia))
    as (r & Hlist & Hname & _ & _).
  destruct (place_defect_keeps_records st img p angle (inject_Z a / 100) (info d))
    as (H0 & H1 & _).
  eexists. exists g5, r. split; [reflexivity|].
  split; [exact Hlist|]. split; [exact Hname|]. split; assumption.
Qed.

Lemma transfer_defects_solid_ok (chk_random_layer : bool) (selected_layers : list Z)
      (layer_masks : Z -> layer_mask) (hollow_layers : Z -> bool) :
  cos_sin_sound ->
  selected_layers <> [] ->
  (forall l, In l selected_layers -> hollow_layers l = false) ->
  forall (ds : list defect) (st : state) (g : rng),
    0 < shape0 (result_image st) -> 0 < shape1 (result_image st) ->
    Forall (fun d => loaded d <> None /\ valid_ranges (info d)) ds ->
    exists st' g',
      transfer_defects chk_random_layer selected_layers layer_masks hollow_layers st ds g
        = Ok (st', g') /\
      map rec_name (defect_info_list st')
        = map rec_name (defect_info_list st) ++ map label_of ds.
Proof.
  intros Hsound Hne Hsolid ds.
  induction ds as [|d ds IH]; intros st g HH HW Hall.
  - exists st, g. split; [reflexivity|]. cbn [map]. rewrite app_nil_r. reflexivity.
  - inversion Hall as [|d' ds' [Hload Hvalid] Hrest]; subst.
    destruct (transfer_defect_solid_ok chk_random_layer selected_layers layer_masks
                hollow_layers st d g Hsound Hne Hsolid HH HW Hload Hvalid)
      as (st1 & g1 & r & Hrun & Hlist & Hname & H0 & H1).
    destruct (IH st1 g1 ltac:(lia) ltac:(lia) Hrest) as (st' & g' & Hrun' & Hnames).
    exists st', g'. cbn [transfer_defects]. rewrite (bind_ok _ _ _ _ _ Hrun).
    split; [exact Hrun'|].
    rewrite Hnames, Hlist, map_app. cbn [map]. rewrite Hname, <- app_assoc.
    reflexivity.
Qed.

(** The defects of one image are some of the enabled ones, and drawing
    them does not fail when the spin box holds at least 1. *)
Lemma defects_to_transfer_incl {A} (chk_random_defect : bool) (spin_max_defects : Z)
      (selected_defects : list A) (g : rng) :
  1 <= spin_max_defects ->
  exists ds g',
    defects_to_transfer chk_random_defect spin_max_defects selected_defects g
      = Ok (ds, g') /\
    incl ds selected_defects.
Proof.
  intros Hmx. unfold defects_to_transfer.
  destruct (chk_random_defect && negb (len selected_defects =? 0)) eqn:Hflag.
  - apply andb_prop in Hflag. destruct Hflag as [_ Hlen].
    apply negb_true_iff in Hlen. apply Z.eqb_neq in Hlen.
    assert (1 <= len selected_defects) by (unfold len in *; lia).
    destruct (randint_range 1 (Z.min spin_max_defects (len selected_defects)) g)
      as (k & g1 & Hk & Hrange); [lia|].
    rewrite (bind_ok _ _ _ _ _ Hk). unfold sample.
    destruct (Z.ltb_spec k 0) as [|_]; [lia|].
    destruct (Z.ltb_spec (len selected_defects) k) as [|_]; [lia|]. cbn [orb].
    destruct (sample_pool_spec (Z.to_nat k) selected_defects g1)
      as (picked & g' & Hrun & _ & rest & Hperm).
    { unfold len in *. lia. }
    exists picked, g'. split; [exact Hrun|].
    intros x Hx. apply (Permutation_in x Hperm). apply in_or_app. left. exact Hx.
  - exists selected_defects, g. split; [reflexivity|]. apply incl_refl.
Qed.

(** X8: on solid layers no defect is lost.  With at least one selected
    layer, none of the selected layers hollow, a target image that is not
    empty, every enabled defect decodable and with ranges that are not
    empty, a spin box value of at least 1, and cosines and sines as those
    of real angles, generating an image does not fail, and its records
    are one per defect drawn for the image, in the order of the drawing,
    each under the defect's type (or "default_defect"). *)
Theorem generate_image_records_every_defect :
  forall (chk_random_layer chk_random_defect : bool) (spin_max_defects : Z)
         (selected_layers : list Z) (layer_masks : Z -> layer_mask)
         (hollow_layers : Z -> bool) (target_image : ndarray bgr)
         (selected_defects : list defect) (g : rng),
    cos_sin_sound ->
    selected_layers <> [] ->
    (forall l, In l selected_layers -> hollow_layers l = false) ->
    0 < shape0 target_image -> 0 < shape1 target_image ->
    Forall (fun d => loaded d <> None /\ valid_ranges (info d)) selected_defects ->
    1 <= spin_max_defects ->
    exists ds g1 st g',
      defects_to_transfer chk_random_defect spin_max_defects selected_defects g
        = Ok (ds, g1) /\
      generate_image chk_random_layer chk_random_defect spin_max_defects
                     selected_layers layer_masks hollow_layers target_image
                     selected_defects g = Ok (st, g') /\
      map rec_name (defect_info_list st) = map label_of ds.
Proof.
  intros rl rd mx layers masks hollow target sel g Hsound Hne Hsolid HH HW Hall Hmx.
  destruct (defects_to_transfer_incl rd mx sel g Hmx) as (ds & g1 & Hds & Hincl).
  assert (Hall' : Forall (fun d => loaded d <> None /\ valid_ranges (info d)) ds).
  { apply Forall_forall. intros d Hd.
    exact (proj1 (Forall_forall _ sel) Hall d (Hincl d Hd)). }
  destruct (transfer_defects_solid_ok rl layers masks hollow Hsound Hne Hsolid ds
              {| result_image := target; defect_info_list := [] |} g1 HH HW Hall')
    as (st & g' & Hrun & Hnames).
  exists ds, g1, st, g'. split; [exact Hds|].
  unfold generate_image. rewrite (bind_ok _ _ _ _ _ Hds).
  split; [exact Hrun|exact Hnames].
Qed.

End EveryDefectPlaced.

(** The exact cosines and sines of the quarter turns have
    |cos| + |sin| = 1. *)
Lemma quarter_cos_sin_sound : cos_sin_sound (Ext := Reference.external).
Proof.
  intros angle. cbn [cos_sin Reference.external]. unfold Reference.quarter_cos_sin.
  destruct (angle mod 360 =? 90); [vm_compute; discriminate|].
  destruct (angle mod 360 =? 180); [vm_compute; discriminate|].
  destruct (angle mod 360 =? 270); vm_compute; discriminate.
Qed.

(** Two defects on a target of 20 x 20 pixels, one solid layer: two
    records, "scratch" and then "default_defect". *)
Lemma generate_image_records_every_defect_witness :
  let target := {| shape0 := 20; shape1 := 20; item := fun _ _ => (10, 10, 10) |} in
  let sprite := Bgr {| shape0 := 10; shape1 := 10; item := fun _ _ => (200, 200, 200) |} in
  let d1 := {| name := "scratch.png"%string; loaded := Some sprite;
               info := {| scale_min := None; scale_max := None;
                          alpha_min := None; alpha_max := None;
                          angle_min := Some 0; angle_max := Some 90;
                          defect_type := Some "scratch"%string |} |} in
  let d2 := {| name := "dent.png"%string; loaded := Some sprite;
               info := {| scale_min := Some 50; scale_max := Some 150;
                          alpha_min := None; alpha_max := None;
                          angle_min := None; angle_max := None;
                          defect_type := None |} |} in
  let g := {| draws := fun n => Z.of_nat n; used := O |} in
  exists ds g1 st g',
    defects_to_transfer false 3 [d1; d2] g = Ok (ds, g1) /\
    generate_image (Ext := Reference.external) true false 3 [1]
                   (fun _ => ContourMask [(2, 2); (17, 2); (17, 17); (2, 17)])
                   (fun _ => false) target [d1; d2] g = Ok (st, g') /\
    map rec_name (defect_info_list st) = map label_of ds.
Proof.
  intros target sprite d1 d2 g.
  apply (generate_image_records_every_defect (Ext := Reference.external)
           true false 3 [1]
           (fun _ => ContourMask [(2, 2); (17, 2); (17, 17); (2, 17)])
           (fun _ => false) target [d1; d2] g).
  - exact quarter_cos_sin_sound.
  - discriminate.
  - reflexivity.
  - reflexivity.
  - reflexivity.
  - repeat constructor; cbn; try discriminate; lia.
  - lia.
Defined.

(** ** Pixels outside the recorded rectangles *)
Section Frame.
Context `{Ext : External}.

Lemma outside_records_app (l1 l2 : list defect_record) (y x : Z) :
  outside_records (l1 ++ l2) y x <-> outside_records l1 y x /\ outside_records l2 y x.
Proof.
  unfold outside_records. split.
  - intros H. split; intros r Hr; apply H; apply in_or_app; [left|right]; exact Hr.
  - intros [H1 H2] r Hr. apply in_app_or in Hr. destruct Hr; [apply H1|apply H2]; assumption.
Qed.

(** Pasting writes inside the rectangle it records, and nowhere when it
    records none. *)
Lemma composite_frame (st : state) (img : image) (cy cx nh nw : Z) (alpha : Q)
      (di : defect_info) :
  exists added,
    defect_info_list (composite st img cy cx nh nw alpha di)
      = defect_info_list st ++ added /\
    forall y x,
      outside_records added y x ->
      item (result_image (composite st img cy cx nh nw alpha di)) y x
      = item (result_image st) y x.
Proof.
  unfold composite. destruct (split_channels img) as [sprite mask].
  set (v := clip_rect _ _ _).
  destruct (nonempty_rect v).
  - destruct mask as [m|]; eexists; (split; [reflexivity|]); intros y x Hout;
      cbn [result_image assign_slice item];
      (match goal with
       | H : outside_records [?r] y x |- _ =>
           specialize (H r (or_introl eq_refl)); unfold in_rect in H;
           cbn [rec_rect] in H; rewrite H
       end); reflexivity.
  - exists []. split; [rewrite app_nil_r; reflexivity|]. reflexivity.
Qed.

Lemma place_defect_frame (st : state) (defect_img : image) (p : placement)
      (angle : Z) (alpha : Q) (di : defect_info) :
  exists added,
    defect_info_list (place_defect st defect_img p angle alpha di)
      = defect_info_list st ++ added /\
    forall y x,
      outside_records added y x ->
      item (result_image (place_defect st defect_img p angle alpha di)) y x
      = item (result_image st) y x.
Proof.
  destruct (place_defect_unfold st defect_img p angle alpha di) as [->|[tr ->]].
  - exists []. split; [rewrite app_nil_r; reflexivity|]. reflexivity.
  - apply composite_frame.
Qed.

Ltac run_step H x g :=
  apply bind_inv in H; destruct H as (x & g & _ & H).

Lemma transfer_defect_frame chk_random_layer selected_layers layer_masks
      hollow_layers (st : state) (d : defect) g st' g' :
  transfer_defect chk_random_layer selected_layers layer_masks hollow_layers st d g
    = Ok (st', g') ->
  exists added,
    defect_info_list st' = defect_info_list st ++ added /\
    forall y x,
      outside_records added y x ->
      item (result_image st') y x = item (result_image st) y x.
Proof.
  unfold transfer_defect. destruct (loaded d) as [img|]; [|discriminate].
  intros Hrun.
  run_step Hrun s g1. run_step Hrun a g2. run_step Hrun angle g3.
  run_step Hrun layer_num g4.
  destruct (image_shape img) as [h w].
  destruct (scaled_size h w (inject_Z s / 100)) as [nh nw].
  run_step Hrun p g5.
  inversion Hrun; subst. apply place_defect_frame.
Qed.

Lemma transfer_defects_frame chk_random_layer selected_layers layer_masks
      hollow_layers (ds : list defect) :
  forall (st : state) g st' g',
    transfer_defects chk_random_layer selected_layers layer_masks hollow_layers st ds g
      = Ok (st', g') ->
    exists added,
      defect_info_list st' = defect_info_list st ++ added /\
      forall y x,
        outside_records added y x ->
        item (result_image st') y x = item (result_image st) y x.
Proof.
  induction ds as [|d ds IH]; intros st g st' g' Hrun.
  - inversion Hrun; subst. exists []. split; [rewrite app_nil_r; reflexivity|].
    reflexivity.
  - cbn [transfer_defects] in Hrun. apply bind_inv in Hrun.
    destruct Hrun as (st1 & g1 & Hone & Hrest).
    destruct (transfer_defect_frame _ _ _ _ _ _ _ _ _ Hone) as (l1 & Hl1 & Hpix1).
    destruct (IH _ _ _ _ Hrest) as (l2 & Hl2 & Hpix2).
    exists (l1 ++ l2). split; [rewrite Hl2, Hl1, app_assoc; reflexivity|].
    intros y x Hout. apply outside_records_app in Hout. destruct Hout as [H1 H2].
    rewrite (Hpix2 y x H2). apply Hpix1. exact H1.
Qed.

(** X9: a generated image differs from the target image only inside the
    rectangles of its records: a pixel that no record's rectangle holds
    has the target's value, whatever the layers, the defects and the
    draws were. *)
Theorem generate_image_changes_only_recorded_rectangles :
  forall (chk_random_layer chk_random_defect : bool) (spin_max_defects : Z)
         (selected_layers : list Z) (layer_masks : Z -> layer_mask)
         (hollow_layers : Z -> bool) (target_image : ndarray bgr)
         (selected_defects : list defect) (g : rng) (st : state) (g' : rng),
    generate_image chk_random_layer chk_random_defect spin_max_defects
                   selected_layers layer_masks hollow_layers target_image
                   selected_defects g = Ok (st, g') ->
    forall y x,
      outside_records (defect_info_list st) y x ->
      item (result_image st) y x = item target_image y x.
Proof.
  intros rl rd mx layers masks hollow target sel g st g' Hrun y x Hout.
  unfold generate_image in Hrun. apply bind_inv in Hrun.
  destruct Hrun as (ds & g1 & _ & Hrun).
  destruct (transfer_defects_frame _ _ _ _ _ _ _ _ _ Hrun) as (added & Hl & Hpix).
  cbn [defect_info_list result_image app] in Hl, Hpix.
  apply Hpix. rewrite <- Hl. exact Hout.
Qed.

End Frame.

(** A sprite of 10 x 10 pixels pasted into rows and columns 2..11 of a
    target of 20 x 20: the pixel (15, 15) keeps the target's value. *)
Lemma generate_image_changes_only_recorded_rectangles_witness :
  let target := {| shape0 := 20; shape1 := 20; item := fun _ _ => (10, 10, 10) |} in
  let d := {| name := "scratch.png"%string;
              loaded := Some (Bgr {| shape0 := 10; shape1 := 10;
                                     item := fun _ _ => (200, 200, 200) |});
              info := {| scale_min := None; scale_max := None;
                         alpha_min := None; alpha_max := None;
                         angle_min := Some 0; angle_max := Some 0;
                         defect_type := Some "scratch"%string |} |} in
  let run := generate_image (Ext := Reference.external) false false 3 [1]
               (fun _ => ContourMask [(2, 2); (17, 2); (17, 17); (2, 17)])
               (fun _ => false) target [d] {| draws := fun _ => 0; used := O |} in
  exists st g',
    run = Ok (st, g') /\
    outside_records (defect_info_list st) 15 15 /\
    item (result_image st) 15 15 = (10, 10, 10).
Proof.
  intros target d run.
  destruct run as [[st g']|e] eqn:Hrun.
  - exists st, g'. split; [reflexivity|].
    assert (Hout : outside_records (defect_info_list st) 15 15).
    { assert (Hrects : match run with
                       | Ok (st0, _) => map rec_rect (defect_info_list st0)
                       | Raised _ => []
                       end
                       = [{| left := 2; top := 2; right := 12; bottom := 12 |}])
        by (vm_compute; reflexivity).
      unfold run in Hrects, Hrun. rewrite Hrun in Hrects.
      intros r Hr. apply (in_map rec_rect) in Hr. rewrite Hrects in Hr.
      destruct Hr as [<-|[]]. reflexivity. }
    split; [exact Hout|].
    exact (generate_image_changes_only_recorded_rectangles
             (Ext := Reference.external) _ _ _ _ _ _ _ _ _ _ _ Hrun 15 15 Hout).
  - exfalso.
    assert (Hok : match run with Ok _ => True | Raised _ => False end)
      by (vm_compute; exact I).
    unfold run in Hok, Hrun. rewrite Hrun in Hok. exact Hok.
Defined.

(** ** [DefectTransferNew]: extraction and blending *)
Import DefectTransfer.

Section Extraction.
Context `{Ext : External}.

Lemma len_pos_nonempty {A} (l : list A) : l <> [] -> (0 <? len l) = true.
Proof.
  intros Hne. apply Z.ltb_lt. unfold len. destruct l; [congruence|].
  cbn [List.length]. lia.
Qed.

Lemma slice_inside_shape {A} (a : ndarray A) (lo hi lo' hi' : Z) :
  0 <= lo <= hi -> hi < shape0 a -> 0 <= lo' <= hi' -> hi' < shape1 a ->
  shape0 (slice a lo (hi + 1) lo' (hi' + 1)) = hi - lo + 1 /\
  shape1 (slice a lo (hi + 1) lo' (hi' + 1)) = hi' - lo' + 1.
Proof. intros. cbn [slice shape0 shape1]. lia. Qed.

(** X10: with both images loaded, a mask of the original's shape and at
    least one pixel that is not 0 as uint8, [set_defect_mask] raises
    nothing and crops to the bounding box of those pixels: the box lies
    in the image, holds every such pixel and has one on each of its four
    sides; the cropped mask is the uint8 mask inside the box; the cropped
    defect is the original where that mask is positive and black
    elsewhere; and the position is reset so that the crop is centred on
    the target. *)
Theorem set_defect_mask_crops_bounding_box :
  forall (t : transfer) (mask : ndarray Z) (original target : ndarray bgr),
    original_image t = Some original ->
    target_image t = Some target ->
    shape0 mask = shape0 original -> shape1 mask = shape1 original ->
    (exists y x, 0 <= y < shape0 mask /\ 0 <= x < shape1 mask /\
                 0 < item mask y x mod 256) ->
    exists (y_min y_max x_min x_max : Z) (defect : ndarray bgr) (cmask : ndarray Z)
           (t' : transfer),
      set_defect_mask t mask = (t', None) /\
      cropped t' = Some (defect, cmask) /\
      (0 <= y_min <= y_max /\ y_max < shape0 original) /\
      (0 <= x_min <= x_max /\ x_max < shape1 original) /\
      (shape0 defect = y_max - y_min + 1 /\ shape1 defect = x_max - x_min + 1) /\
      (shape0 cmask = shape0 defect /\ shape1 cmask = shape1 defect) /\
      (forall i j,
          item cmask i j = item mask (y_min + i) (x_min + j) mod 256 /\
          item defect i j = if 0 <? item cmask i j
                            then item original (y_min + i) (x_min + j)
                            else (0, 0, 0)) /\
      (forall y x,
          0 <= y < shape0 mask -> 0 <= x < shape1 mask ->
          0 < item mask y x mod 256 ->
          y_min <= y <= y_max /\ x_min <= x <= x_max) /\
      ((exists j, 0 <= j < shape1 cmask /\ 0 < item cmask 0 j) /\
       (exists j, 0 <= j < shape1 cmask /\ 0 < item cmask (shape0 cmask - 1) j) /\
       (exists i, 0 <= i < shape0 cmask /\ 0 < item cmask i 0) /\
       (exists i, 0 <= i < shape0 cmask /\ 0 < item cmask i (shape1 cmask - 1))) /\
      current_position t'
      = ((shape1 target - shape1 defect) / 2, (shape0 target - shape0 defect) / 2).
Proof.
  intros t mask original target Horig Htarget Hs0 Hs1 (y0 & x0 & Hy0 & Hx0 & Hpos0).
  set (m := map_array (fun v => v mod 256) mask).
  set (wh := where_positive m).
  assert (Hwh : forall y x, In (y, x) wh <->
                  (0 <= y < shape0 mask /\ 0 <= x < shape1 mask /\
                   0 < item mask y x mod 256)).
  { intros y x. unfold wh, where_positive. rewrite in_np_where.
    cbn [m map_array shape0 shape1 item]. rewrite Z.ltb_lt. tauto. }
  assert (Hne : wh <> []).
  { intros Hnil. assert (Hin : In (y0, x0) wh) by (apply Hwh; tauto).
    rewrite Hnil in Hin. exact Hin. }
  destruct (bbox_region_bounds wh) as [Hall Hattained].
  destruct (Hattained Hne) as (Hmy & HMy & Hmx & HMx).
  cbn [bbox_region region_of min_y max_y min_x max_x] in Hall, Hmy, HMy, Hmx, HMx.
  assert (Hbox : 0 <= np_min 0 (map fst wh) <= np_max 0 (map fst wh) /\
                 np_max 0 (map fst wh) < shape0 mask /\
                 0 <= np_min 0 (map snd wh) <= np_max 0 (map snd wh) /\
                 np_max 0 (map snd wh) < shape1 mask)
    by exact (np_where_bbox_inside (fun v => 0 <? v) m Hne).
  destruct Hbox as (Hy & HyH & Hx & HxW).
  set (y_min := np_min 0 (map fst wh)) in *.
  set (y_max := np_max 0 (map fst wh)) in *.
  set (x_min := np_min 0 (map snd wh)) in *.
  set (x_max := np_max 0 (map snd wh)) in *.
  exists y_min, y_max, x_min, x_max.
  exists (slice (bitwise_and_mask original m) y_min (y_max + 1) x_min (x_max + 1)).
  exists (slice m y_min (y_max + 1) x_min (x_max + 1)).
  eexists.
  split.
  { unfold set_defect_mask, extract_defect.
    cbn [original_image defect_mask target_image cropped current_position
         current_scale current_rotation].
    rewrite Horig. fold m.
    replace ((shape0 m =? shape0 original) && (shape1 m =? shape1 original)) with true.
    2:{ cbn [m map_array shape0 shape1]. rewrite Hs0, Hs1, !Z.eqb_refl. reflexivity. }
    fold wh. rewrite (len_pos_nonempty wh Hne). rewrite Htarget.
    fold y_min y_max x_min x_max. reflexivity. }
  cbn [cropped current_position].
  assert (Hshape_d :
            shape0 (slice (bitwise_and_mask original m) y_min (y_max + 1) x_min (x_max + 1))
            = y_max - y_min + 1 /\
            shape1 (slice (bitwise_and_mask original m) y_min (y_max + 1) x_min (x_max + 1))
            = x_max - x_min + 1).
  { apply slice_inside_shape; cbn [bitwise_and_mask shape0 shape1]; lia. }
  assert (Hshape_m :
            shape0 (slice m y_min (y_max + 1) x_min (x_max + 1)) = y_max - y_min + 1 /\
            shape1 (slice m y_min (y_max + 1) x_min (x_max + 1)) = x_max - x_min + 1).
  { apply slice_inside_shape; cbn [m map_array shape0 shape1]; lia. }
  split; [reflexivity|].
  split; [lia|]. split; [lia|].
  split; [exact Hshape_d|].
  split; [destruct Hshape_d, Hshape_m; split; congruence|].
  split.
  { intros i j. cbn [slice bitwise_and_mask m map_array item]. split; [reflexivity|].
    pose proof (Z.mod_pos_bound (item mask (y_min + i) (x_min + j)) 256 ltac:(lia)).
    destruct (Z.eqb_spec (item mask (y_min + i) (x_min + j) mod 256) 0) as [H0|H0].
    - rewrite H0. reflexivity.
    - destruct (Z.ltb_spec 0 (item mask (y_min + i) (x_min + j) mod 256)); [reflexivity|lia]. }
  split.
  { intros y x Hyb Hxb Hp. apply Hall. apply Hwh. tauto. }
  split; [|reflexivity].
  destruct Hshape_m as [Hm0 Hm1]. rewrite Hm0, Hm1.
  assert (Hrow : forall y, In y (map fst wh) ->
                   exists j, 0 <= j < x_max - x_min + 1 /\
                             0 < item m y (x_min + j)).
  { intros y Hin. apply in_map_iff in Hin. destruct Hin as ([y' x'] & Hfst & Hin).
    cbn [fst] in Hfst. subst y'. pose proof (Hall _ _ Hin) as Hb.
    apply Hwh in Hin. exists (x' - x_min). split; [lia|].
    replace (x_min + (x' - x_min)) with x' by lia.
    cbn [m map_array item]. tauto. }
  assert (Hcol : forall x, In x (map snd wh) ->
                   exists i, 0 <= i < y_max - y_min + 1 /\
                             0 < item m (y_min + i) x).
  { intros x Hin. apply in_map_iff in Hin. destruct Hin as ([y' x'] & Hsnd & Hin).
    cbn [snd] in Hsnd. subst x'. pose proof (Hall _ _ Hin) as Hb.
    apply Hwh in Hin. exists (y' - y_min). split; [lia|].
    replace (y_min + (y' - y_min)) with y' by lia.
    cbn [m map_array item]. tauto. }
  cbn [slice item].
  repeat split.
  - destruct (Hrow _ Hmy) as (j & Hj & Hp). exists j. split; [exact Hj|].
    replace (y_min + 0) with y_min by lia. exact Hp.
  - destruct (Hrow _ HMy) as (j & Hj & Hp). exists j. split; [exact Hj|].
    replace (y_min + (y_max - y_min + 1 - 1)) with y_max by lia. exact Hp.
  - destruct (Hcol _ Hmx) as (i & Hi & Hp). exists i. split; [exact Hi|].
    replace (x_min + 0) with x_min by lia. exact Hp.
  - destruct (Hcol _ HMx) as (i & Hi & Hp). exists i. split; [exact Hi|].
    replace (x_min + (x_max - x_min + 1 - 1)) with x_max by lia. exact Hp.
Qed.

End Extraction.

Section Blending.
Context `{Ext : External}.











End Blending.

Section Transplant.
Context `{Ext : External}.



(** X13: [blend_defect_with_rotation] never fails where [blend_defect]
    succeeds: with rotation 0 the two give the same result; whenever the
    rotating one returns [None], so does the other; and it raises exactly
    when the other raises. *)
Theorem blend_defect_with_rotation_falls_back :
  forall (t : transfer) (s : Q),
    (current_rotation t = 0 ->
     blend_defect_with_rotation t s = blend_defect t s) /\
    (blend_defect_with_rotation t s = Returns None ->
     blend_defect t s = Returns None) /\
    (forall e, blend_defect_with_rotation t s = Raises e <->
               blend_defect t s = Raises e).
Proof.
  intros t s.
  assert (Hunfold : forall target c,
             target_image t = Some target -> cropped t = Some c ->
             blend_defect t s
             = match apply_scale_only c (current_scale t) with
               | Raised _ => Returns None
               | Ok (scaled_defect, scaled_mask) =>
                   Returns (blend_region target scaled_defect scaled_mask
                                         (current_position t) s)
               end).
  { intros target c Ht Hc. unfold blend_defect. rewrite Ht, Hc. reflexivity. }
  assert (Hreturns : forall target c,
             target_image t = Some target -> cropped t = Some c ->
             exists v, blend_defect t s = Returns v).
  { intros target c Ht Hc. rewrite (Hunfold target c Ht Hc).
    destruct (apply_scale_only c (current_scale t)) as [[d m]|e]; eexists; reflexivity. }
  unfold blend_defect_with_rotation.
  destruct (target_image t) as [target|] eqn:Ht.
  2:{ unfold blend_defect. rewrite Ht. repeat split; auto. }
  destruct (cropped t) as [c|] eqn:Hc.
  2:{ unfold blend_defect. rewrite Ht, Hc. repeat split; auto; discriminate. }
  destruct (Hreturns target c eq_refl eq_refl) as [v Hv].
  split; [|split].
  - intros Hrot. unfold apply_transformations. rewrite Hrot.
    rewrite (Hunfold target c eq_refl eq_refl).
    destruct (apply_scale_only c (current_scale t)) as [[d m]|e]; [|reflexivity].
    cbn [Z.eqb negb].
    destruct (blend_region target d m (current_position t) s); reflexivity.
  - destruct (apply_transformations c (current_scale t) (current_rotation t))
      as [[d m]|e]; [|auto].
    destruct (blend_region target d m (current_position t) s); [discriminate|auto].
  - intros e. rewrite Hv.
    destruct (apply_transformations c (current_scale t) (current_rotation t))
      as [[d m]|e']; [|tauto].
    destruct (blend_region target d m (current_position t) s);
      [split; discriminate|tauto].
Qed.




End Transplant.


(** An original of 4 x 4 pixels whose four middle pixels are masked, and
    a target of 6 x 6 pixels. *)
Lemma set_defect_mask_crops_bounding_box_witness :
  let original := {| shape0 := 4; shape1 := 4; item := fun y x => (10 * y + x, 100, 200) |} in
  let target := {| shape0 := 6; shape1 := 6; item := fun _ _ => (10, 10, 10) |} in
  let mask := {| shape0 := 4; shape1 := 4;
                 item := fun y x => if (1 <=? y) && (y <=? 2) && (1 <=? x) && (x <=? 2)
                                    then 1 else 0 |} in
  let t := fst (load_images init (Some original) (Some target)) in
  exists t' defect cmask,
    set_defect_mask (Ext := Reference.external) t mask = (t', None) /\
    cropped t' = Some (defect, cmask) /\
    current_position t'
    = ((shape1 target - shape1 defect) / 2, (shape0 target - shape0 defect) / 2).
Proof.
  intros original target mask t.
  destruct (set_defect_mask_crops_bounding_box (Ext := Reference.external)
              t mask original target eq_refl eq_refl eq_refl eq_refl
              ltac:(exists 1, 1; cbn; lia))
    as (y_min & y_max & x_min & x_max & defect & cmask & t' & Hset & Hc & _ & _ & _ & _
        & _ & _ & _ & Hpos).
  exists t', defect, cmask. split; [exact Hset|]. split; [exact Hc|exact Hpos].
Defined.



Lemma blend_defect_with_rotation_falls_back_witness :
  let target := {| shape0 := 6; shape1 := 6; item := fun _ _ => (10, 10, 10) |} in
  let d := {| shape0 := 2; shape1 := 2; item := fun _ _ => (200, 200, 200) |} in
  let m := {| shape0 := 2; shape1 := 2; item := fun _ _ => 255 |} in
  let t := {| original_image := None; target_image := Some target;
              defect_mask := None; cropped := Some (d, m);
              current_position := (1, 1); current_scale := 1%Q;
              current_rotation := 0 |} in
  current_rotation t = 0 /\
  blend_defect_with_rotation (Ext := Reference.external) t 1
  = blend_defect (Ext := Reference.external) t 1.
Proof.
  intros target d m t. split; [reflexivity|].
  apply (proj1 (blend_defect_with_rotation_falls_back (Ext := Reference.external) t 1)).
  reflexivity.
Defined.


(** ** The loop over the images *)
Section BatchLoop.
Context `{Ext : External}.




End BatchLoop.

